(** * partylights: the colour model and the effect-stepping engine of noel.py

    A shallow embedding of [src/noel.py], in two readings of its arithmetic.

    Exact arithmetic.  The whole program (colours, the eight effect
    classes, the driver and the main block) is modelled with Python floats
    as real numbers ([R] of the Standard Library): every operation is
    exact, [math.sin], [math.asin] and [math.sqrt] are the real functions,
    and [math.asin] raises [ValueError] outside [-1, 1] as CPython does.
    This reading settles what the code does step by step: which branch is
    taken, which object is written, which exception escapes, how many files
    are written.  A number it gives is the code's own expression without
    its rounding.

    Binary64 arithmetic.  Whatever depends on the doubles themselves (the
    digits of a hue, the integer that [int(255 * x)] truncates to, a hue
    that reaches exactly 1.0) is settled in [Module Double]: the same
    functions over [float], the IEEE 754 binary64 numbers of the Standard
    Library, with [%] and [int] as CPython computes them and the C
    library's [sin] and [asin] left open.

    Python integers (step counters, palette indices, list positions) are
    [nat]; RGB channels, produced by [int(...)], are [Z].

    Objects.  A colour sequence is a Python list of pairwise distinct
    [HSVColour] objects that the effects mutate in place; it is modelled as
    a [list HSVColour] threaded through every [step], a reference to one of
    its objects being its position in the list.  An effect object is a
    record of its attributes, threaded likewise.

    Exceptions.  A method that can raise returns, besides the state it
    leaves behind, [Some e] for the exception [e] that escaped it, or
    [None] when it returned normally.

    Output.  The driver's writes to the brightness files are recorded in
    the order they happen; what is printed is not.  The endless loop of the
    driver is observed for a given number of passes.  [finddevices], which
    reads the file system, and [Colour.__repr__] are not modelled. *)

From Stdlib Require Import String DecimalString.
From Stdlib Require Import Reals Lra Lia List ZArith Bool PeanoNat.
From Stdlib Require Floats QArith Qround Qabs.
Import ListNotations.
Open Scope R_scope.

(** ** Python exceptions that the modelled code can raise *)

Inductive exn : Set :=
| UnboundLocalError
| ValueError
| ZeroDivisionError
| IndexError
| NameError
| AttributeError
| TypeError
| OverflowError.

Inductive result (A : Type) : Type :=
| Ok (a : A)
| Raise (e : exn).
Arguments Ok {A} a.
Arguments Raise {A} e.

(** ** Numeric primitives *)

(** [x % m] on floats, for [m <> 0]: the result has the sign of [m]. *)
Definition pymod (x m : R) : R := x - m * IZR (Int_part (x / m)).

(** [int(x)]: truncation towards zero. *)
Definition py_int (x : R) : Z :=
  if Rle_dec 0 x then Int_part x else (- Int_part (- x))%Z.

(** [math.asin(x)]: a [ValueError] outside the domain. *)
Definition math_asin (x : R) : result R :=
  if Rle_dec (-1) x then
    if Rle_dec x 1 then Ok (asin x) else Raise ValueError
  else Raise ValueError.

(** ** Colours *)

Record Colour : Set := mkColour {
  red : Z;
  green : Z;
  blue : Z;
  alpha : Z
}.

(** [Colour(r, g, b)]: alpha defaults to 255. *)
Definition Colour3 (r g b : Z) : Colour := mkColour r g b 255.

Record HSVColour : Type := mkHSV {
  H : R;
  S : R;
  V : R
}.

Definition setH (c : HSVColour) (h : R) : HSVColour := mkHSV h (S c) (V c).
Definition setV (c : HSVColour) (v : R) : HSVColour := mkHSV (H c) (S c) v.
Definition setHSV (_ : HSVColour) (h s v : R) : HSVColour := mkHSV h s v.

(** The sector selection of [getRGBAColour]: [None] stands for the [else]
    branch, which prints a diagnostic and binds none of [R], [G], [B]. *)
Definition sector (C X Hprime : R) : option (R * R * R) :=
  if Rlt_dec Hprime 1 then Some (C, X, 0)
  else if Rlt_dec Hprime 2 then Some (X, C, 0)
  else if Rlt_dec Hprime 3 then Some (0, C, X)
  else if Rlt_dec Hprime 4 then Some (0, X, C)
  else if Rlt_dec Hprime 5 then Some (X, 0, C)
  else if Rlt_dec Hprime 6 then Some (C, 0, X)
  else None.

Definition getRGBAColour (c : HSVColour) : result Colour :=
  let C := V c * S c in
  let Hprime := H c * 6 in
  let X := C * (1 - Rabs (pymod Hprime 2 - 1)) in
  match sector C X Hprime with
  | Some (R_, G_, B_) =>
      let m := V c - C in
      Ok (Colour3 (py_int (255 * (R_ + m)))
                  (py_int (255 * (G_ + m)))
                  (py_int (255 * (B_ + m))))
  | None =>
      (* the diagnostic is printed, then [R + m] reads an unbound local *)
      Raise UnboundLocalError
  end.

(** ** The hue-spreading generator *)

Definition golden_step : R := 2 / (1 + sqrt 5).

(** [generateSpreadColours(k, distance)]; a caller that leaves [distance]
    out passes the default [-1]. *)
Definition generateSpreadColours (k : nat) (distance : R) : list HSVColour :=
  let H0 := 6 / 10 in
  let S0 := 99 / 100 in
  let V0 := 7 / 10 in
  let distance := if Req_dec_T distance (-1) then golden_step else distance in
  map (fun x => mkHSV (pymod (H0 + distance * INR x) 1) S0 V0) (seq 0 k).

(** ** Helpers for Python lists of objects *)

(** In-place update of the object at position [n]; positions past the end
    do not occur where the code uses it. *)
Fixpoint upd_nth {A : Type} (n : nat) (f : A -> A) (l : list A) : list A :=
  match l, n with
  | [], _ => []
  | x :: l', O => f x :: l'
  | x :: l', Datatypes.S n' => x :: upd_nth n' f l'
  end.

(** [[ math.asin(f(c)) for c in colours ]]: the comprehension stops at the
    first element that raises. *)
Fixpoint asin_all (f : HSVColour -> R) (cs : list HSVColour) : result (list R) :=
  match cs with
  | [] => Ok []
  | c :: cs' =>
      match math_asin (f c) with
      | Raise e => Raise e
      | Ok a =>
          match asin_all f cs' with
          | Raise e => Raise e
          | Ok l => Ok (a :: l)
          end
      end
  end.

(** What a method leaves behind: its object, the colours, and the exception
    that escaped, if any. *)
Definition outcome (St : Type) : Type := (St * list HSVColour * option exn)%type.

(** The sinusoid shared by the oscillating effects:
    [lo + range * (1 + math.sin(phase)) / 2.0]. *)
Definition wave (lo range phase : R) : R := lo + range * (1 + sin phase) / 2.

(** ** HSVCycleEffect *)

Record HSVCycleEffect : Type := mkHSVCycle {
  hc_dH : R;
  hc_dS : R;
  hc_dV : R;
  hc_nsteps : nat;
  hc_minS : R;
  hc_maxS : R;
  hc_Srange : R;
  hc_minV : R;
  hc_maxV : R;
  hc_Vrange : R;
  hc_Sinit : option (list R);   (* [None]: the attribute does not exist yet *)
  hc_Vinit : option (list R)
}.

(** [HSVCycleEffect.__init__] *)
Definition HSVCycleEffect_init (dH dS dV minS maxS minV maxV : R) : HSVCycleEffect :=
  mkHSVCycle dH dS dV 0 minS maxS (maxS - minS) minV maxV (maxV - minV) None None.

(** The defaults of the constructor's keyword arguments. *)
Definition default_dH : R := 5 / 100.
Definition default_min : R := 1 / 255.
Definition default_max : R := 1.

Definition hc_set_Sinit (e : HSVCycleEffect) (l : list R) : HSVCycleEffect :=
  mkHSVCycle (hc_dH e) (hc_dS e) (hc_dV e) (hc_nsteps e) (hc_minS e) (hc_maxS e)
    (hc_Srange e) (hc_minV e) (hc_maxV e) (hc_Vrange e) (Some l) (hc_Vinit e).

Definition hc_set_Vinit (e : HSVCycleEffect) (l : list R) : HSVCycleEffect :=
  mkHSVCycle (hc_dH e) (hc_dS e) (hc_dV e) (hc_nsteps e) (hc_minS e) (hc_maxS e)
    (hc_Srange e) (hc_minV e) (hc_maxV e) (hc_Vrange e) (hc_Sinit e) (Some l).

Definition hc_tick (e : HSVCycleEffect) : HSVCycleEffect :=
  mkHSVCycle (hc_dH e) (hc_dS e) (hc_dV e) (Datatypes.S (hc_nsteps e)) (hc_minS e)
    (hc_maxS e) (hc_Srange e) (hc_minV e) (hc_maxV e) (hc_Vrange e)
    (hc_Sinit e) (hc_Vinit e).

(** The body of the [for c, S, V in zip(...)] loop. *)
Definition hc_update (e : HSVCycleEffect) (c : HSVColour) (S0 V0 : R) : HSVColour :=
  mkHSV (pymod (H c + hc_dH e) 1)
        (wave (hc_minS e) (hc_Srange e) (S0 + hc_dS e * INR (hc_nsteps e)))
        (wave (hc_minV e) (hc_Vrange e) (V0 + hc_dV e * INR (hc_nsteps e))).

(** The loop itself: [zip] stops at the shortest of the three lists and the
    colours beyond that point are left as they are. *)
Fixpoint hc_loop (e : HSVCycleEffect) (colours : list HSVColour)
    (Ss Vs : list R) : list HSVColour :=
  match colours, Ss, Vs with
  | c :: cs, s :: Ss', v :: Vs' => hc_update e c s v :: hc_loop e cs Ss' Vs'
  | _, _, _ => colours
  end.

(** The [if self.nsteps == 0] block. *)
Definition hc_first (e : HSVCycleEffect) (colours : list HSVColour)
    : HSVCycleEffect * option exn :=
  if Nat.eqb (hc_nsteps e) 0 then
    match asin_all S colours with
    | Raise x => (e, Some x)
    | Ok ss =>
        match asin_all V colours with
        | Raise x => (hc_set_Sinit e ss, Some x)
        | Ok vs => (hc_set_Vinit (hc_set_Sinit e ss) vs, None)
        end
    end
  else (e, None).

Definition HSVCycleEffect_step (e : HSVCycleEffect) (colours : list HSVColour)
    : outcome HSVCycleEffect :=
  match hc_first e colours with
  | (e1, Some x) => (e1, colours, Some x)
  | (e1, None) =>
      let e2 := hc_tick e1 in
      match hc_Sinit e2, hc_Vinit e2 with
      | Some ss, Some vs => (e2, hc_loop e2 colours ss vs, None)
      | _, _ => (e2, colours, Some AttributeError)
      end
  end.

(** [HSVCycleEffect] does not override [reset]: the inherited one is [pass]. *)
Definition HSVCycleEffect_reset (e : HSVCycleEffect) : HSVCycleEffect := e.

(** ** ChristmasEffect *)

Record ChristmasEffect : Type := mkChristmas {
  ce_dV : R;
  ce_minV : R;
  ce_maxV : R;
  ce_Vrange : R;
  ce_hues : list R;
  ce_nsteps : nat;
  ce_switched : bool;
  ce_current : option (list nat);
  ce_Vinit : option (list R);
  ce_steps : option nat           (* the attribute written by [reset] *)
}.

(** [ChristmasEffect.__init__] *)
Definition ChristmasEffect_init (dV minV maxV : R) (hues : list R) : ChristmasEffect :=
  mkChristmas dV minV maxV (maxV - minV) hues 0 false None None None.

Definition default_hues : list R := [0; 51 / 360; 33 / 100].
Definition ChristmasEffect_default : ChristmasEffect :=
  ChristmasEffect_init (1 / 10) (1 / 255) (7 / 10) default_hues.

Definition ce_set_current (e : ChristmasEffect) (l : list nat) : ChristmasEffect :=
  mkChristmas (ce_dV e) (ce_minV e) (ce_maxV e) (ce_Vrange e) (ce_hues e)
    (ce_nsteps e) (ce_switched e) (Some l) (ce_Vinit e) (ce_steps e).

Definition ce_set_Vinit (e : ChristmasEffect) (l : list R) : ChristmasEffect :=
  mkChristmas (ce_dV e) (ce_minV e) (ce_maxV e) (ce_Vrange e) (ce_hues e)
    (ce_nsteps e) (ce_switched e) (ce_current e) (Some l) (ce_steps e).

Definition ce_set_switched (e : ChristmasEffect) (b : bool) : ChristmasEffect :=
  mkChristmas (ce_dV e) (ce_minV e) (ce_maxV e) (ce_Vrange e) (ce_hues e)
    (ce_nsteps e) b (ce_current e) (ce_Vinit e) (ce_steps e).

Definition ce_tick (e : ChristmasEffect) : ChristmasEffect :=
  mkChristmas (ce_dV e) (ce_minV e) (ce_maxV e) (ce_Vrange e) (ce_hues e)
    (Datatypes.S (ce_nsteps e)) (ce_switched e) (ce_current e) (ce_Vinit e)
    (ce_steps e).

(** [self.hues[k % len(self.hues)]] *)
Definition palette (hues : list R) (k : nat) : result R :=
  match length hues with
  | O => Raise ZeroDivisionError
  | n =>
      match nth_error hues (k mod n) with
      | Some h => Ok h
      | None => Raise IndexError
      end
  end.

(** [for i, c in enumerate(colours): c.H = self.hues[idx(i) % len(self.hues)]],
    started at position [i]; [idx] is [i] itself on the first step and
    [self.current[i]] afterwards.  The colours set before an exception keep
    their new hue. *)
Fixpoint assign_hues (hues : list R) (idx : nat -> result nat) (i : nat)
    (cs : list HSVColour) : list HSVColour * option exn :=
  match cs with
  | [] => ([], None)
  | c :: cs' =>
      match idx i with
      | Raise x => (cs, Some x)
      | Ok k =>
          match palette hues k with
          | Raise x => (cs, Some x)
          | Ok h =>
              let (r, x) := assign_hues hues idx (Datatypes.S i) cs' in
              (setH c h :: r, x)
          end
      end
  end.

Definition idx_enumerate (i : nat) : result nat := Ok i.

(** [self.current[i]] *)
Definition idx_current (current : list nat) (i : nat) : result nat :=
  match nth_error current i with
  | Some k => Ok k
  | None => Raise IndexError
  end.

(** The [if self.nsteps == 0] block. *)
Definition ce_first (e : ChristmasEffect) (colours : list HSVColour)
    : outcome ChristmasEffect :=
  if Nat.eqb (ce_nsteps e) 0 then
    let e1 := ce_set_current e (seq 0 (length colours)) in
    match asin_all V colours with
    | Raise x => (e1, colours, Some x)
    | Ok vs =>
        let e2 := ce_set_Vinit e1 vs in
        let (cs, x) := assign_hues (ce_hues e) idx_enumerate 0 colours in
        (e2, cs, x)
    end
  else (e, colours, None).

(** What one pass of the loop body did to the latch. *)
Inductive latch_event : Set := Fire | Release | Hold.

(** The decision taken by the [if]/[elif] of the loop body. *)
Definition latch_decide (newV oldV : R) (switched : bool) : latch_event :=
  if Rgt_dec newV oldV then
    if switched then Hold else Fire
  else if Rlt_dec newV oldV then
    if switched then Release else Hold
  else Hold.

(** The value [newV] computed for a device whose recorded phase is [v]. *)
Definition ce_newV (e : ChristmasEffect) (v : R) : R :=
  wave (ce_minV e) (ce_Vrange e) (v + ce_dV e * INR (ce_nsteps e)).

(** One pass of the body of [for c, V in zip(colours, self.Vinit)], for the
    colour [c] found at position [j] and its phase [v].  The inner
    [for i, c in enumerate(colours)] rebinds [c], so after a switch the
    closing [c.V = newV] writes to the last colour of the list. *)
Definition ce_body (e : ChristmasEffect) (j : nat) (c : HSVColour) (v : R)
    (colours : list HSVColour) : outcome ChristmasEffect * latch_event :=
  let newV := ce_newV e v in
  match latch_decide newV (V c) (ce_switched e) with
  | Fire =>
      match ce_current e with
      | None => ((e, colours, Some AttributeError), Fire)
      | Some cur =>
          let cur' := map Datatypes.S cur in
          let e1 := ce_set_current e cur' in
          match assign_hues (ce_hues e) (idx_current cur') 0 colours with
          | (cs1, Some x) => ((e1, cs1, Some x), Fire)
          | (cs1, None) =>
              let last := (length colours - 1)%nat in
              ((ce_set_switched e1 true,
                upd_nth last (fun c' => setV c' newV) cs1, None), Fire)
          end
      end
  | Release =>
      ((ce_set_switched e false,
        upd_nth j (fun c' => setV c' newV) colours, None), Release)
  | Hold =>
      ((e, upd_nth j (fun c' => setV c' newV) colours, None), Hold)
  end.

(** The loop, at position [j] of [colours] with [vs] the part of
    [self.Vinit] still to be read; it also returns the latch events of the
    passes that completed. *)
Fixpoint ce_loop (e : ChristmasEffect) (j : nat) (vs : list R)
    (colours : list HSVColour)
    : outcome ChristmasEffect * list latch_event :=
  match vs with
  | [] => ((e, colours, None), [])
  | v :: vs' =>
      match nth_error colours j with
      | None => ((e, colours, None), [])
      | Some c =>
          match ce_body e j c v colours with
          | ((e1, cs1, Some x), _) => ((e1, cs1, Some x), [])
          | ((e1, cs1, None), ev) =>
              let (r, log) := ce_loop e1 (Datatypes.S j) vs' cs1 in
              (r, ev :: log)
          end
      end
  end.

(** [ChristmasEffect.step], with the latch events of the call. *)
Definition ChristmasEffect_step_log (e : ChristmasEffect) (colours : list HSVColour)
    : outcome ChristmasEffect * list latch_event :=
  match ce_first e colours with
  | (e1, cs1, Some x) => ((e1, cs1, Some x), [])
  | (e1, cs1, None) =>
      let e2 := ce_tick e1 in
      match ce_Vinit e2 with
      | None => ((e2, cs1, Some AttributeError), [])
      | Some vs => ce_loop e2 0 vs cs1
      end
  end.

Definition ChristmasEffect_step (e : ChristmasEffect) (colours : list HSVColour)
    : outcome ChristmasEffect :=
  fst (ChristmasEffect_step_log e colours).


(** [ChristmasEffect.reset]: [self.steps = 0]. *)
Definition ChristmasEffect_reset (e : ChristmasEffect) : ChristmasEffect :=
  mkChristmas (ce_dV e) (ce_minV e) (ce_maxV e) (ce_Vrange e) (ce_hues e)
    (ce_nsteps e) (ce_switched e) (ce_current e) (ce_Vinit e) (Some 0%nat).

(** [n] consecutive calls of [step] on the same colours, as the driver's
    inner loop makes them; an exception ends the run. *)
Fixpoint ChristmasEffect_run (n : nat) (e : ChristmasEffect)
    (colours : list HSVColour) : outcome ChristmasEffect * list latch_event :=
  match n with
  | O => ((e, colours, None), [])
  | Datatypes.S n' =>
      match ChristmasEffect_step_log e colours with
      | ((e1, cs1, Some x), log) => ((e1, cs1, Some x), log)
      | ((e1, cs1, None), log) =>
          let (r, log') := ChristmasEffect_run n' e1 cs1 in
          (r, log ++ log')
      end
  end.

Fixpoint HSVCycleEffect_run (n : nat) (e : HSVCycleEffect)
    (colours : list HSVColour) : outcome HSVCycleEffect :=
  match n with
  | O => (e, colours, None)
  | Datatypes.S n' =>
      match HSVCycleEffect_step e colours with
      | (e1, cs1, Some x) => (e1, cs1, Some x)
      | (e1, cs1, None) => HSVCycleEffect_run n' e1 cs1
      end
  end.

(** How often the latch fired in a log of events. *)
Fixpoint fires (log : list latch_event) : nat :=
  match log with
  | [] => O
  | Fire :: l => Datatypes.S (fires l)
  | _ :: l => fires l
  end.

(** ** The random source

    [random.random()] reads the next value of the process-wide generator;
    the generator is a stream of draws with a read position. *)

Record RNG : Type := mkRNG {
  draws : nat -> R;
  pos : nat
}.

Definition random (g : RNG) : R * RNG :=
  (draws g (pos g), mkRNG (draws g) (Datatypes.S (pos g))).

(** [[ f(random.random()) for _ in range(n) ]] *)
Fixpoint draw_list (f : R -> R) (n : nat) (g : RNG) : list R * RNG :=
  match n with
  | O => ([], g)
  | Datatypes.S n' =>
      let (r, g1) := random g in
      let (l, g2) := draw_list f n' g1 in
      (f r :: l, g2)
  end.

(** ** RandomEffect *)

Fixpoint RandomEffect_step (colours : list HSVColour) (g : RNG)
    : list HSVColour * RNG :=
  match colours with
  | [] => ([], g)
  | c :: cs =>
      let (r, g1) := random g in
      let (cs', g2) := RandomEffect_step cs g1 in
      (setH c r :: cs', g2)
  end.

(** ** ChristmasEffectR *)

Record ChristmasEffectR : Type := mkChristmasR {
  cr_dV : R;
  cr_minV : R;
  cr_maxV : R;
  cr_Vrange : R;
  cr_V : R;
  cr_Vinit : R;
  cr_nsteps : nat;
  cr_switched : bool
}.

Definition ChristmasEffectR_init (dV minV maxV : R) : ChristmasEffectR :=
  mkChristmasR dV minV maxV (maxV - minV) maxV maxV 0 false.

(** [for i, c in enumerate(colours): c.H = (H + dist * i) % 1] from
    position [i]. *)
Fixpoint spread_from (h dist : R) (i : nat) (cs : list HSVColour) : list HSVColour :=
  match cs with
  | [] => []
  | c :: cs' =>
      setH c (pymod (h + dist * INR i) 1) :: spread_from h dist (Datatypes.S i) cs'
  end.

Definition setrandomhues (colours : list HSVColour) (g : RNG)
    : list HSVColour * RNG * option exn :=
  match colours with
  | [] => (colours, g, Some ZeroDivisionError)
  | _ :: _ =>
      let dist := 1 / INR (length colours) in
      let (h, g1) := random g in
      (spread_from h dist 0 colours, g1, None)
  end.

Definition ChristmasEffectR_step (e : ChristmasEffectR) (colours : list HSVColour)
    (g : RNG) : outcome ChristmasEffectR * RNG :=
  let first :=
    if Nat.eqb (cr_nsteps e) 0
    then setrandomhues (map (fun c => setV c (cr_Vinit e)) colours) g
    else (colours, g, None) in
  match first with
  | (cs1, g1, Some x) => ((e, cs1, Some x), g1)
  | (cs1, g1, None) =>
      let n := Datatypes.S (cr_nsteps e) in
      let newV := wave (cr_minV e) (cr_Vrange e) (cr_Vinit e + cr_dV e * INR n) in
      let finish (sw : bool) (cs : list HSVColour) :=
        (mkChristmasR (cr_dV e) (cr_minV e) (cr_maxV e) (cr_Vrange e) newV
           (cr_Vinit e) n sw,
         map (fun c => setV c newV) cs, @None exn) in
      match latch_decide newV (cr_V e) (cr_switched e) with
      | Fire =>
          match setrandomhues cs1 g1 with
          | (cs2, g2, Some x) =>
              ((mkChristmasR (cr_dV e) (cr_minV e) (cr_maxV e) (cr_Vrange e)
                  (cr_V e) (cr_Vinit e) n (cr_switched e), cs2, Some x), g2)
          | (cs2, g2, None) => (finish true cs2, g2)
          end
      | Release => (finish false cs1, g1)
      | Hold => (finish (cr_switched e) cs1, g1)
      end
  end.

(** ** ChristmasEffectRA *)

Record ChristmasEffectRA : Type := mkChristmasRA {
  ra_dV : R;
  ra_minV : R;
  ra_maxV : R;
  ra_Vrange : R;
  ra_nsteps : nat;
  ra_switched : option (list bool);  (* [None]: still the [False] of [__init__] *)
  ra_stepamp : R;
  ra_Vinit : option (list R);
  ra_stepsize : option (list R)
}.

Definition ChristmasEffectRA_init (dV minV maxV stepamp : R) : ChristmasEffectRA :=
  mkChristmasRA dV minV maxV (maxV - minV) 0 None stepamp None None.

Definition genstepsize (stepamp r : R) : R := 1 - stepamp + r * (2 * stepamp).

Definition ra_first (e : ChristmasEffectRA) (colours : list HSVColour) (g : RNG)
    : ChristmasEffectRA * RNG :=
  if Nat.eqb (ra_nsteps e) 0 then
    let n := length colours in
    let (vinit, g1) :=
      draw_list (fun r => ra_minV e + r * (ra_maxV e - ra_minV e)) n g in
    let (sizes, g2) := draw_list (genstepsize (ra_stepamp e)) n g1 in
    (mkChristmasRA (ra_dV e) (ra_minV e) (ra_maxV e) (ra_Vrange e) (ra_nsteps e)
       (Some (repeat false n)) (ra_stepamp e) (Some vinit) (Some sizes), g2)
  else (e, g).

(** [self.switched[i]] *)
Definition ra_latch (sw : option (list bool)) (i : nat) : result bool :=
  match sw with
  | None => Raise TypeError
  | Some l =>
      match nth_error l i with
      | Some b => Ok b
      | None => Raise IndexError
      end
  end.

(** The loop over [enumerate(zip(colours, self.Vinit, self.stepsize))]; the
    colours already visited are returned in front of the ones still to
    come.  [self.switched[i]] is read only when the comparison before the
    [and] holds. *)
Fixpoint ra_loop (dV minV Vrange : R) (nsteps : nat) (i : nat)
    (colours : list HSVColour) (vs ss : list R) (sw : option (list bool)) (g : RNG)
    : list HSVColour * option (list bool) * RNG * option exn :=
  match colours, vs, ss with
  | c :: cs, v :: vs', s :: ss' =>
      let newV := wave minV Vrange (v + dV * INR nsteps * s) in
      let continue (c' : HSVColour) (sw' : option (list bool)) (g' : RNG) :=
        match ra_loop dV minV Vrange nsteps (Datatypes.S i) cs vs' ss' sw' g' with
        | (r, sw'', g'', x) => (setV c' newV :: r, sw'', g'', x)
        end in
      if Rgt_dec newV (V c) then
        match ra_latch sw i with
        | Raise x => (colours, sw, g, Some x)
        | Ok false =>
            let (r, g1) := random g in
            continue (setH c r) (option_map (upd_nth i (fun _ => true)) sw) g1
        | Ok true => continue c sw g
        end
      else if Rlt_dec newV (V c) then
        match ra_latch sw i with
        | Raise x => (colours, sw, g, Some x)
        | Ok true => continue c (option_map (upd_nth i (fun _ => false)) sw) g
        | Ok false => continue c sw g
        end
      else continue c sw g
  | _, _, _ => (colours, sw, g, None)
  end.

Definition ra_set (e : ChristmasEffectRA) (n : nat) (sw : option (list bool))
    : ChristmasEffectRA :=
  mkChristmasRA (ra_dV e) (ra_minV e) (ra_maxV e) (ra_Vrange e) n sw
    (ra_stepamp e) (ra_Vinit e) (ra_stepsize e).

Definition ChristmasEffectRA_step (e : ChristmasEffectRA) (colours : list HSVColour)
    (g : RNG) : outcome ChristmasEffectRA * RNG :=
  let (e1, g1) := ra_first e colours g in
  let n := Datatypes.S (ra_nsteps e1) in
  match ra_Vinit e1, ra_stepsize e1 with
  | Some vs, Some ss =>
      match ra_loop (ra_dV e1) (ra_minV e1) (ra_Vrange e1) n 0 colours vs ss
              (ra_switched e1) g1 with
      | (cs, sw', g2, x) => ((ra_set e1 n sw', cs, x), g2)
      end
  | _, _ => ((ra_set e1 n (ra_switched e1), colours, Some AttributeError), g1)
  end.

(** ** SpreadResetEffect *)

(** [for col1, col2 in zip(colours[0:-1], colours[1:])]: every colour is
    set from its predecessor as the loop has just left it. *)
Fixpoint spread_chain (distance : R) (prev : HSVColour) (rest : list HSVColour)
    : list HSVColour :=
  match rest with
  | [] => []
  | c :: r =>
      let c' := setHSV c (pymod (H prev + distance) 1) (S prev) (V prev) in
      c' :: spread_chain distance c' r
  end.

(** [devices] is the module-level list bound by the script's main block;
    the step reads only its length.  [None]: the name is not bound. *)
Definition SpreadResetEffect_step (devices : option nat) (colours : list HSVColour)
    : list HSVColour * option exn :=
  match colours with
  | [] => (colours, Some ZeroDivisionError)
  | c0 :: rest =>
      let distance := 1 / INR (length colours) in
      match devices with
      | None => (colours, Some NameError)
      | Some k =>
          match generateSpreadColours k distance with
          | [] => (colours, Some IndexError)
          | rc0 :: _ =>
              let c0' := setHSV c0 (H rc0) (S rc0) (V rc0) in
              (c0' :: spread_chain distance c0' rest, None)
          end
      end
  end.

(** ** The effect hierarchy

    One constructor per class; [step] dispatches on it as the method call
    does. *)

#[local] Unset Elimination Schemes.
Inductive Effect : Type :=
| BaseEffect
| HSVCycle (e : HSVCycleEffect)
| CombinedEffects (effects : list Effect)
| RandomEffect
| Christmas (e : ChristmasEffect)
| ChristmasR (e : ChristmasEffectR)
| ChristmasRA (e : ChristmasEffectRA)
| SpreadResetEffect.
#[local] Set Elimination Schemes.

(** Everything a step can touch besides the effect itself. *)
Record world : Type := mkWorld {
  colours_of : list HSVColour;
  rng_of : RNG;
  devices_of : option nat
}.

(** [for effect in self.effects: effect.step(colours)], for a given [step]:
    an exception in one effect ends the loop. *)
Section Each.
Variable step_one : Effect -> world -> Effect * world * option exn.

Fixpoint step_each (l : list Effect) (w : world)
    : list Effect * world * option exn :=
  match l with
  | [] => ([], w, None)
  | f :: l' =>
      match step_one f w with
      | (f', w', Some x) => (f' :: l', w', Some x)
      | (f', w', None) =>
          match step_each l' w' with
          | (l'', w'', x) => (f' :: l'', w'', x)
          end
      end
  end.
End Each.

Fixpoint step (eff : Effect) (w : world) : Effect * world * option exn :=
  match eff with
  | BaseEffect => (eff, w, None)
  | HSVCycle e =>
      match HSVCycleEffect_step e (colours_of w) with
      | (e', cs, x) => (HSVCycle e', mkWorld cs (rng_of w) (devices_of w), x)
      end
  | CombinedEffects effects =>
      match step_each step effects w with
      | (effects', w', x) => (CombinedEffects effects', w', x)
      end
  | RandomEffect =>
      let (cs, g) := RandomEffect_step (colours_of w) (rng_of w) in
      (eff, mkWorld cs g (devices_of w), None)
  | Christmas e =>
      match ChristmasEffect_step e (colours_of w) with
      | (e', cs, x) => (Christmas e', mkWorld cs (rng_of w) (devices_of w), x)
      end
  | ChristmasR e =>
      match ChristmasEffectR_step e (colours_of w) (rng_of w) with
      | ((e', cs, x), g) => (ChristmasR e', mkWorld cs g (devices_of w), x)
      end
  | ChristmasRA e =>
      match ChristmasEffectRA_step e (colours_of w) (rng_of w) with
      | ((e', cs, x), g) => (ChristmasRA e', mkWorld cs g (devices_of w), x)
      end
  | SpreadResetEffect =>
      let (cs, x) := SpreadResetEffect_step (devices_of w) (colours_of w) in
      (eff, mkWorld cs (rng_of w) (devices_of w), x)
  end.

(** [reset]: only [ChristmasEffect] overrides the inherited [pass]. *)
Definition reset (eff : Effect) : Effect :=
  match eff with
  | Christmas e => Christmas (ChristmasEffect_reset e)
  | _ => eff
  end.

(** ** Device output and the driver

    A device is the path prefix of its three LED directories.  Writing a
    colour opens the three brightness files in turn and writes a decimal
    numeral to each; the writes are recorded in the order they happen.
    Failures of the file system are not part of the model. *)

(** [str(z)] for an integer. *)
Definition py_str (z : Z) : string := NilZero.string_of_int (Z.to_int z).

(** One [open(path, 'w')] with the text written to it. *)
Record file_write : Set := mkWrite {
  path : string;
  text : string
}.

Definition setcolour (device : string) (colour : Colour) : list file_write :=
  [mkWrite (device ++ ":red/brightness") (py_str (red colour));
   mkWrite (device ++ ":green/brightness") (py_str (green colour));
   mkWrite (device ++ ":blue/brightness") (py_str (blue colour))].

(** [for d, c in zip(devices, colours): setcolour(d, c.getRGBAColour())]:
    the files written, and the exception of the first conversion that
    fails. *)
Fixpoint show_colours (devices : list string) (colours : list HSVColour)
    : list file_write * option exn :=
  match devices, colours with
  | d :: ds, c :: cs =>
      match getRGBAColour c with
      | Raise x => ([], Some x)
      | Ok col =>
          let (t, x) := show_colours ds cs in
          (setcolour d col ++ t, x)
      end
  | _, _ => ([], None)
  end.

(** [time.sleep(delay)] raises ValueError for a negative delay. *)
Definition time_sleep (delay : R) : option exn :=
  if Rlt_dec delay 0 then Some ValueError else None.

(** An entry of [funstuff]: effect, number of steps, delay between steps.
    The entries hold distinct effect objects. *)
Definition entry : Type := (Effect * nat * R)%type.

(** [for s in range(nsteps)]: step, show, sleep. *)
Fixpoint play (devices : list string) (nsteps : nat) (delay : R) (eff : Effect)
    (w : world) : Effect * world * list file_write * option exn :=
  match nsteps with
  | O => (eff, w, [], None)
  | Datatypes.S n =>
      match step eff w with
      | (eff1, w1, Some x) => (eff1, w1, [], Some x)
      | (eff1, w1, None) =>
          match show_colours devices (colours_of w1) with
          | (t, Some x) => (eff1, w1, t, Some x)
          | (t, None) =>
              match time_sleep delay with
              | Some x => (eff1, w1, t, Some x)
              | None =>
                  match play devices n delay eff1 w1 with
                  | (eff2, w2, t2, x) => (eff2, w2, t ++ t2, x)
                  end
              end
          end
      end
  end.

(** [for effect, nsteps, delay in funstuff]: play the entry, then reset its
    effect. *)
Fixpoint cycle (devices : list string) (funstuff : list entry) (w : world)
    : list entry * world * list file_write * option exn :=
  match funstuff with
  | [] => ([], w, [], None)
  | (eff, n, delay) :: rest =>
      match play devices n delay eff w with
      | (eff1, w1, t1, Some x) => ((eff1, n, delay) :: rest, w1, t1, Some x)
      | (eff1, w1, t1, None) =>
          match cycle devices rest w1 with
          | (rest', w2, t2, x) => ((reset eff1, n, delay) :: rest', w2, t1 ++ t2, x)
          end
      end
  end.

(** The first [passes] passes of the [while True] loop. *)
Fixpoint cycles (devices : list string) (passes : nat) (funstuff : list entry)
    (w : world) : list entry * world * list file_write * option exn :=
  match passes with
  | O => (funstuff, w, [], None)
  | Datatypes.S p =>
      match cycle devices funstuff w with
      | (f1, w1, t1, Some x) => (f1, w1, t1, Some x)
      | (f1, w1, t1, None) =>
          match cycles devices p f1 w1 with
          | (f2, w2, t2, x) => (f2, w2, t1 ++ t2, x)
          end
      end
  end.

(** [fun(devices, colours, funstuff)], observed until the endless loop has
    made [passes] passes or an exception has ended it: the initial colours
    are shown, then the passes are made. *)
Definition fun_ (devices : list string) (funstuff : list entry) (w : world)
    (passes : nat) : list entry * world * list file_write * option exn :=
  match show_colours devices (colours_of w) with
  | (t, Some x) => (funstuff, w, t, Some x)
  | (t, None) =>
      match cycles devices passes funstuff w with
      | (f1, w1, t1, x) => (f1, w1, t ++ t1, x)
      end
  end.

(** The total number of steps of one pass. *)
Definition steps_per_pass (funstuff : list entry) : nat :=
  fold_right (fun en acc => (snd (fst en) + acc)%nat) 0%nat funstuff.

(** The per-device lists of a ChristmasEffectRA cover [n] colours. *)
Definition ra_covers (e : ChristmasEffectRA) (n : nat) : Prop :=
  exists vs ss sw,
    ra_Vinit e = Some vs /\ ra_stepsize e = Some ss /\ ra_switched e = Some sw
    /\ length vs = n /\ length ss = n /\ length sw = n.

(** ** Properties used to state the results *)

(** A hue in its domain [[0, 1)]. *)
Definition hue_ok (h : R) : Prop := 0 <= h < 1.

(** Every palette configured inside an effect holds hues of the domain. *)
Fixpoint palettes_ok (eff : Effect) : Prop :=
  match eff with
  | Christmas e => Forall hue_ok (ce_hues e)
  | CombinedEffects effects =>
      fold_right (fun f P => palettes_ok f /\ P) True effects
  | _ => True
  end.

(** Every colour of a sequence has its hue in the domain. *)
Definition hues_ok (cs : list HSVColour) : Prop := Forall (fun c => hue_ok (H c)) cs.

(** [random.random()] draws from [[0, 1)]. *)
Definition rng_ok (g : RNG) : Prop := forall n, 0 <= draws g n < 1.

(** The domain of [math.asin]. *)
Definition in_asin_domain (x : R) : Prop := -1 <= x <= 1.

(** What a colour becomes under a cycle with all three steps at 0 and the
    default bounds. *)
Definition settled (c : HSVColour) : HSVColour :=
  mkHSV (pymod (H c) 1) ((256 + 254 * S c) / 510) ((256 + 254 * V c) / 510).

(** [HSVCycleEffect(0, 0, 0)]: no drift of H, S or V, default bounds. *)
Definition still_cycle : HSVCycleEffect :=
  HSVCycleEffect_init 0 0 0 default_min default_max default_min default_max.

(** The state of [still_cycle] after [k] steps on the colours [cs0]. *)
Definition still_cycle_at (k : nat) (cs0 : list HSVColour) : HSVCycleEffect :=
  mkHSVCycle 0 0 0 k default_min default_max (default_max - default_min)
    default_min default_max (default_max - default_min)
    (Some (map (fun c => asin (S c)) cs0)) (Some (map (fun c => asin (V c)) cs0)).

(** The loop can run: the palette is not empty and every colour has a
    palette index. *)
Definition ce_ready (e : ChristmasEffect) (cs : list HSVColour) (cur : list nat) : Prop :=
  ce_hues e <> [] /\ ce_current e = Some cur /\ (length cs <= length cur)%nat.

(** Every colour shows the palette entry of its index. *)
Definition resolved (hues : list R) (cur : list nat) (cs : list HSVColour) : Prop :=
  forall i k c, nth_error cur i = Some k -> nth_error cs i = Some c ->
    nth_error hues (k mod length hues) = Some (H c).

(** The attributes that the loop never writes. *)
Definition same_config (e e' : ChristmasEffect) : Prop :=
  ce_dV e' = ce_dV e /\ ce_minV e' = ce_minV e /\ ce_maxV e' = ce_maxV e
  /\ ce_Vrange e' = ce_Vrange e /\ ce_hues e' = ce_hues e
  /\ ce_nsteps e' = ce_nsteps e /\ ce_Vinit e' = ce_Vinit e
  /\ ce_steps e' = ce_steps e.

(** The state of an effect in the middle of a run: the first step is
    behind, the per-device lists cover the colours, and every colour shows
    the palette entry of its index. *)
Definition ce_running (e : ChristmasEffect) (cs : list HSVColour) (cur : list nat) : Prop :=
  ce_nsteps e <> 0%nat /\ (exists vs, ce_Vinit e = Some vs)
  /\ ce_ready e cs cur /\ resolved (ce_hues e) cur cs.

(** A colour at V = 0, and [ChristmasEffect(hues=[0, 0.5])]. *)
Definition dark : HSVColour := mkHSV 0 1 0.
Definition two_hues : ChristmasEffect :=
  ChristmasEffect_init (1 / 10) (1 / 255) (7 / 10) [0; 1 / 2].

(** The documented domain of S and V. *)
Definition in_unit (x : R) : Prop := 0 <= x <= 1.

(** What a step preserves: the palettes, the draws of the random source and
    the hue domain. *)
Definition step_invariant (eff : Effect) (w : world) : Prop :=
  palettes_ok eff /\ rng_ok (rng_of w) /\ hues_ok (colours_of w).

(** One device, a random source that always draws 0.5. *)
Definition party_world : world :=
  mkWorld [dark] (mkRNG (fun _ => 1 / 2) 0) (Some 1%nat).

(** The state of a cycle effect [e0] after [k] steps of a run on the
    colours [cs0]. *)
Definition cycle_at (e0 : HSVCycleEffect) (k : nat) (cs0 : list HSVColour)
    : HSVCycleEffect :=
  mkHSVCycle (hc_dH e0) (hc_dS e0) (hc_dV e0) k (hc_minS e0) (hc_maxS e0)
    (hc_Srange e0) (hc_minV e0) (hc_maxV e0) (hc_Vrange e0)
    (Some (map (fun c => asin (S c)) cs0)) (Some (map (fun c => asin (V c)) cs0)).

(** What a colour [c] has become after [n] steps of a run of [e0]. *)
Definition cycled (e0 : HSVCycleEffect) (n : nat) (c : HSVColour) : HSVColour :=
  mkHSV (pymod (H c + INR n * hc_dH e0) 1)
        (wave (hc_minS e0) (hc_Srange e0) (asin (S c) + hc_dS e0 * INR n))
        (wave (hc_minV e0) (hc_Vrange e0) (asin (V c) + hc_dV e0 * INR n)).

(** What no step changes. *)
Definition same_shape (w w' : world) : Prop :=
  length (colours_of w') = length (colours_of w)
  /\ devices_of w' = devices_of w.

(** The state the driver keeps between steps. *)
Definition driver_ok (funstuff : list entry) (w : world) : Prop :=
  Forall (fun en => palettes_ok (fst (fst en))) funstuff
  /\ rng_ok (rng_of w) /\ hues_ok (colours_of w).

(** The files written at each showing of the colours. *)
Definition files_per_show (devices : list string) (w : world) : nat :=
  (3 * Nat.min (length devices) (length (colours_of w)))%nat.

(** ** The main block

    [finddevices()] reads the file system; its result is the argument
    [devices] here.  The colours are generated twice, the first result
    being dropped; [effect2] and [effect3] are constructed and not used. *)

(** The [funstuff] of the main block: four effects, 500 steps each, a
    thirtieth of a second apart. *)
Definition main_schedule : list entry :=
  [(HSVCycle (HSVCycleEffect_init (5 / 1000) 0 0 default_min default_max
                default_min default_max), 500%nat, 1 / 30);
   (Christmas ChristmasEffect_default, 500%nat, 1 / 30);
   (ChristmasR (ChristmasEffectR_init (1 / 10) (1 / 255) (7 / 10)), 500%nat, 1 / 30);
   (ChristmasRA (ChristmasEffectRA_init (1 / 10) (1 / 255) (7 / 10) (3 / 10)),
    500%nat, 1 / 30)].

(** The world in which the main block calls [fun]. *)
Definition main_world (devices : list string) (g : RNG) : world :=
  mkWorld (generateSpreadColours (length devices) (1 / INR (length devices)))
    g (Some (length devices)).

(** The main block, observed for [passes] passes of the driver's loop: the
    files written and the exception that ended it, if any.  Without a
    device, [1/len(devices)] raises before anything else happens. *)
Definition main (devices : list string) (g : RNG) (passes : nat)
    : list file_write * option exn :=
  match devices with
  | [] => ([], Some ZeroDivisionError)
  | _ :: _ =>
      match fun_ devices main_schedule (main_world devices g) passes with
      | (_, _, t, x) => (t, x)
      end
  end.

(** An effect that has stepped before and whose per-device lists cover [n]
    colours (for the classes the main block uses, and the two that keep no
    state). *)
Definition steady (n : nat) (eff : Effect) : Prop :=
  match eff with
  | BaseEffect | RandomEffect => True
  | HSVCycle e =>
      hc_nsteps e <> 0%nat /\ hc_Sinit e <> None /\ hc_Vinit e <> None
  | Christmas e =>
      ce_nsteps e <> 0%nat /\ ce_hues e <> []
      /\ exists vs cur, ce_Vinit e = Some vs /\ ce_current e = Some cur
                        /\ (n <= length cur)%nat
  | ChristmasR e => (1 <= n)%nat /\ 0 <= cr_Vrange e
  | ChristmasRA e => ra_nsteps e <> 0%nat /\ ra_covers e n /\ 0 <= ra_Vrange e
  | CombinedEffects _ | SpreadResetEffect => False
  end.

(** An effect about to start its run on colours that its first step can
    take. *)
Definition fresh (cs : list HSVColour) (eff : Effect) : Prop :=
  match eff with
  | HSVCycle e =>
      hc_nsteps e = 0%nat
      /\ Forall (fun c => in_asin_domain (S c) /\ in_asin_domain (V c)) cs
  | Christmas e =>
      ce_nsteps e = 0%nat /\ ce_hues e <> []
      /\ Forall (fun c => in_asin_domain (V c)) cs
  | ChristmasRA e => ra_nsteps e = 0%nat /\ 0 <= ra_Vrange e
  | _ => False
  end.

(** An effect whose next step on the colours [cs] raises nothing. *)
Definition calm (cs : list HSVColour) (eff : Effect) : Prop :=
  steady (length cs) eff \/ fresh cs eff.

(** A cycle effect whose V stays within the domain of arcsin. *)
Definition V_tame (eff : Effect) : Prop :=
  match eff with
  | HSVCycle e =>
      -1 <= hc_minV e /\ 0 <= hc_Vrange e /\ hc_minV e + hc_Vrange e <= 1
  | _ => False
  end.

(** The schedule after its first pass: every effect is steady and every
    delay can be slept. *)
Definition settled_schedule (n : nat) (funstuff : list entry) : Prop :=
  Forall (fun en => steady n (fst (fst en)) /\ 0 <= snd en) funstuff.

(** * The same code in binary64 arithmetic

    The functions whose results depend on the doubles themselves, over
    [float], the binary64 numbers of the Standard Library, whose operations
    round to nearest, ties to even, as the processor's do.  A Python [int]
    among the arguments is read as the double of the same value. *)

Module Double.
Import Floats QArith Qround.
#[local] Set Warnings "-inexact-float".
#[local] Open Scope float_scope.

(** ** Numeric primitives *)

(** A Python [int] converted for an operation with a float: the nearest
    double, ties to even. *)
Definition float_of_Z (z : Z) : float :=
  SF2Prim (binary_normalize prec emax z 0 false).

Definition float_of_nat (n : nat) : float := float_of_Z (Z.of_nat n).

(** The C function [fmod(x, y)]: the remainder of the division truncated
    towards zero.  It is computed without rounding and has the sign of [x]. *)
Definition fmod (x y : float) : float :=
  match Prim2SF x, Prim2SF y with
  | S754_finite sx mx ex, S754_finite _ my ey =>
      let e := Z.min ex ey in
      let r := Z.rem (Z.shiftl (Zpos mx) (ex - e)) (Z.shiftl (Zpos my) (ey - e)) in
      let f := Z.ldexp (of_uint63 (Uint63.of_Z r)) e in
      if sx then - f else f
  | S754_finite _ _ _, S754_infinity _ => x
  | S754_zero _, S754_finite _ _ _ => x
  | S754_zero _, S754_infinity _ => x
  | _, _ => nan
  end.

(** [x % m] on floats, for [m <> 0] (the code divides by the literals 1 and
    2 only), as CPython's [float_rem] computes it: [fmod], then [m] added
    to a remainder of the other sign, and that addition rounds. *)
Definition pymod (x m : float) : float :=
  let r := fmod x m in
  if is_zero r then (if get_sign m then neg_zero else zero)
  else if xorb (m <? 0) (r <? 0) then r + m
  else r.

(** [int(x)]: truncation towards zero; no integer for a NaN or an infinity. *)
Definition py_int (x : float) : result Z :=
  match Prim2SF x with
  | S754_nan => Raise ValueError
  | S754_infinity _ => Raise OverflowError
  | S754_zero _ => Ok 0%Z
  | S754_finite s m e =>
      Ok (cond_Zopp s (if (0 <=? e)%Z then Z.shiftl (Zpos m) e
                       else Z.shiftr (Zpos m) (- e)))
  end.

(** The integer nearest to a finite [x], the even one at a tie; used only
    to state what rounding would give, the code itself truncates. *)
Definition nearest_int (x : float) : Z :=
  match Prim2SF x with
  | S754_finite s m e =>
      if (0 <=? e)%Z then cond_Zopp s (Z.shiftl (Zpos m) e)
      else
        let q := Z.shiftr (Zpos m) (- e) in
        let r := (Zpos m - Z.shiftl q (- e))%Z in
        let half := Z.shiftl 1 (- e - 1) in
        cond_Zopp s (if (half <? r)%Z || ((half =? r)%Z && Z.odd q)
                     then (q + 1)%Z else q)
  | _ => 0%Z
  end.

(** The value of a finite double as a rational number; used only to state
    how far a result is from a number that is no double. *)
Definition exact (x : float) : Q :=
  match Prim2SF x with
  | S754_finite s m e =>
      if (0 <=? e)%Z then inject_Z (cond_Zopp s (Z.shiftl (Zpos m) e))
      else Qmake (cond_Zopp s (Zpos m)) (Pos.shiftl 1 (Z.to_N (- e)))
  | _ => 0%Q
  end.

(** The distance from hue [a] up to hue [b] around the hue circle:
    [(b - a) mod 1], without rounding. *)
Definition hue_gap (a b : float) : Q :=
  let d := (exact b - exact a)%Q in (d - inject_Z (Qfloor d))%Q.

(** ** Colours *)

Record HSVColour : Set := mkHSV {
  H : float;
  S : float;
  V : float
}.

Definition setH (c : HSVColour) (h : float) : HSVColour := mkHSV h (S c) (V c).
Definition setS (c : HSVColour) (s : float) : HSVColour := mkHSV (H c) s (V c).
Definition setV (c : HSVColour) (v : float) : HSVColour := mkHSV (H c) (S c) v.
Definition setHSV (_ : HSVColour) (h s v : float) : HSVColour := mkHSV h s v.

Definition sector (C X Hprime : float) : option (float * float * float) :=
  if Hprime <? 1 then Some (C, X, 0)
  else if Hprime <? 2 then Some (X, C, 0)
  else if Hprime <? 3 then Some (0, C, X)
  else if Hprime <? 4 then Some (0, X, C)
  else if Hprime <? 5 then Some (X, 0, C)
  else if Hprime <? 6 then Some (C, 0, X)
  else None.

(** The three [int(...)] are evaluated in turn, red first; one that raises
    ends the call. *)
Definition getRGBAColour (c : HSVColour) : result Colour :=
  let C := V c * S c in
  let Hprime := H c * 6 in
  let X := C * (1 - abs (pymod Hprime 2 - 1)) in
  match sector C X Hprime with
  | Some (R_, G_, B_) =>
      let m := V c - C in
      match py_int (255 * (R_ + m)) with
      | Raise x => Raise x
      | Ok r =>
          match py_int (255 * (G_ + m)) with
          | Raise x => Raise x
          | Ok g =>
              match py_int (255 * (B_ + m)) with
              | Raise x => Raise x
              | Ok b => Ok (Colour3 r g b)
              end
          end
      end
  | None => Raise UnboundLocalError
  end.

(** ** The hue-spreading generator *)

Definition golden_step : float := 2 / (1 + sqrt 5).

Definition generateSpreadColours (k : nat) (distance : float) : list HSVColour :=
  let H0 := 0.6 in
  let S0 := 0.99 in
  let V0 := 0.7 in
  let distance := if distance =? -1 then golden_step else distance in
  map (fun x => mkHSV (pymod (H0 + distance * float_of_nat x) 1) S0 V0) (seq 0 k).

(** ** SpreadResetEffect *)

Fixpoint spread_chain (distance : float) (prev : HSVColour) (rest : list HSVColour)
    : list HSVColour :=
  match rest with
  | [] => []
  | c :: r =>
      let c' := setHSV c (pymod (H prev + distance) 1) (S prev) (V prev) in
      c' :: spread_chain distance c' r
  end.

Definition SpreadResetEffect_step (devices : option nat) (colours : list HSVColour)
    : list HSVColour * option exn :=
  match colours with
  | [] => (colours, Some ZeroDivisionError)
  | c0 :: rest =>
      let distance := 1 / float_of_nat (length colours) in
      match devices with
      | None => (colours, Some NameError)
      | Some k =>
          match generateSpreadColours k distance with
          | [] => (colours, Some IndexError)
          | rc0 :: _ =>
              let c0' := setHSV c0 (H rc0) (S rc0) (V rc0) in
              (c0' :: spread_chain distance c0' rest, None)
          end
      end
  end.

(** ** HSVCycleEffect, and the C library under it

    [math.sin] and [math.asin] call the platform's [sin] and [asin], which
    are not correctly rounded and differ from one C library to another:
    they are left open.  CPython's wrapper ([math_1]) turns a NaN result for
    an argument that is not a NaN, and an infinite result for a finite
    argument, into a [ValueError]. *)
Definition math_1 (func : float -> float) (x : float) : result float :=
  let r := func x in
  if is_nan r && negb (is_nan x) then Raise ValueError
  else if is_infinity r && is_finite x then Raise ValueError
  else Ok r.

Section Libm.
Variables libm_sin libm_asin : float -> float.

Definition math_sin : float -> result float := math_1 libm_sin.
Definition math_asin : float -> result float := math_1 libm_asin.

Fixpoint asin_all (f : HSVColour -> float) (cs : list HSVColour)
    : result (list float) :=
  match cs with
  | [] => Ok []
  | c :: cs' =>
      match math_asin (f c) with
      | Raise e => Raise e
      | Ok a =>
          match asin_all f cs' with
          | Raise e => Raise e
          | Ok l => Ok (a :: l)
          end
      end
  end.

(** [lo + range * (1 + math.sin(phase)) / 2.0] *)
Definition wave (lo range phase : float) : result float :=
  match math_sin phase with
  | Raise e => Raise e
  | Ok s => Ok (lo + range * (1 + s) / 2)
  end.

Record HSVCycleEffect : Set := mkHSVCycle {
  hc_dH : float;
  hc_dS : float;
  hc_dV : float;
  hc_nsteps : nat;
  hc_minS : float;
  hc_maxS : float;
  hc_Srange : float;
  hc_minV : float;
  hc_maxV : float;
  hc_Vrange : float;
  hc_Sinit : option (list float);
  hc_Vinit : option (list float)
}.

Definition HSVCycleEffect_init (dH dS dV minS maxS minV maxV : float)
    : HSVCycleEffect :=
  mkHSVCycle dH dS dV 0 minS maxS (maxS - minS) minV maxV (maxV - minV) None None.

Definition hc_set_Sinit (e : HSVCycleEffect) (l : list float) : HSVCycleEffect :=
  mkHSVCycle (hc_dH e) (hc_dS e) (hc_dV e) (hc_nsteps e) (hc_minS e) (hc_maxS e)
    (hc_Srange e) (hc_minV e) (hc_maxV e) (hc_Vrange e) (Some l) (hc_Vinit e).

Definition hc_set_Vinit (e : HSVCycleEffect) (l : list float) : HSVCycleEffect :=
  mkHSVCycle (hc_dH e) (hc_dS e) (hc_dV e) (hc_nsteps e) (hc_minS e) (hc_maxS e)
    (hc_Srange e) (hc_minV e) (hc_maxV e) (hc_Vrange e) (hc_Sinit e) (Some l).

Definition hc_tick (e : HSVCycleEffect) : HSVCycleEffect :=
  mkHSVCycle (hc_dH e) (hc_dS e) (hc_dV e) (Datatypes.S (hc_nsteps e)) (hc_minS e)
    (hc_maxS e) (hc_Srange e) (hc_minV e) (hc_maxV e) (hc_Vrange e)
    (hc_Sinit e) (hc_Vinit e).

(** The body of the [for c, S, V in zip(...)] loop: three assignments in
    turn; a [math.sin] that raises leaves the earlier ones done. *)
Definition hc_update (e : HSVCycleEffect) (c : HSVColour) (S0 V0 : float)
    : HSVColour * option exn :=
  let c1 := setH c (pymod (H c + hc_dH e) 1) in
  match wave (hc_minS e) (hc_Srange e)
             (S0 + hc_dS e * float_of_nat (hc_nsteps e)) with
  | Raise x => (c1, Some x)
  | Ok s =>
      let c2 := setS c1 s in
      match wave (hc_minV e) (hc_Vrange e)
                 (V0 + hc_dV e * float_of_nat (hc_nsteps e)) with
      | Raise x => (c2, Some x)
      | Ok v => (setV c2 v, None)
      end
  end.

Fixpoint hc_loop (e : HSVCycleEffect) (colours : list HSVColour)
    (Ss Vs : list float) : list HSVColour * option exn :=
  match colours, Ss, Vs with
  | c :: cs, s :: Ss', v :: Vs' =>
      match hc_update e c s v with
      | (c', Some x) => (c' :: cs, Some x)
      | (c', None) =>
          let (cs', x) := hc_loop e cs Ss' Vs' in (c' :: cs', x)
      end
  | _, _, _ => (colours, None)
  end.

Definition hc_first (e : HSVCycleEffect) (colours : list HSVColour)
    : HSVCycleEffect * option exn :=
  if Nat.eqb (hc_nsteps e) 0 then
    match asin_all S colours with
    | Raise x => (e, Some x)
    | Ok ss =>
        match asin_all V colours with
        | Raise x => (hc_set_Sinit e ss, Some x)
        | Ok vs => (hc_set_Vinit (hc_set_Sinit e ss) vs, None)
        end
    end
  else (e, None).

Definition HSVCycleEffect_step (e : HSVCycleEffect) (colours : list HSVColour)
    : HSVCycleEffect * list HSVColour * option exn :=
  match hc_first e colours with
  | (e1, Some x) => (e1, colours, Some x)
  | (e1, None) =>
      let e2 := hc_tick e1 in
      match hc_Sinit e2, hc_Vinit e2 with
      | Some ss, Some vs =>
          let (cs, x) := hc_loop e2 colours ss vs in (e2, cs, x)
      | _, _ => (e2, colours, Some AttributeError)
      end
  end.

(** [n] consecutive calls of [step] on the same colours; an exception ends
    the run. *)
Fixpoint HSVCycleEffect_run (n : nat) (e : HSVCycleEffect)
    (colours : list HSVColour) : HSVCycleEffect * list HSVColour * option exn :=
  match n with
  | O => (e, colours, None)
  | Datatypes.S n' =>
      match HSVCycleEffect_step e colours with
      | (e1, cs1, Some x) => (e1, cs1, Some x)
      | (e1, cs1, None) => HSVCycleEffect_run n' e1 cs1
      end
  end.

(** The colour that [n] steps of [e0] make of [c0] when none of them
    raises: the hue has been moved [n] times, S and V are worked out anew
    from the phases that the first step took. *)
Definition cycled (e0 : HSVCycleEffect) (n : nat) (c0 : HSVColour) : HSVColour :=
  mkHSV
    (Nat.iter n (fun h => pymod (h + hc_dH e0) 1) (H c0))
    (hc_minS e0 + hc_Srange e0
       * (1 + libm_sin (libm_asin (S c0) + hc_dS e0 * float_of_nat n)) / 2)
    (hc_minV e0 + hc_Vrange e0
       * (1 + libm_sin (libm_asin (V c0) + hc_dV e0 * float_of_nat n)) / 2).

(** The effect object after [k] steps on [cs0]. *)
Definition cycle_at (e0 : HSVCycleEffect) (k : nat) (cs0 : list HSVColour)
    : HSVCycleEffect :=
  mkHSVCycle (hc_dH e0) (hc_dS e0) (hc_dV e0) k
    (hc_minS e0) (hc_maxS e0) (hc_Srange e0)
    (hc_minV e0) (hc_maxV e0) (hc_Vrange e0)
    (Some (map (fun c => libm_asin (S c)) cs0))
    (Some (map (fun c => libm_asin (V c)) cs0)).

End Libm.

(** A C library to run the code with, where a result is instantiated: the
    first terms of the two power series.  Nothing is proved of it. *)
Definition series_sin (x : float) : float :=
  let x2 := x * x in
  x * (1 - x2 / 6 * (1 - x2 / 20 * (1 - x2 / 42))).

Definition series_asin (x : float) : float :=
  if abs x <=? 1 then
    let x2 := x * x in
    x * (1 + x2 / 6 * (1 + x2 * 9 / 20 * (1 + x2 * 25 / 42)))
  else nan.

(** ** Properties used to state the results *)

(** [x] is a zero or a finite number below [2 ^ b] in absolute value. *)
Definition below_pow2 (b : Z) (x : spec_float) : Prop :=
  match x with
  | S754_zero _ => True
  | S754_finite _ m e => (Zpos (digits2_pos m) + e <= b)%Z
  | _ => False
  end.

Definition finite_below (b : Z) (x : float) : Prop := below_pow2 b (Prim2SF x).

Definition is_zero_value (x : float) : Prop := exists s, Prim2SF x = S754_zero s.

(** The domain of a hue: [H in [0, 1)]. *)
Definition hue_ok (h : float) : Prop := (0 <=? h) = true /\ (h <? 1) = true.

End Double.

(** * Results in exact arithmetic *)

(** ** Facts about the numeric primitives *)

Lemma Int_part_unique (x : R) (z : Z) :
  IZR z <= x < IZR z + 1 -> Int_part x = z.
Proof.
  intros [Hlo Hhi]. symmetry. apply Int_part_spec. lra.
Qed.

Lemma Int_part_bounds (x : R) : IZR (Int_part x) <= x < IZR (Int_part x) + 1.
Proof.
  destruct (base_Int_part x) as [Hle Hgt]. lra.
Qed.

Lemma pymod_1 (x : R) : pymod x 1 = x - IZR (Int_part x).
Proof.
  unfold pymod. replace (x / 1) with x by field. ring.
Qed.

Lemma pymod_1_range (x : R) : 0 <= pymod x 1 < 1.
Proof.
  rewrite pymod_1. pose proof (Int_part_bounds x). lra.
Qed.

Lemma pymod_1_shift (x : R) (z : Z) :
  IZR z <= x < IZR z + 1 -> pymod x 1 = x - IZR z.
Proof.
  intros Hx. rewrite pymod_1, (Int_part_unique x z Hx). reflexivity.
Qed.

Lemma pymod_1_id (x : R) : 0 <= x < 1 -> pymod x 1 = x.
Proof.
  intros Hx. rewrite (pymod_1_shift x 0); lra.
Qed.

Lemma py_int_floor (x : R) (z : Z) :
  (0 <= z)%Z -> IZR z <= x < IZR z + 1 -> py_int x = z.
Proof.
  intros Hz Hx. unfold py_int.
  destruct (Rle_dec 0 x) as [_ | Hneg].
  - now apply Int_part_unique.
  - exfalso. apply Hneg. apply IZR_le in Hz. lra.
Qed.

Lemma py_int_nonneg (x : R) : 0 <= x -> py_int x = Int_part x.
Proof.
  intros Hx. unfold py_int. destruct (Rle_dec 0 x); [reflexivity | contradiction].
Qed.

Lemma math_asin_ok (x : R) : -1 <= x <= 1 -> math_asin x = Ok (asin x).
Proof.
  intros [Hlo Hhi]. unfold math_asin.
  destruct (Rle_dec (-1) x); [| contradiction].
  destruct (Rle_dec x 1); [reflexivity | contradiction].
Qed.

Lemma math_asin_raises (x : R) : 1 < x -> math_asin x = Raise ValueError.
Proof.
  intros Hx. unfold math_asin.
  destruct (Rle_dec (-1) x); [| reflexivity].
  destruct (Rle_dec x 1); [lra | reflexivity].
Qed.

(** ** HSV to RGB conversion *)

Lemma sector_out_of_range (C X Hp : R) : 6 <= Hp -> sector C X Hp = None.
Proof.
  intros Hge. unfold sector.
  repeat (destruct (Rlt_dec _ _); [lra |]). reflexivity.
Qed.

Lemma sector_first (C X Hp : R) : Hp < 1 -> sector C X Hp = Some (C, X, 0).
Proof.
  intros Hlt. unfold sector. destruct (Rlt_dec Hp 1); [reflexivity | contradiction].
Qed.

Lemma channel_range (v : R) : 0 <= v <= 1 -> (0 <= Int_part (255 * v) <= 255)%Z.
Proof.
  intros Hv. pose proof (Int_part_bounds (255 * v)) as [Hlo Hhi].
  split.
  - apply le_IZR. assert (Hm : -1 < IZR (Int_part (255 * v))) by lra.
    apply lt_IZR in Hm. apply IZR_le. lia.
  - apply le_IZR. lra.
Qed.

(** C6, as amended: a hue of 1 or more reaches the [else] branch: the
    diagnostic is printed and the conversion ends in an [UnboundLocalError]
    without producing channels. *)
Theorem conversion_out_of_domain (c : HSVColour) :
  1 <= H c -> getRGBAColour c = Raise UnboundLocalError.
Proof.
  intros Hh. unfold getRGBAColour.
  rewrite sector_out_of_range by lra. reflexivity.
Qed.

Lemma conversion_out_of_domain_witness :
  getRGBAColour (mkHSV 1 1 1) = Raise UnboundLocalError.
Proof.
  apply (conversion_out_of_domain (mkHSV 1 1 1)). cbn [H]. lra.
Defined.

(** C6 as stated fails: the hue -1/2 lies outside the domain and the
    conversion returns yellow. *)
Lemma negative_hue_converts :
  ~ hue_ok (-1 / 2)
  /\ getRGBAColour (mkHSV (-1 / 2) 1 1) = Ok (Colour3 255 255 0).
Proof.
  split.
  - unfold hue_ok. lra.
  - unfold getRGBAColour. cbn [H S V].
    rewrite sector_first by lra.
    assert (Hm : pymod (-1 / 2 * 6) 2 = 1).
    { unfold pymod.
      rewrite (Int_part_unique (-1 / 2 * 6 / 2) (-2)); lra. }
    rewrite Hm.
    replace (1 - 1) with 0 by ring. rewrite Rabs_R0.
    replace (255 * (1 * 1 + (1 - 1 * 1))) with 255 by ring.
    replace (255 * (1 * 1 * (1 - 0) + (1 - 1 * 1))) with 255 by ring.
    replace (255 * (0 + (1 - 1 * 1))) with 0 by ring.
    rewrite (py_int_floor 255 255), (py_int_floor 0 0); try lia; try lra.
    reflexivity.
Qed.

(** ** HSVCycleEffect *)

Lemma asin_all_ok (f : HSVColour -> R) (cs : list HSVColour) :
  Forall (fun c => in_asin_domain (f c)) cs ->
  asin_all f cs = Ok (map (fun c => asin (f c)) cs).
Proof.
  induction 1 as [| c cs Hc _ IH]; cbn [asin_all map].
  - reflexivity.
  - rewrite (math_asin_ok _ Hc), IH. reflexivity.
Qed.

Lemma hc_loop_map {A : Type} (e : HSVCycleEffect) (g : A -> HSVColour)
    (a b : A -> R) (l : list A) :
  hc_loop e (map g l) (map a l) (map b l)
  = map (fun x => hc_update e (g x) (a x) (b x)) l.
Proof.
  induction l as [| x l IH]; cbn [hc_loop map]; [reflexivity | now rewrite IH].
Qed.

Lemma hc_loop_self (e : HSVCycleEffect) (a b : HSVColour -> R) (cs : list HSVColour) :
  hc_loop e cs (map a cs) (map b cs)
  = map (fun c => hc_update e c (a c) (b c)) cs.
Proof.
  pose proof (hc_loop_map e (fun c => c) a b cs) as Hl.
  now rewrite map_id in Hl.
Qed.

Lemma hc_loop_length (e : HSVCycleEffect) (cs : list HSVColour) (Ss Vs : list R) :
  length (hc_loop e cs Ss Vs) = length cs.
Proof.
  revert Ss Vs. induction cs as [| c cs IH]; intros [| s Ss] [| v Vs];
    cbn [hc_loop length]; try reflexivity.
  now rewrite IH.
Qed.

(** Past the shortest of the per-device lists the loop leaves the colours
    alone. *)
Lemma hc_loop_beyond (e : HSVCycleEffect) (cs : list HSVColour) (Ss Vs : list R) (i : nat) :
  (Nat.min (length Ss) (length Vs) <= i)%nat ->
  nth_error (hc_loop e cs Ss Vs) i = nth_error cs i.
Proof.
  revert Ss Vs i. induction cs as [| c cs IH]; intros [| s Ss] [| v Vs] i Hi;
    cbn [hc_loop]; try reflexivity.
  cbn [length] in Hi. rewrite <- Nat.succ_min_distr in Hi.
  destruct i as [| i]; [lia |]. cbn [nth_error]. apply IH. lia.
Qed.

(** Before that point it applies the update. *)
Lemma hc_loop_within (e : HSVCycleEffect) (cs : list HSVColour) (Ss Vs : list R)
    (i : nat) (c : HSVColour) (s v : R) :
  nth_error cs i = Some c -> nth_error Ss i = Some s -> nth_error Vs i = Some v ->
  nth_error (hc_loop e cs Ss Vs) i = Some (hc_update e c s v).
Proof.
  revert Ss Vs i. induction cs as [| c' cs IH]; intros [| s' Ss] [| v' Vs] [| i];
    cbn [hc_loop nth_error]; try discriminate.
  - now intros [= ->] [= ->] [= ->].
  - apply IH.
Qed.

Lemma still_wave (k : nat) (x : R) :
  in_asin_domain x ->
  wave default_min (default_max - default_min) (asin x + 0 * INR k)
  = (256 + 254 * x) / 510.
Proof.
  intros Hx. unfold wave, default_min, default_max.
  replace (asin x + 0 * INR k) with (asin x) by ring.
  rewrite (sin_asin x Hx). field.
Qed.

Lemma pymod_1_idem (x : R) : pymod (pymod x 1 + 0) 1 = pymod x 1.
Proof.
  rewrite Rplus_0_r. apply pymod_1_id, pymod_1_range.
Qed.

Lemma still_cycle_first (cs : list HSVColour) :
  Forall (fun c => in_asin_domain (S c) /\ in_asin_domain (V c)) cs ->
  HSVCycleEffect_step still_cycle cs = (still_cycle_at 1 cs, map settled cs, None).
Proof.
  intros Hdom.
  assert (HS : Forall (fun c => in_asin_domain (S c)) cs)
    by (eapply Forall_impl; [| exact Hdom]; now intros c [? ?]).
  assert (HV : Forall (fun c => in_asin_domain (V c)) cs)
    by (eapply Forall_impl; [| exact Hdom]; now intros c [? ?]).
  unfold HSVCycleEffect_step, hc_first, still_cycle, HSVCycleEffect_init.
  cbn [hc_nsteps Nat.eqb].
  rewrite (asin_all_ok S cs HS), (asin_all_ok V cs HV).
  unfold hc_tick, hc_set_Vinit, hc_set_Sinit, still_cycle_at.
  cbn [hc_Sinit hc_Vinit hc_dH hc_dS hc_dV
       hc_nsteps hc_minS hc_maxS hc_Srange hc_minV hc_maxV hc_Vrange].
  rewrite hc_loop_self. do 2 f_equal.
  apply map_ext_Forall.
  eapply Forall_impl; [| exact Hdom]. intros c [Hs Hv].
  unfold hc_update, settled.
  cbn [hc_dH hc_dS hc_dV hc_nsteps hc_minS hc_Srange hc_minV hc_Vrange].
  rewrite !still_wave by assumption. now rewrite Rplus_0_r.
Qed.

Lemma still_cycle_later (k : nat) (cs : list HSVColour) :
  Forall (fun c => in_asin_domain (S c) /\ in_asin_domain (V c)) cs ->
  HSVCycleEffect_step (still_cycle_at (Datatypes.S k) cs) (map settled cs)
  = (still_cycle_at (Datatypes.S (Datatypes.S k)) cs, map settled cs, None).
Proof.
  intros Hdom.
  unfold HSVCycleEffect_step, hc_first, still_cycle_at, hc_tick.
  cbn [hc_nsteps Nat.eqb hc_Sinit hc_Vinit hc_dH hc_dS hc_dV
       hc_minS hc_maxS hc_Srange hc_minV hc_maxV hc_Vrange].
  rewrite hc_loop_map. do 2 f_equal.
  apply map_ext_Forall.
  eapply Forall_impl; [| exact Hdom]. intros c [Hs Hv].
  unfold hc_update, settled.
  cbn [H S V hc_dH hc_dS hc_dV hc_nsteps hc_minS hc_Srange hc_minV hc_Vrange].
  rewrite !still_wave by assumption. now rewrite pymod_1_idem.
Qed.

Lemma still_cycle_run_later (n k : nat) (cs : list HSVColour) :
  Forall (fun c => in_asin_domain (S c) /\ in_asin_domain (V c)) cs ->
  HSVCycleEffect_run n (still_cycle_at (Datatypes.S k) cs) (map settled cs)
  = (still_cycle_at (Datatypes.S (n + k)) cs, map settled cs, None).
Proof.
  intros Hdom. revert k. induction n as [| n IH]; intros k.
  - reflexivity.
  - cbn [HSVCycleEffect_run]. rewrite (still_cycle_later k cs Hdom), IH.
    replace (n + Datatypes.S k)%nat with (Datatypes.S n + k)%nat by lia.
    reflexivity.
Qed.

(** C1, what the code does: with dH = dS = dV = 0 and the default bounds,
    every step count n >= 1 leaves each colour with hue H mod 1, saturation
    (256 + 254 * S) / 510 and value (256 + 254 * V) / 510, where H, S, V are
    the starting values; so S and V are moved at the first step unless they
    were 1. *)
Theorem still_cycle_moves_S_V (n : nat) (cs : list HSVColour) :
  Forall (fun c => in_asin_domain (S c) /\ in_asin_domain (V c)) cs ->
  HSVCycleEffect_run (Datatypes.S n) still_cycle cs
  = (still_cycle_at (Datatypes.S n) cs, map settled cs, None).
Proof.
  intros Hdom. cbn [HSVCycleEffect_run].
  rewrite (still_cycle_first cs Hdom), (still_cycle_run_later n 0 cs Hdom).
  now rewrite Nat.add_0_r.
Qed.

Lemma still_cycle_moves_S_V_witness :
  snd (fst (HSVCycleEffect_run 1 still_cycle [mkHSV (1 / 2) (1 / 2) (1 / 2)]))
  = [mkHSV (1 / 2) (383 / 510) (383 / 510)]
  /\ 383 / 510 <> 1 / 2.
Proof.
  split; [| lra].
  rewrite (still_cycle_moves_S_V 0 [mkHSV (1 / 2) (1 / 2) (1 / 2)]).
  - cbn [fst snd map]. unfold settled. cbn [H S V].
    rewrite pymod_1_id by lra. repeat f_equal; lra.
  - constructor; [| constructor]. cbn [S V]. unfold in_asin_domain. lra.
Defined.

(** ** Lists of colours updated in place *)

Lemma upd_nth_length {A : Type} (n : nat) (f : A -> A) (l : list A) :
  length (upd_nth n f l) = length l.
Proof.
  revert n. induction l as [| x l IH]; intros [| n]; cbn; auto.
Qed.

Lemma upd_nth_map {A B : Type} (g : A -> B) (n : nat) (f : A -> A) (l : list A) :
  (forall x, g (f x) = g x) -> map g (upd_nth n f l) = map g l.
Proof.
  intros Hg. revert n. induction l as [| x l IH]; intros [| n]; cbn;
    rewrite ?Hg, ?IH; reflexivity.
Qed.

Lemma upd_nth_nth_error {A : Type} (n i : nat) (f : A -> A) (l : list A) :
  nth_error (upd_nth n f l) i
  = if Nat.eqb n i then option_map f (nth_error l i) else nth_error l i.
Proof.
  revert n i. induction l as [| x l IH]; intros [| n] [| i]; cbn; auto.
  - destruct (Nat.eqb n i); reflexivity.
Qed.

Lemma upd_nth_Forall {A : Type} (P : A -> Prop) (n : nat) (f : A -> A) (l : list A) :
  (forall x, P x -> P (f x)) -> Forall P l -> Forall P (upd_nth n f l).
Proof.
  intros Hf Hl. revert n. induction Hl as [| x l Hx Hl IH]; intros [| n]; cbn;
    constructor; auto.
Qed.

(** ** The palette *)

Lemma palette_ok (hues : list R) (k : nat) :
  hues <> [] ->
  exists h, palette hues k = Ok h
            /\ nth_error hues (k mod length hues) = Some h.
Proof.
  intros Hne. unfold palette.
  destruct hues as [| h0 hues]; [contradiction |].
  cbn [length].
  assert (Hlt : (k mod Datatypes.S (length hues) < Datatypes.S (length hues))%nat)
    by (apply Nat.mod_upper_bound; discriminate).
  destruct (nth_error (h0 :: hues) (k mod Datatypes.S (length hues)))
    as [h |] eqn:Hnth.
  - exists h. split; reflexivity.
  - apply nth_error_None in Hnth. cbn [length] in Hnth. lia.
Qed.

Lemma palette_In (hues : list R) (k : nat) (h : R) :
  palette hues k = Ok h -> In h hues.
Proof.
  unfold palette. destruct (length hues); [discriminate |].
  destruct (nth_error hues _) as [h' |] eqn:Hnth; [| discriminate].
  intros [= <-]. eapply nth_error_In. exact Hnth.
Qed.

Lemma assign_hues_length (hues : list R) (idx : nat -> result nat) (i : nat)
    (cs : list HSVColour) :
  length (fst (assign_hues hues idx i cs)) = length cs.
Proof.
  revert i. induction cs as [| c cs IH]; intros i; cbn [assign_hues].
  - reflexivity.
  - destruct (idx i) as [k | x]; [| reflexivity].
    destruct (palette hues k) as [h | x]; [| reflexivity].
    specialize (IH (Datatypes.S i)).
    destruct (assign_hues hues idx (Datatypes.S i) cs) as [r x].
    cbn [fst length] in *. now rewrite IH.
Qed.

(** With a non-empty palette and an index for every position the loop
    completes and every colour carries the palette entry of its index. *)
Lemma assign_hues_ok (hues : list R) (idx : nat -> result nat) (i : nat)
    (cs : list HSVColour) :
  hues <> [] ->
  (forall p, (p < length cs)%nat -> exists k, idx (i + p)%nat = Ok k) ->
  exists cs',
    assign_hues hues idx i cs = (cs', None)
    /\ forall p c, nth_error cs p = Some c ->
         exists k h, idx (i + p)%nat = Ok k
                     /\ nth_error hues (k mod length hues) = Some h
                     /\ nth_error cs' p = Some (setH c h).
Proof.
  intros Hne. revert i. induction cs as [| c cs IH]; intros i Hidx.
  - exists []. split; [reflexivity |]. intros [| p] c Hc; discriminate Hc.
  - cbn [assign_hues].
    destruct (Hidx 0%nat) as [k Hk]; [cbn; lia |].
    rewrite Nat.add_0_r in Hk. rewrite Hk.
    destruct (palette_ok hues k Hne) as (h & Hp & Hnth). rewrite Hp.
    destruct (IH (Datatypes.S i)) as (r & Hr & Hall).
    { intros p Hlt. destruct (Hidx (Datatypes.S p)) as [k' Hk']; [cbn; lia |].
      exists k'. now rewrite Nat.add_succ_comm. }
    rewrite Hr. exists (setH c h :: r). split; [reflexivity |].
    intros [| p] c' Hc'; cbn [nth_error] in *.
    + injection Hc' as <-. exists k, h. rewrite Nat.add_0_r. auto.
    + destruct (Hall p c' Hc') as (k' & h' & Hk' & Hh' & Hn').
      exists k', h'. rewrite <- Nat.add_succ_comm. auto.
Qed.

Lemma idx_current_ok (cur : list nat) (n p : nat) :
  (p < n)%nat -> (n <= length cur)%nat ->
  exists k, idx_current cur (0 + p) = Ok k /\ nth_error cur p = Some k.
Proof.
  intros Hp Hn. unfold idx_current. cbn [Nat.add].
  destruct (nth_error cur p) as [k |] eqn:Hnth.
  - exists k. auto.
  - apply nth_error_None in Hnth. lia.
Qed.

(** ** ChristmasEffect: the loop body and the loop *)

Lemma same_config_refl (e : ChristmasEffect) : same_config e e.
Proof. unfold same_config. repeat split. Qed.

Lemma same_config_trans (e1 e2 e3 : ChristmasEffect) :
  same_config e1 e2 -> same_config e2 e3 -> same_config e1 e3.
Proof.
  unfold same_config. intros (A1 & A2 & A3 & A4 & A5 & A6 & A7 & A8)
    (B1 & B2 & B3 & B4 & B5 & B6 & B7 & B8).
  repeat split; congruence.
Qed.

Lemma resolved_same_hues (hues : list R) (cur : list nat) (cs cs' : list HSVColour) :
  map H cs' = map H cs -> resolved hues cur cs -> resolved hues cur cs'.
Proof.
  intros Hmap Hres i k c' Hk Hc'.
  assert (Hh : nth_error (map H cs') i = Some (H c')) by now rewrite nth_error_map, Hc'.
  rewrite Hmap, nth_error_map in Hh.
  destruct (nth_error cs i) as [c |] eqn:Hc; [| discriminate].
  cbn in Hh. injection Hh as Hh. rewrite <- Hh. now apply (Hres i k c).
Qed.

(** One pass of the loop body, for a state in which the loop can run. *)
Lemma ce_body_spec (e : ChristmasEffect) (j : nat) (c : HSVColour) (v : R)
    (cs : list HSVColour) (cur : list nat) :
  ce_ready e cs cur ->
  exists e' cs',
    ce_body e j c v cs
      = ((e', cs', None), latch_decide (ce_newV e v) (V c) (ce_switched e))
    /\ same_config e e' /\ length cs' = length cs
    /\ match latch_decide (ce_newV e v) (V c) (ce_switched e) with
       | Fire => ce_current e' = Some (map Datatypes.S cur)
                 /\ ce_switched e' = true
                 /\ resolved (ce_hues e) (map Datatypes.S cur) cs'
       | Release => ce_current e' = Some cur /\ ce_switched e' = false
                    /\ map H cs' = map H cs
       | Hold => e' = e /\ map H cs' = map H cs
       end.
Proof.
  intros (Hne & Hcur & Hlen). unfold ce_body.
  destruct (latch_decide (ce_newV e v) (V c) (ce_switched e)).
  - rewrite Hcur.
    destruct (assign_hues_ok (ce_hues e) (idx_current (map Datatypes.S cur)) 0 cs Hne)
      as (cs1 & Hassign & Hall).
    { intros p Hp.
      destruct (idx_current_ok (map Datatypes.S cur) (length cs) p Hp) as (k & Hk & _).
      - now rewrite length_map.
      - now exists k. }
    rewrite Hassign.
    assert (Hlen1 : length cs1 = length cs).
    { pose proof (assign_hues_length (ce_hues e)
                    (idx_current (map Datatypes.S cur)) 0 cs) as Hl.
      now rewrite Hassign in Hl. }
    eexists. eexists. split; [reflexivity |].
    split; [unfold same_config; repeat split |].
    split; [now rewrite upd_nth_length |].
    split; [reflexivity |]. split; [reflexivity |].
    intros i k c' Hk Hc'.
    rewrite upd_nth_nth_error in Hc'.
    assert (Hc1 : exists c1, nth_error cs1 i = Some c1 /\ H c' = H c1).
    { destruct (Nat.eqb _ i).
      - destruct (nth_error cs1 i) as [c1 |]; [| discriminate].
        cbn in Hc'. injection Hc' as <-. now exists c1.
      - now exists c'. }
    destruct Hc1 as (c1 & Hc1 & ->).
    destruct (nth_error cs i) as [c0 |] eqn:Hc0.
    + destruct (Hall i c0 Hc0) as (k' & h & Hk' & Hh & Hn).
      unfold idx_current in Hk'. cbn [Nat.add] in Hk'. rewrite Hk in Hk'.
      injection Hk' as <-. rewrite Hn in Hc1. injection Hc1 as <-.
      exact Hh.
    + apply nth_error_None in Hc0.
      assert (Hin : nth_error cs1 i <> None) by congruence.
      apply nth_error_Some in Hin. lia.
  - eexists. eexists. split; [reflexivity |].
    split; [unfold same_config; repeat split |].
    split; [now rewrite upd_nth_length |].
    split; [exact Hcur |]. split; [reflexivity |].
    apply upd_nth_map. reflexivity.
  - eexists. eexists. split; [reflexivity |].
    split; [apply same_config_refl |].
    split; [now rewrite upd_nth_length |].
    split; [reflexivity |]. apply upd_nth_map. reflexivity.
Qed.

Lemma map_add_succ (n : nat) (cur : list nat) :
  map (Nat.add n) (map Datatypes.S cur) = map (Nat.add (Datatypes.S n)) cur.
Proof.
  rewrite map_map. apply map_ext. intros k. lia.
Qed.

Lemma map_add_zero (cur : list nat) : map (Nat.add 0) cur = cur.
Proof. apply map_id. Qed.

(** The loop, for a state in which it can run: it raises nothing, every
    palette index has advanced by the number of times the latch fired,
    hues are untouched when it did not fire, and the colours show the
    palette entries of their indices as soon as it fired once. *)
Lemma ce_loop_spec (vs : list R) :
  forall (e : ChristmasEffect) (j : nat) (cs : list HSVColour) (cur : list nat),
  ce_ready e cs cur ->
  exists e' cs' log,
    ce_loop e j vs cs = ((e', cs', None), log)
    /\ same_config e e' /\ length cs' = length cs
    /\ ce_current e' = Some (map (Nat.add (fires log)) cur)
    /\ (fires log = 0%nat -> map H cs' = map H cs)
    /\ (fires log <> 0%nat ->
        resolved (ce_hues e) (map (Nat.add (fires log)) cur) cs').
Proof.
  induction vs as [| v vs IH]; intros e j cs cur Hready.
  - exists e, cs, []. cbn [ce_loop fires]. rewrite map_add_zero.
    destruct Hready as (_ & Hcur & _).
    repeat split; auto using same_config_refl. intros Hf. now contradiction Hf.
  - cbn [ce_loop]. destruct (nth_error cs j) as [c |] eqn:Hc.
    + destruct (ce_body_spec e j c v cs cur Hready)
        as (e1 & cs1 & Hbody & Hcfg & Hlen & Hev).
      rewrite Hbody.
      destruct Hready as (Hne & Hcur & Hle).
      assert (Hhues : ce_hues e1 = ce_hues e) by apply Hcfg.
      destruct (latch_decide (ce_newV e v) (V c) (ce_switched e)).
      * destruct Hev as (Hcur1 & _ & Hres).
        destruct (IH e1 (Datatypes.S j) cs1 (map Datatypes.S cur))
          as (e' & cs' & log & Hloop & Hcfg' & Hlen' & Hcur' & Hnone & Hsome).
        { repeat split; [congruence | exact Hcur1 | rewrite length_map; lia]. }
        rewrite Hloop. exists e', cs', (Fire :: log). cbn [fires].
        rewrite map_add_succ in Hcur', Hsome.
        split; [reflexivity |].
        split; [eapply same_config_trans; eassumption |].
        split; [congruence |]. split; [exact Hcur' |].
        split; [discriminate |]. intros _.
        destruct (Nat.eq_dec (fires log) 0) as [Hz | Hnz].
        -- rewrite Hz in *. eapply resolved_same_hues; [apply Hnone; reflexivity |].
           replace (map (Nat.add 1) cur) with (map Datatypes.S cur)
             by (apply map_ext; intros; lia).
           exact Hres.
        -- rewrite <- Hhues. now apply Hsome.
      * destruct Hev as (Hcur1 & _ & HH).
        destruct (IH e1 (Datatypes.S j) cs1 cur)
          as (e' & cs' & log & Hloop & Hcfg' & Hlen' & Hcur' & Hnone & Hsome).
        { repeat split; [congruence | exact Hcur1 | lia]. }
        rewrite Hloop. exists e', cs', (Release :: log). cbn [fires].
        split; [reflexivity |].
        split; [eapply same_config_trans; eassumption |].
        split; [congruence |]. split; [exact Hcur' |].
        split; [intros Hz; rewrite (Hnone Hz); exact HH |].
        intros Hnz. rewrite <- Hhues. now apply Hsome.
      * destruct Hev as (-> & HH).
        destruct (IH e (Datatypes.S j) cs1 cur)
          as (e' & cs' & log & Hloop & Hcfg' & Hlen' & Hcur' & Hnone & Hsome).
        { repeat split; [exact Hne | exact Hcur | lia]. }
        rewrite Hloop. exists e', cs', (Hold :: log). cbn [fires].
        split; [reflexivity |]. split; [exact Hcfg' |].
        split; [congruence |]. split; [exact Hcur' |].
        split; [intros Hz; rewrite (Hnone Hz); exact HH |].
        exact Hsome.
    + exists e, cs, []. cbn [fires]. rewrite map_add_zero.
      destruct Hready as (_ & Hcur & _).
      repeat split; auto using same_config_refl. intros Hf. now contradiction Hf.
Qed.

(** ** ChristmasEffect: whole steps and runs *)

Lemma wave_bounds (lo range x : R) :
  0 <= range -> lo <= wave lo range x <= lo + range.
Proof.
  intros Hr. unfold wave. pose proof (SIN_bound x) as [Hlo Hhi].
  split; nra.
Qed.

Lemma fires_app (l1 l2 : list latch_event) :
  fires (l1 ++ l2) = (fires l1 + fires l2)%nat.
Proof.
  induction l1 as [| [| |] l1 IH]; cbn [app fires]; lia.
Qed.

Lemma map_add_add (a b : nat) (cur : list nat) :
  map (Nat.add b) (map (Nat.add a) cur) = map (Nat.add (a + b)) cur.
Proof.
  rewrite map_map. apply map_ext. intros k. lia.
Qed.

(** A step that is not the first of a run. *)
Lemma ce_step_later (e : ChristmasEffect) (cs : list HSVColour)
    (cur : list nat) (vs : list R) :
  ce_nsteps e <> 0%nat -> ce_Vinit e = Some vs -> ce_ready e cs cur ->
  exists e' cs' log,
    ChristmasEffect_step_log e cs = ((e', cs', None), log)
    /\ ce_nsteps e' = Datatypes.S (ce_nsteps e)
    /\ ce_hues e' = ce_hues e /\ ce_Vinit e' = Some vs
    /\ length cs' = length cs
    /\ ce_current e' = Some (map (Nat.add (fires log)) cur)
    /\ (fires log = 0%nat -> map H cs' = map H cs)
    /\ (fires log <> 0%nat ->
        resolved (ce_hues e) (map (Nat.add (fires log)) cur) cs').
Proof.
  intros Hn Hv Hready.
  unfold ChristmasEffect_step_log, ce_first.
  destruct (Nat.eqb_spec (ce_nsteps e) 0) as [Hz | _]; [contradiction |].
  cbn [ce_tick ce_Vinit]. rewrite Hv.
  match goal with
  | |- context [ce_loop ?e1 0 vs cs] =>
      destruct (ce_loop_spec vs e1 0 cs cur)
        as (e' & cs' & log & Hloop & Hcfg & Hlen & Hcur & Hnone & Hsome)
  end.
  { exact Hready. }
  rewrite Hloop.
  exists e', cs', log.
  destruct Hcfg as (_ & _ & _ & _ & Hh & Hns & Hvi & _).
  cbn [ce_hues ce_nsteps ce_Vinit ce_tick] in *.
  repeat split; try assumption; congruence.
Qed.

Lemma resolved_enumerate (hues : list R) (cs cs1 : list HSVColour) :
  (forall p c, nth_error cs p = Some c ->
     exists k h, idx_enumerate (0 + p) = Ok k
                 /\ nth_error hues (k mod length hues) = Some h
                 /\ nth_error cs1 p = Some (setH c h)) ->
  length cs1 = length cs ->
  resolved hues (seq 0 (length cs)) cs1.
Proof.
  intros Hall Hlen i k c1 Hk Hc1.
  assert (Hi : (i < length cs)%nat).
  { rewrite <- Hlen. apply nth_error_Some. congruence. }
  rewrite nth_error_seq in Hk.
  destruct (Nat.ltb_spec i (length cs)) as [_ | Hge]; [| lia].
  cbn in Hk. injection Hk as <-.
  destruct (nth_error cs i) as [c |] eqn:Hc.
  - destruct (Hall i c Hc) as (k' & h & Hk' & Hh & Hn).
    unfold idx_enumerate in Hk'. cbn in Hk'. injection Hk' as <-.
    rewrite Hn in Hc1. injection Hc1 as <-. exact Hh.
  - apply nth_error_None in Hc. lia.
Qed.

(** The first step of a run. *)
Lemma ce_step_first (e : ChristmasEffect) (cs : list HSVColour) :
  ce_nsteps e = 0%nat -> ce_hues e <> [] ->
  Forall (fun c => in_asin_domain (V c)) cs ->
  exists e' cs' log,
    ChristmasEffect_step_log e cs = ((e', cs', None), log)
    /\ ce_nsteps e' = 1%nat
    /\ ce_hues e' = ce_hues e
    /\ ce_Vinit e' = Some (map (fun c => asin (V c)) cs)
    /\ length cs' = length cs
    /\ ce_current e' = Some (map (Nat.add (fires log)) (seq 0 (length cs)))
    /\ resolved (ce_hues e) (map (Nat.add (fires log)) (seq 0 (length cs))) cs'.
Proof.
  intros Hn Hne Hdom.
  unfold ChristmasEffect_step_log, ce_first.
  rewrite Hn. cbn [Nat.eqb]. rewrite (asin_all_ok V cs Hdom).
  cbn [ce_set_current ce_hues].
  destruct (assign_hues_ok (ce_hues e) idx_enumerate 0 cs Hne)
    as (cs1 & Hassign & Hall).
  { intros p _. now exists (0 + p)%nat. }
  rewrite Hassign.
  assert (Hlen1 : length cs1 = length cs).
  { pose proof (assign_hues_length (ce_hues e) idx_enumerate 0 cs) as Hl.
    now rewrite Hassign in Hl. }
  pose proof (resolved_enumerate (ce_hues e) cs cs1 Hall Hlen1) as Hres.
  cbn [ce_tick ce_set_Vinit ce_Vinit].
  match goal with
  | |- context [ce_loop ?e1 0 ?vs cs1] =>
      destruct (ce_loop_spec vs e1 0 cs1 (seq 0 (length cs)))
        as (e' & cs' & log & Hloop & Hcfg & Hlen & Hcur & Hnone & Hsome)
  end.
  { split; [exact Hne |]. split; [reflexivity |].
    rewrite length_seq. lia. }
  rewrite Hloop. exists e', cs', log.
  destruct Hcfg as (_ & _ & _ & _ & Hh & Hns & Hvi & _).
  cbn [ce_hues ce_nsteps ce_Vinit ce_tick ce_set_Vinit ce_set_current] in *.
  split; [reflexivity |]. split; [congruence |]. split; [exact Hh |].
  split; [exact Hvi |]. split; [congruence |]. split; [exact Hcur |].
  destruct (Nat.eq_dec (fires log) 0) as [Hz | Hnz].
  - rewrite Hz, map_add_zero.
    eapply resolved_same_hues; [apply Hnone; exact Hz | exact Hres].
  - now apply Hsome.
Qed.

Lemma ce_step_running (e : ChristmasEffect) (cs : list HSVColour) (cur : list nat) :
  ce_running e cs cur ->
  exists e' cs' log,
    ChristmasEffect_step_log e cs = ((e', cs', None), log)
    /\ ce_hues e' = ce_hues e /\ length cs' = length cs
    /\ ce_running e' cs' (map (Nat.add (fires log)) cur)
    /\ (fires log = 0%nat -> map H cs' = map H cs).
Proof.
  intros (Hn & (vs & Hv) & Hready & Hres).
  destruct (ce_step_later e cs cur vs Hn Hv Hready)
    as (e' & cs' & log & Hstep & Hns & Hh & Hvi & Hlen & Hcur & Hnone & Hsome).
  exists e', cs', log. split; [exact Hstep |]. split; [exact Hh |].
  split; [exact Hlen |]. split; [| exact Hnone].
  destruct Hready as (Hne & _ & Hle).
  split; [lia |]. split; [now exists vs |]. split.
  - split; [congruence |]. split; [exact Hcur |]. rewrite length_map. lia.
  - rewrite Hh. destruct (Nat.eq_dec (fires log) 0) as [Hz | Hnz].
    + rewrite Hz, map_add_zero.
      eapply resolved_same_hues; [apply Hnone; exact Hz | exact Hres].
    + now apply Hsome.
Qed.

Lemma ce_run_running (n : nat) :
  forall (e : ChristmasEffect) (cs : list HSVColour) (cur : list nat),
  ce_running e cs cur ->
  exists e' cs' log,
    ChristmasEffect_run n e cs = ((e', cs', None), log)
    /\ ce_hues e' = ce_hues e /\ length cs' = length cs
    /\ ce_running e' cs' (map (Nat.add (fires log)) cur)
    /\ (fires log = 0%nat -> map H cs' = map H cs).
Proof.
  induction n as [| n IH]; intros e cs cur Hrun.
  - exists e, cs, []. cbn [ChristmasEffect_run fires]. rewrite map_add_zero. auto.
  - cbn [ChristmasEffect_run].
    destruct (ce_step_running e cs cur Hrun)
      as (e1 & cs1 & log1 & Hstep & Hh1 & Hlen1 & Hrun1 & Hnone1).
    rewrite Hstep.
    destruct (IH e1 cs1 _ Hrun1) as (e' & cs' & log & Hr & Hh & Hlen & Hrun' & Hnone).
    rewrite Hr. exists e', cs', (log1 ++ log).
    rewrite fires_app. rewrite map_add_add in Hrun'.
    split; [reflexivity |]. split; [congruence |]. split; [congruence |].
    split; [exact Hrun' |].
    intros Hz. rewrite Hnone by lia. apply Hnone1. lia.
Qed.

(** A run from a freshly constructed effect. *)
Lemma ce_run_fresh (n : nat) (e : ChristmasEffect) (cs : list HSVColour) :
  ce_nsteps e = 0%nat -> ce_hues e <> [] ->
  Forall (fun c => in_asin_domain (V c)) cs ->
  exists e' cs' log,
    ChristmasEffect_run (Datatypes.S n) e cs = ((e', cs', None), log)
    /\ ce_hues e' = ce_hues e /\ length cs' = length cs
    /\ ce_running e' cs' (map (Nat.add (fires log)) (seq 0 (length cs))).
Proof.
  intros Hn Hne Hdom. cbn [ChristmasEffect_run].
  destruct (ce_step_first e cs Hn Hne Hdom)
    as (e1 & cs1 & log1 & Hstep & Hns & Hh1 & Hvi & Hlen & Hcur & Hres).
  rewrite Hstep.
  destruct (ce_run_running n e1 cs1 (map (Nat.add (fires log1)) (seq 0 (length cs))))
    as (e' & cs' & log & Hr & Hh & Hlen' & Hrun' & _).
  { split; [lia |]. split; [eexists; exact Hvi |]. split.
    - split; [congruence |]. split; [exact Hcur |].
      rewrite length_map, length_seq. lia.
    - now rewrite Hh1. }
  rewrite Hr. exists e', cs', (log1 ++ log).
  rewrite fires_app. rewrite map_add_add in Hrun'.
  split; [reflexivity |]. split; [congruence |]. split; [congruence | exact Hrun'].
Qed.


Lemma latch_decide_fire (x y : R) : x > y -> latch_decide x y false = Fire.
Proof.
  intros Hgt. unfold latch_decide.
  destruct (Rgt_dec x y); [reflexivity | contradiction].
Qed.

Lemma latch_decide_same (x : R) (b : bool) : latch_decide x x b = Hold.
Proof.
  unfold latch_decide.
  destruct (Rgt_dec x x); [lra |]. destruct (Rlt_dec x x); [lra | reflexivity].
Qed.


(** Two devices at V = 0 and the palette [0, 0.5]: the first step fires the
    latch at the first device and holds at the second. *)
Lemma two_hues_first_step :
  exists e' cs',
    ChristmasEffect_run 1 two_hues [dark; dark] = ((e', cs', None), [Fire; Hold])
    /\ ce_nsteps e' = 1%nat.
Proof.
  unfold ChristmasEffect_run, ChristmasEffect_step_log, ce_first, two_hues,
    ChristmasEffect_init, dark.
  cbn [ce_nsteps Nat.eqb asin_all V].
  rewrite math_asin_ok by (unfold in_asin_domain; lra).
  cbn [length seq ce_set_current ce_set_Vinit ce_hues assign_hues idx_enumerate
       palette Nat.modulo Nat.divmod fst snd Nat.sub nth_error setH S V ce_tick
       ce_Vinit ce_nsteps ce_loop].
  unfold ce_body, ce_newV, ce_tick, ce_set_Vinit, ce_set_current, setH.
  cbn [ce_minV ce_Vrange ce_dV ce_nsteps ce_switched ce_current ce_hues H S V].
  set (w := wave (1 / 255) (7 / 10 - 1 / 255) (asin 0 + 1 / 10 * INR 1)).
  assert (Hw : w > 0).
  { pose proof (wave_bounds (1 / 255) (7 / 10 - 1 / 255)
                  (asin 0 + 1 / 10 * INR 1)) as Hb.
    fold w in Hb. lra. }
  rewrite (latch_decide_fire w 0 Hw).
  cbn [map assign_hues idx_current nth_error palette length Nat.modulo Nat.divmod
       fst snd Nat.sub setH setV upd_nth ce_set_switched ce_set_current
       ce_minV ce_Vrange ce_dV ce_nsteps ce_switched ce_current ce_hues H S V].
  fold w. rewrite latch_decide_same.
  do 2 eexists. split; reflexivity.
Qed.




(** ** ChristmasEffect.reset *)

(** C4, what the code does: [reset] writes the attribute [steps] and leaves
    the counter [nsteps] alone, so after a run the next step skips the
    first-step block: palette indices, phases and hues are not recomputed. *)
Theorem reset_keeps_counter (e : ChristmasEffect) (cs : list HSVColour) :
  ce_nsteps e <> 0%nat ->
  ce_nsteps (ChristmasEffect_reset e) = ce_nsteps e
  /\ ce_steps (ChristmasEffect_reset e) = Some 0%nat
  /\ ce_first (ChristmasEffect_reset e) cs = (ChristmasEffect_reset e, cs, None).
Proof.
  intros Hn. split; [reflexivity |]. split; [reflexivity |].
  unfold ce_first. cbn [ChristmasEffect_reset ce_nsteps].
  destruct (Nat.eqb_spec (ce_nsteps e) 0) as [Hz | _]; [contradiction | reflexivity].
Qed.

Lemma reset_keeps_counter_witness :
  exists e' cs',
    ChristmasEffect_run 1 two_hues [dark; dark] = ((e', cs', None), [Fire; Hold])
    /\ ce_nsteps (ChristmasEffect_reset e') = 1%nat
    /\ ce_first (ChristmasEffect_reset e') [dark; dark]
       = (ChristmasEffect_reset e', [dark; dark], None).
Proof.
  destruct two_hues_first_step as (e' & cs' & Hrun & Hone).
  exists e', cs'. split; [exact Hrun |].
  assert (Hn : ce_nsteps e' <> 0%nat) by (rewrite Hone; discriminate).
  destruct (reset_keeps_counter e' [dark; dark] Hn) as (Hkeep & _ & Hfirst).
  split; [| exact Hfirst].
  rewrite Hkeep. exact Hone.
Defined.

(** ** The first step and the domain of arcsin *)

Lemma in_unit_asin_domain (x : R) : in_unit x -> in_asin_domain x.
Proof. unfold in_unit, in_asin_domain. lra. Qed.

Lemma math_asin_cases (x : R) :
  math_asin x = Ok (asin x) \/ math_asin x = Raise ValueError.
Proof.
  unfold math_asin.
  destruct (Rle_dec (-1) x); [destruct (Rle_dec x 1) |]; auto.
Qed.

Lemma asin_all_raises (f : HSVColour -> R) (cs : list HSVColour) :
  Exists (fun c => 1 < f c) cs -> asin_all f cs = Raise ValueError.
Proof.
  induction 1 as [c cs Hc | c cs _ IH]; cbn [asin_all].
  - now rewrite (math_asin_raises _ Hc).
  - destruct (math_asin_cases (f c)) as [-> | ->]; [now rewrite IH | reflexivity].
Qed.

Lemma asin_all_cases (f : HSVColour -> R) (cs : list HSVColour) :
  (exists l, asin_all f cs = Ok l) \/ asin_all f cs = Raise ValueError.
Proof.
  induction cs as [| c cs IH]; cbn [asin_all].
  - left. now exists [].
  - destruct (math_asin_cases (f c)) as [-> | ->]; [| now right].
    destruct IH as [[l ->] | ->]; [left; eexists; reflexivity | now right].
Qed.

Lemma ChristmasEffect_empty_palette (e : ChristmasEffect) (c : HSVColour)
    (cs : list HSVColour) :
  ce_nsteps e = 0%nat -> ce_hues e = [] ->
  Forall (fun c => in_asin_domain (V c)) (c :: cs) ->
  snd (ChristmasEffect_step e (c :: cs)) = Some ZeroDivisionError.
Proof.
  intros Hn Hh Hdom.
  unfold ChristmasEffect_step, ChristmasEffect_step_log, ce_first.
  rewrite Hn. cbn [Nat.eqb]. rewrite (asin_all_ok V (c :: cs) Hdom), Hh.
  reflexivity.
Qed.

(** C10, as amended: on colours whose S and V lie in [0, 1] the first step
    of HSVCycleEffect raises nothing, and neither does that of ChristmasEffect
    when its palette is not empty and V lies in [0, 1] (S is not read); the
    bound matters: a colour with S or V above 1 makes the first step of
    HSVCycleEffect end in a ValueError, a colour with V above 1 that of
    ChristmasEffect; and with an empty palette the first step of
    ChristmasEffect ends in a ZeroDivisionError. *)
Theorem first_step_total :
  (forall e cs,
      hc_nsteps e = 0%nat ->
      Forall (fun c => in_unit (S c) /\ in_unit (V c)) cs ->
      snd (HSVCycleEffect_step e cs) = None)
  /\ (forall e cs,
      ce_nsteps e = 0%nat -> ce_hues e <> [] ->
      Forall (fun c => in_unit (V c)) cs ->
      snd (ChristmasEffect_step e cs) = None)
  /\ (forall e cs,
      hc_nsteps e = 0%nat ->
      Exists (fun c => 1 < S c) cs \/ Exists (fun c => 1 < V c) cs ->
      snd (HSVCycleEffect_step e cs) = Some ValueError)
  /\ (forall e cs,
      ce_nsteps e = 0%nat -> Exists (fun c => 1 < V c) cs ->
      snd (ChristmasEffect_step e cs) = Some ValueError)
  /\ (forall e cs,
      ce_nsteps e = 0%nat -> ce_hues e = [] -> cs <> [] ->
      Forall (fun c => in_unit (V c)) cs ->
      snd (ChristmasEffect_step e cs) = Some ZeroDivisionError).
Proof.
  split; [| split; [| split; [| split]]].
  - intros e cs Hn Hdom.
    assert (HS : Forall (fun c => in_asin_domain (S c)) cs)
      by (eapply Forall_impl; [| exact Hdom];
          intros c [? ?]; now apply in_unit_asin_domain).
    assert (HV : Forall (fun c => in_asin_domain (V c)) cs)
      by (eapply Forall_impl; [| exact Hdom];
          intros c [? ?]; now apply in_unit_asin_domain).
    unfold HSVCycleEffect_step, hc_first. rewrite Hn. cbn [Nat.eqb].
    rewrite (asin_all_ok S cs HS), (asin_all_ok V cs HV). reflexivity.
  - intros e cs Hn Hne Hdom.
    assert (HV : Forall (fun c => in_asin_domain (V c)) cs)
      by (eapply Forall_impl; [| exact Hdom];
          intros c ?; now apply in_unit_asin_domain).
    destruct (ce_step_first e cs Hn Hne HV) as (e' & cs' & log & Hstep & _).
    unfold ChristmasEffect_step. now rewrite Hstep.
  - intros e cs Hn Hbad.
    unfold HSVCycleEffect_step, hc_first. rewrite Hn. cbn [Nat.eqb].
    destruct Hbad as [HS | HV].
    + now rewrite (asin_all_raises S cs HS).
    + rewrite (asin_all_raises V cs HV).
      destruct (asin_all_cases S cs) as [[l ->] | ->]; reflexivity.
  - intros e cs Hn HV.
    unfold ChristmasEffect_step, ChristmasEffect_step_log, ce_first.
    rewrite Hn. cbn [Nat.eqb]. now rewrite (asin_all_raises V cs HV).
  - intros e cs Hn Hh Hne Hdom. destruct cs as [| c cs]; [contradiction |].
    apply ChristmasEffect_empty_palette; [exact Hn | exact Hh |].
    eapply Forall_impl; [| exact Hdom]. intros c' ?. now apply in_unit_asin_domain.
Qed.

Lemma first_step_total_witness :
  snd (HSVCycleEffect_step still_cycle [mkHSV (6 / 10) (99 / 100) (7 / 10)]) = None
  /\ snd (ChristmasEffect_step ChristmasEffect_default
            [mkHSV (6 / 10) 2 (7 / 10)]) = None
  /\ snd (HSVCycleEffect_step still_cycle [mkHSV 0 2 0]) = Some ValueError
  /\ snd (ChristmasEffect_step ChristmasEffect_default [mkHSV 0 0 2])
     = Some ValueError
  /\ snd (ChristmasEffect_step (ChristmasEffect_init (1 / 10) (1 / 255) (7 / 10) [])
            [mkHSV 0 1 1]) = Some ZeroDivisionError.
Proof.
  destruct first_step_total as (Hcycle & Hxmas & Hcycle_bad & Hxmas_bad & Hempty).
  assert (Hdom : Forall (fun c => in_unit (S c) /\ in_unit (V c))
                   [mkHSV (6 / 10) (99 / 100) (7 / 10)]).
  { constructor; [| constructor]. cbn [S V]. unfold in_unit. lra. }
  assert (HdomV : Forall (fun c => in_unit (V c)) [mkHSV (6 / 10) 2 (7 / 10)]).
  { constructor; [| constructor]. cbn [V]. unfold in_unit. lra. }
  assert (Hdom1 : Forall (fun c => in_unit (V c)) [mkHSV 0 1 1]).
  { constructor; [| constructor]. cbn [V]. unfold in_unit. lra. }
  split; [apply Hcycle; [reflexivity | exact Hdom] |].
  split; [apply Hxmas; [reflexivity | discriminate | exact HdomV] |].
  split; [| split].
  - apply Hcycle_bad; [reflexivity |]. left. constructor. cbn [S]. lra.
  - apply Hxmas_bad; [reflexivity |]. constructor. cbn [V]. lra.
  - apply Hempty; [reflexivity | reflexivity | discriminate | exact Hdom1].
Defined.

(** C10 as stated fails: the colour (0, 1, 1) has S and V in [0, 1], and
    the first step of ChristmasEffect(hues=[]) on it ends in a
    ZeroDivisionError at [i % len(self.hues)]. *)
Lemma empty_palette_first_step :
  ~ (forall (e : ChristmasEffect) (cs : list HSVColour),
       ce_nsteps e = 0%nat -> cs <> [] ->
       Forall (fun c => in_unit (S c) /\ in_unit (V c)) cs ->
       snd (ChristmasEffect_step e cs) = None).
Proof.
  intros Hclaim.
  specialize (Hclaim (ChristmasEffect_init (1 / 10) (1 / 255) (7 / 10) [])
                     [mkHSV 0 1 1] eq_refl).
  rewrite ChristmasEffect_empty_palette in Hclaim.
  - enough (Hn : Some ZeroDivisionError = None) by discriminate Hn.
    apply Hclaim; [discriminate |].
    constructor; [| constructor]. cbn [S V]. unfold in_unit. lra.
  - reflexivity.
  - reflexivity.
  - constructor; [| constructor]. cbn [V]. unfold in_asin_domain. lra.
Qed.

(** ** Colour sequences of another length than the per-device lists *)

(** C7, as amended: a length mismatch raises nothing.  In HSVCycleEffect
    the step updates every colour that has a partner in both per-device
    lists (its hue moved by dH modulo 1, its S and V set from the partner's
    phase at the new step count) and leaves the colours past the shorter
    list as they are; in ChristmasEffect with a non-empty palette a colour
    sequence no longer than the per-device lists is stepped without an
    exception and keeps its length. *)
Theorem length_mismatch_is_silent :
  (forall e cs ss vs,
      hc_nsteps e <> 0%nat -> hc_Sinit e = Some ss -> hc_Vinit e = Some vs ->
      snd (HSVCycleEffect_step e cs) = None
      /\ length (snd (fst (HSVCycleEffect_step e cs))) = length cs
      /\ (forall i c s v,
             nth_error cs i = Some c -> nth_error ss i = Some s ->
             nth_error vs i = Some v ->
             nth_error (snd (fst (HSVCycleEffect_step e cs))) i
             = Some (mkHSV
                 (pymod (H c + hc_dH e) 1)
                 (hc_minS e + hc_Srange e
                    * (1 + sin (s + hc_dS e * INR (Datatypes.S (hc_nsteps e)))) / 2)
                 (hc_minV e + hc_Vrange e
                    * (1 + sin (v + hc_dV e * INR (Datatypes.S (hc_nsteps e)))) / 2)))
      /\ forall i, (Nat.min (length ss) (length vs) <= i)%nat ->
           nth_error (snd (fst (HSVCycleEffect_step e cs))) i = nth_error cs i)
  /\ (forall e cs cur vs,
      ce_nsteps e <> 0%nat -> ce_Vinit e = Some vs -> ce_current e = Some cur ->
      ce_hues e <> [] -> (length cs <= length cur)%nat ->
      snd (ChristmasEffect_step e cs) = None
      /\ length (snd (fst (ChristmasEffect_step e cs))) = length cs).
Proof.
  split.
  - intros e cs ss vs Hn HS HV.
    unfold HSVCycleEffect_step, hc_first.
    destruct (Nat.eqb_spec (hc_nsteps e) 0) as [Hz | _]; [contradiction |].
    cbn [hc_tick hc_Sinit hc_Vinit]. rewrite HS, HV. cbn [fst snd].
    split; [reflexivity |]. split; [apply hc_loop_length |]. split.
    + intros i c s v Hc Hs Hv.
      rewrite (hc_loop_within _ cs ss vs i c s v Hc Hs Hv). reflexivity.
    + intros i Hi. now apply hc_loop_beyond.
  - intros e cs cur vs Hn Hv Hcur Hne Hle.
    destruct (ce_step_later e cs cur vs Hn Hv)
      as (e' & cs' & log & Hstep & _ & _ & _ & Hlen & _).
    { repeat split; assumption. }
    unfold ChristmasEffect_step. rewrite Hstep. cbn [fst snd]. auto.
Qed.

Lemma length_mismatch_is_silent_witness :
  snd (HSVCycleEffect_step (still_cycle_at 1 [dark]) [dark; dark]) = None
  /\ nth_error (snd (fst (HSVCycleEffect_step (still_cycle_at 1 [dark]) [dark; dark]))) 0
     = Some (mkHSV (pymod (0 + 0) 1)
               (1 / 255 + (1 - 1 / 255) * (1 + sin (asin 1 + 0 * INR 2)) / 2)
               (1 / 255 + (1 - 1 / 255) * (1 + sin (asin 0 + 0 * INR 2)) / 2))
  /\ nth_error (snd (fst (HSVCycleEffect_step (still_cycle_at 1 [dark]) [dark; dark]))) 1
     = Some dark.
Proof.
  destruct length_mismatch_is_silent as (Hcycle & _).
  destruct (Hcycle (still_cycle_at 1 [dark]) [dark; dark] [asin 1] [asin 0])
    as (Hnone & _ & Hupd & Hkeep); try reflexivity; [discriminate |].
  split; [exact Hnone |]. split.
  - apply (Hupd 0%nat dark (asin 1) (asin 0)); reflexivity.
  - apply (Hkeep 1%nat). cbn. lia.
Defined.

(** C7 as stated fails: after a first step on one colour, a step on two
    colours raises nothing. *)
Lemma cycle_step_truncates :
  ~ (forall e cs ss,
       hc_nsteps e <> 0%nat -> hc_Sinit e = Some ss -> hc_Vinit e <> None ->
       length ss <> length cs ->
       snd (HSVCycleEffect_step e cs) <> None).
Proof.
  intros Hclaim.
  apply (Hclaim (fst (fst (HSVCycleEffect_step still_cycle [dark])))
                [dark; dark] [asin 1]).
  - rewrite still_cycle_first; [discriminate |].
    constructor; [| constructor]. unfold in_asin_domain, dark. cbn [S V]. lra.
  - rewrite still_cycle_first; [reflexivity |].
    constructor; [| constructor]. unfold in_asin_domain, dark. cbn [S V]. lra.
  - rewrite still_cycle_first; [discriminate |].
    constructor; [| constructor]. unfold in_asin_domain, dark. cbn [S V]. lra.
  - discriminate.
  - rewrite still_cycle_first; [reflexivity |].
    constructor; [| constructor]. unfold in_asin_domain, dark. cbn [S V]. lra.
Qed.

(** ** Hues in exact arithmetic

    In exact arithmetic [x % 1] lies in [0, 1), and with it every hue that
    a step leaves.  The main block is followed with this invariant: the hue
    steps of its schedule are not negative, and for those the remainder in
    doubles stays below 1 as well.  For a negative hue step it does not: see
    the results in binary64 arithmetic. *)

Lemma hue_ok_pymod (x : R) : hue_ok (pymod x 1).
Proof. apply pymod_1_range. Qed.

Lemma hues_ok_setV (v : R) (cs : list HSVColour) :
  hues_ok cs -> hues_ok (map (fun c => setV c v) cs).
Proof.
  unfold hues_ok. intros Hcs. apply Forall_map.
  eapply Forall_impl; [| exact Hcs]. auto.
Qed.

Lemma hues_ok_upd_setV (n : nat) (v : R) (cs : list HSVColour) :
  hues_ok cs -> hues_ok (upd_nth n (fun c => setV c v) cs).
Proof.
  apply upd_nth_Forall. auto.
Qed.

Lemma hc_loop_hues_ok (e : HSVCycleEffect) (cs : list HSVColour) (Ss Vs : list R) :
  hues_ok cs -> hues_ok (hc_loop e cs Ss Vs).
Proof.
  intros Hcs. revert Ss Vs.
  induction Hcs as [| c cs Hc Hcs IH]; intros [| s Ss] [| v Vs]; cbn [hc_loop];
    try (constructor; assumption).
  constructor; [apply hue_ok_pymod | apply IH].
Qed.

Lemma HSVCycleEffect_step_hues_ok (e : HSVCycleEffect) (cs : list HSVColour) :
  hues_ok cs -> hues_ok (snd (fst (HSVCycleEffect_step e cs))).
Proof.
  intros Hcs. unfold HSVCycleEffect_step.
  destruct (hc_first e cs) as [e1 [x |]]; [exact Hcs |].
  destruct (hc_Sinit (hc_tick e1)); [| exact Hcs].
  destruct (hc_Vinit (hc_tick e1)); [| exact Hcs].
  now apply hc_loop_hues_ok.
Qed.

Lemma rng_ok_same_draws (g g' : RNG) : draws g' = draws g -> rng_ok g -> rng_ok g'.
Proof.
  unfold rng_ok. intros -> Hg. exact Hg.
Qed.

Lemma RandomEffect_step_ok (cs : list HSVColour) :
  forall g, rng_ok g ->
    hues_ok (fst (RandomEffect_step cs g))
    /\ draws (snd (RandomEffect_step cs g)) = draws g.
Proof.
  induction cs as [| c cs IH]; intros g Hg; cbn [RandomEffect_step].
  - split; [constructor | reflexivity].
  - unfold random.
    destruct (IH (mkRNG (draws g) (Datatypes.S (pos g)))) as [Hcs Hd];
      [exact Hg |].
    destruct (RandomEffect_step cs _) as [cs' g2]. cbn [fst snd] in *.
    split; [constructor; [apply Hg | exact Hcs] | exact Hd].
Qed.

Lemma palette_hue_ok (hues : list R) (k : nat) (h : R) :
  Forall hue_ok hues -> palette hues k = Ok h -> hue_ok h.
Proof.
  intros Hall Hp. apply palette_In in Hp.
  rewrite Forall_forall in Hall. now apply Hall.
Qed.

Lemma assign_hues_hues_ok (hues : list R) (idx : nat -> result nat)
    (cs : list HSVColour) :
  Forall hue_ok hues -> hues_ok cs ->
  forall i, hues_ok (fst (assign_hues hues idx i cs)).
Proof.
  intros Hall Hcs.
  induction Hcs as [| c cs Hc Hcs IH]; intros i; cbn [assign_hues].
  - constructor.
  - destruct (idx i) as [k | x]; [| now constructor].
    destruct (palette hues k) as [h | x] eqn:Hp; [| now constructor].
    specialize (IH (Datatypes.S i)).
    destruct (assign_hues hues idx (Datatypes.S i) cs) as [r x].
    cbn [fst] in *. constructor; [| exact IH].
    cbn [setH H]. eapply palette_hue_ok; eassumption.
Qed.

Lemma ce_body_hues_ok (e : ChristmasEffect) (j : nat) (c : HSVColour) (v : R)
    (cs : list HSVColour) :
  Forall hue_ok (ce_hues e) -> hues_ok cs ->
  hues_ok (snd (fst (fst (ce_body e j c v cs))))
  /\ ce_hues (fst (fst (fst (ce_body e j c v cs)))) = ce_hues e.
Proof.
  intros Hall Hcs. unfold ce_body.
  destruct (latch_decide _ _ _).
  - destruct (ce_current e) as [cur |]; [| now split].
    pose proof (assign_hues_hues_ok (ce_hues e)
                  (idx_current (map Datatypes.S cur)) cs Hall Hcs 0%nat) as Hr.
    destruct (assign_hues _ _ _ _) as [cs1 [x |]]; cbn [fst snd] in *.
    + now split.
    + split; [now apply hues_ok_upd_setV | reflexivity].
  - cbn [fst snd]. split; [now apply hues_ok_upd_setV | reflexivity].
  - cbn [fst snd]. split; [now apply hues_ok_upd_setV | reflexivity].
Qed.

Lemma ce_loop_hues_ok (vs : list R) :
  forall (e : ChristmasEffect) (j : nat) (cs : list HSVColour),
  Forall hue_ok (ce_hues e) -> hues_ok cs ->
  hues_ok (snd (fst (fst (ce_loop e j vs cs))))
  /\ ce_hues (fst (fst (fst (ce_loop e j vs cs)))) = ce_hues e.
Proof.
  induction vs as [| v vs IH]; intros e j cs Hall Hcs; cbn [ce_loop].
  - now split.
  - destruct (nth_error cs j) as [c |]; [| now split].
    destruct (ce_body_hues_ok e j c v cs Hall Hcs) as [Hcs1 Hh1].
    destruct (ce_body e j c v cs) as [[[e1 cs1] [x |]] ev]; cbn [fst snd] in *.
    + now split.
    + destruct (IH e1 (Datatypes.S j) cs1) as [Hcs' Hh'];
        [now rewrite Hh1 | exact Hcs1 |].
      destruct (ce_loop e1 (Datatypes.S j) vs cs1) as [r log].
      cbn [fst snd] in *. split; [exact Hcs' | congruence].
Qed.

Lemma ChristmasEffect_step_hues_ok (e : ChristmasEffect) (cs : list HSVColour) :
  Forall hue_ok (ce_hues e) -> hues_ok cs ->
  hues_ok (snd (fst (ChristmasEffect_step e cs)))
  /\ ce_hues (fst (fst (ChristmasEffect_step e cs))) = ce_hues e.
Proof.
  intros Hall Hcs.
  assert (Hfirst : hues_ok (snd (fst (ce_first e cs)))
                   /\ ce_hues (fst (fst (ce_first e cs))) = ce_hues e).
  { unfold ce_first. destruct (Nat.eqb (ce_nsteps e) 0); [| now split].
    destruct (asin_all V cs) as [vs | x]; [| now split].
    pose proof (assign_hues_hues_ok (ce_hues e) idx_enumerate cs Hall Hcs 0%nat) as Hr.
    destruct (assign_hues _ _ _ _) as [cs1 x]. now split. }
  unfold ChristmasEffect_step, ChristmasEffect_step_log.
  destruct (ce_first e cs) as [[e1 cs1] [x |]]; cbn [fst snd] in *;
    [exact Hfirst |].
  destruct Hfirst as [Hcs1 Hh1].
  destruct (ce_Vinit (ce_tick e1)) as [vs |]; [| now split].
  destruct (ce_loop_hues_ok vs (ce_tick e1) 0 cs1) as [Hcs' Hh'];
    [now rewrite <- Hh1 in Hall | exact Hcs1 |].
  split; [exact Hcs' |]. rewrite Hh'. exact Hh1.
Qed.

Lemma spread_from_hues_ok (h dist : R) (cs : list HSVColour) :
  forall i, hues_ok (spread_from h dist i cs).
Proof.
  induction cs as [| c cs IH]; intros i; cbn [spread_from]; constructor.
  - apply hue_ok_pymod.
  - apply IH.
Qed.

Lemma setrandomhues_ok (cs : list HSVColour) (g : RNG) :
  hues_ok cs ->
  hues_ok (fst (fst (setrandomhues cs g)))
  /\ draws (snd (fst (setrandomhues cs g))) = draws g.
Proof.
  intros Hcs. unfold setrandomhues. destruct cs as [| c cs]; [now split |].
  cbn [random fst snd]. split; [apply spread_from_hues_ok | reflexivity].
Qed.

Lemma ChristmasEffectR_step_ok (e : ChristmasEffectR) (cs : list HSVColour) (g : RNG) :
  hues_ok cs ->
  hues_ok (snd (fst (fst (ChristmasEffectR_step e cs g))))
  /\ draws (snd (ChristmasEffectR_step e cs g)) = draws g.
Proof.
  intros Hcs. unfold ChristmasEffectR_step.
  assert (Hfirst :
    hues_ok (fst (fst (if Nat.eqb (cr_nsteps e) 0
                       then setrandomhues (map (fun c => setV c (cr_Vinit e)) cs) g
                       else (cs, g, None))))
    /\ draws (snd (fst (if Nat.eqb (cr_nsteps e) 0
                        then setrandomhues (map (fun c => setV c (cr_Vinit e)) cs) g
                        else (cs, g, None)))) = draws g).
  { destruct (Nat.eqb (cr_nsteps e) 0); [| now split].
    apply setrandomhues_ok. now apply hues_ok_setV. }
  destruct (if Nat.eqb (cr_nsteps e) 0 then _ else _) as [[cs1 g1] [x |]];
    cbn [fst snd] in *; [exact Hfirst |].
  destruct Hfirst as [Hcs1 Hg1].
  destruct (latch_decide _ _ _); cbn [fst snd].
  - destruct (setrandomhues_ok cs1 g1 Hcs1) as [Hcs2 Hg2].
    destruct (setrandomhues cs1 g1) as [[cs2 g2] [x |]]; cbn [fst snd] in *.
    + split; [exact Hcs2 | congruence].
    + split; [now apply hues_ok_setV | congruence].
  - split; [now apply hues_ok_setV | exact Hg1].
  - split; [now apply hues_ok_setV | exact Hg1].
Qed.

Lemma draw_list_draws (f : R -> R) (n : nat) :
  forall g, draws (snd (draw_list f n g)) = draws g.
Proof.
  induction n as [| n IH]; intros g; cbn [draw_list]; [reflexivity |].
  unfold random. specialize (IH (mkRNG (draws g) (Datatypes.S (pos g)))).
  destruct (draw_list f n _) as [l g2]. exact IH.
Qed.

Lemma ra_first_draws (e : ChristmasEffectRA) (cs : list HSVColour) (g : RNG) :
  draws (snd (ra_first e cs g)) = draws g.
Proof.
  unfold ra_first. destruct (Nat.eqb (ra_nsteps e) 0); [| reflexivity].
  pose proof (draw_list_draws
                (fun r => ra_minV e + r * (ra_maxV e - ra_minV e)) (length cs) g) as H1.
  destruct (draw_list _ (length cs) g) as [vinit g1].
  pose proof (draw_list_draws (genstepsize (ra_stepamp e)) (length cs) g1) as H2.
  destruct (draw_list _ (length cs) g1) as [sizes g2].
  cbn [fst snd] in *. congruence.
Qed.

Lemma ra_loop_ok (dV minV Vrange : R) (nsteps : nat) (cs : list HSVColour) :
  forall (i : nat) (vs ss : list R) (sw : option (list bool)) (g : RNG),
  rng_ok g -> hues_ok cs ->
  hues_ok (fst (fst (fst (ra_loop dV minV Vrange nsteps i cs vs ss sw g))))
  /\ draws (snd (fst (ra_loop dV minV Vrange nsteps i cs vs ss sw g))) = draws g.
Proof.
  induction cs as [| c cs IH]; intros i vs ss sw g Hg Hcs.
  - cbn [ra_loop]. now split.
  - destruct vs as [| v vs]; [now split |].
    destruct ss as [| s ss]; [now split |].
    inversion Hcs as [| c' cs' Hc Hcs' Heq]; subst.
    cbn [ra_loop].
    assert (Hcont : forall c1 sw1 g1,
      hue_ok (H c1) -> rng_ok g1 -> draws g1 = draws g ->
      hues_ok (fst (fst (fst
        (let '(r, sw'', g'', x) :=
           ra_loop dV minV Vrange nsteps (Datatypes.S i) cs vs ss sw1 g1 in
         (setV c1 (wave minV Vrange (v + dV * INR nsteps * s)) :: r, sw'', g'', x)))))
      /\ draws (snd (fst
        (let '(r, sw'', g'', x) :=
           ra_loop dV minV Vrange nsteps (Datatypes.S i) cs vs ss sw1 g1 in
         (setV c1 (wave minV Vrange (v + dV * INR nsteps * s)) :: r, sw'', g'', x))))
         = draws g).
    { intros c1 sw1 g1 Hc1 Hg1 Hd.
      destruct (IH (Datatypes.S i) vs ss sw1 g1 Hg1 Hcs') as [Hr Hd'].
      destruct (ra_loop _ _ _ _ _ cs vs ss sw1 g1) as [[[r sw''] g''] x].
      cbn [fst snd] in *. split; [constructor; assumption | congruence]. }
    destruct (Rgt_dec _ _).
    + destruct (ra_latch sw i) as [[|] | x].
      * now apply Hcont.
      * unfold random. apply Hcont; [apply Hg | exact Hg | reflexivity].
      * now split.
    + destruct (Rlt_dec _ _).
      * destruct (ra_latch sw i) as [[|] | x]; [now apply Hcont .. | now split].
      * now apply Hcont.
Qed.

Lemma ChristmasEffectRA_step_ok (e : ChristmasEffectRA) (cs : list HSVColour) (g : RNG) :
  rng_ok g -> hues_ok cs ->
  hues_ok (snd (fst (fst (ChristmasEffectRA_step e cs g))))
  /\ draws (snd (ChristmasEffectRA_step e cs g)) = draws g.
Proof.
  intros Hg Hcs. unfold ChristmasEffectRA_step.
  pose proof (ra_first_draws e cs g) as Hd1.
  destruct (ra_first e cs g) as [e1 g1]. cbn [snd] in Hd1.
  destruct (ra_Vinit e1) as [vs |]; [| now split].
  destruct (ra_stepsize e1) as [ss |]; [| now split].
  destruct (ra_loop_ok (ra_dV e1) (ra_minV e1) (ra_Vrange e1)
              (Datatypes.S (ra_nsteps e1)) cs 0 vs ss (ra_switched e1) g1)
    as [Hcs' Hd']; [now apply (rng_ok_same_draws g) | exact Hcs |].
  destruct (ra_loop _ _ _ _ _ _ _ _ _ _) as [[[cs' sw'] g2] x].
  cbn [fst snd] in *. split; [exact Hcs' | congruence].
Qed.

Lemma spread_chain_hues_ok (distance : R) (rest : list HSVColour) :
  forall prev, hues_ok (spread_chain distance prev rest).
Proof.
  induction rest as [| c r IH]; intros prev; cbn [spread_chain]; constructor.
  - apply hue_ok_pymod.
  - apply IH.
Qed.

Lemma generateSpreadColours_hues_ok (k : nat) (d : R) :
  hues_ok (generateSpreadColours k d).
Proof.
  unfold generateSpreadColours, hues_ok. apply Forall_map.
  apply Forall_forall. intros x _. apply hue_ok_pymod.
Qed.

Lemma SpreadResetEffect_step_hues_ok (devices : option nat) (cs : list HSVColour) :
  hues_ok cs -> hues_ok (fst (SpreadResetEffect_step devices cs)).
Proof.
  intros Hcs. unfold SpreadResetEffect_step.
  destruct cs as [| c0 rest]; [exact Hcs |].
  destruct devices as [k |]; [| exact Hcs].
  pose proof (generateSpreadColours_hues_ok k (1 / INR (length (c0 :: rest)))) as Hrcs.
  destruct (generateSpreadColours k _) as [| rc0 rcs]; [exact Hcs |].
  cbn [fst]. constructor.
  - inversion Hrcs; subst. assumption.
  - apply spread_chain_hues_ok.
Qed.

(** Induction over the effect hierarchy, with the sub-effects of a
    combination as induction hypotheses. *)
Lemma Effect_induction (P : Effect -> Prop) :
  P BaseEffect ->
  (forall e, P (HSVCycle e)) ->
  (forall effects, Forall P effects -> P (CombinedEffects effects)) ->
  P RandomEffect ->
  (forall e, P (Christmas e)) ->
  (forall e, P (ChristmasR e)) ->
  (forall e, P (ChristmasRA e)) ->
  P SpreadResetEffect ->
  forall eff, P eff.
Proof.
  intros Hbase Hcycle Hcomb Hrand Hxmas HxmasR HxmasRA Hspread.
  fix IH 1.
  intros [| e | effects | | e | e | e |];
    [exact Hbase | apply Hcycle | | exact Hrand | apply Hxmas | apply HxmasR
    | apply HxmasRA | exact Hspread].
  apply Hcomb. induction effects as [| f l IHl]; constructor; [apply IH | exact IHl].
Qed.

Lemma step_each_invariant (effects : list Effect) :
  Forall (fun f => forall w, step_invariant f w ->
            step_invariant (fst (fst (step f w))) (snd (fst (step f w)))) effects ->
  forall w,
    fold_right (fun f P => palettes_ok f /\ P) True effects ->
    rng_ok (rng_of w) -> hues_ok (colours_of w) ->
    fold_right (fun f P => palettes_ok f /\ P) True (fst (fst (step_each step effects w)))
    /\ rng_ok (rng_of (snd (fst (step_each step effects w))))
    /\ hues_ok (colours_of (snd (fst (step_each step effects w)))).
Proof.
  induction 1 as [| f l Hf _ IHl]; intros w Hpal Hrng Hcs; cbn [step_each].
  - auto.
  - cbn [fold_right] in Hpal. destruct Hpal as [Hpf Hpl].
    destruct (Hf w) as (Hpf' & Hrng' & Hcs');
      [split; [exact Hpf | split; [exact Hrng | exact Hcs]] |].
    destruct (step f w) as [[f' w'] [x |]]; cbn [fst snd] in *.
    + cbn [fold_right]. auto.
    + destruct (IHl w' Hpl Hrng' Hcs') as (Hpl' & Hrng'' & Hcs'').
      destruct (step_each step l w') as [[l'' w''] x]. cbn [fst snd fold_right] in *.
      auto.
Qed.

Lemma step_keeps_invariant (eff : Effect) :
  forall w, step_invariant eff w ->
    step_invariant (fst (fst (step eff w))) (snd (fst (step eff w))).
Proof.
  induction eff as [| e | effects IH | | e | e | e |] using Effect_induction;
    intros w (Hpal & Hrng & Hcs); unfold step_invariant; cbn [step].
  - auto.
  - pose proof (HSVCycleEffect_step_hues_ok e (colours_of w) Hcs) as Hcs'.
    destruct (HSVCycleEffect_step e (colours_of w)) as [[e' cs'] x].
    cbn [fst snd palettes_ok rng_of colours_of] in *. auto.
  - cbn [palettes_ok] in Hpal.
    destruct (step_each_invariant effects IH w Hpal Hrng Hcs) as (Hp & Hr & Hc).
    destruct (step_each step effects w) as [[effects' w'] x].
    cbn [fst snd palettes_ok] in *. auto.
  - destruct (RandomEffect_step_ok (colours_of w) (rng_of w) Hrng) as [Hcs' Hd].
    destruct (RandomEffect_step (colours_of w) (rng_of w)) as [cs' g'].
    cbn [fst snd palettes_ok rng_of colours_of] in *.
    split; [exact I |]. split; [now apply (rng_ok_same_draws (rng_of w)) | exact Hcs'].
  - cbn [palettes_ok] in Hpal.
    destruct (ChristmasEffect_step_hues_ok e (colours_of w) Hpal Hcs) as [Hcs' Hh].
    destruct (ChristmasEffect_step e (colours_of w)) as [[e' cs'] x].
    cbn [fst snd palettes_ok rng_of colours_of] in *.
    split; [now rewrite Hh |]. auto.
  - destruct (ChristmasEffectR_step_ok e (colours_of w) (rng_of w) Hcs) as [Hcs' Hd].
    destruct (ChristmasEffectR_step e (colours_of w) (rng_of w)) as [[[e' cs'] x] g'].
    cbn [fst snd palettes_ok rng_of colours_of] in *.
    split; [exact I |]. split; [now apply (rng_ok_same_draws (rng_of w)) | exact Hcs'].
  - destruct (ChristmasEffectRA_step_ok e (colours_of w) (rng_of w) Hrng Hcs)
      as [Hcs' Hd].
    destruct (ChristmasEffectRA_step e (colours_of w) (rng_of w)) as [[[e' cs'] x] g'].
    cbn [fst snd palettes_ok rng_of colours_of] in *.
    split; [exact I |]. split; [now apply (rng_ok_same_draws (rng_of w)) | exact Hcs'].
  - pose proof (SpreadResetEffect_step_hues_ok (devices_of w) (colours_of w) Hcs) as Hcs'.
    destruct (SpreadResetEffect_step (devices_of w) (colours_of w)) as [cs' x].
    cbn [fst snd palettes_ok rng_of colours_of] in *. auto.
Qed.

(** * Further properties of the code *)

(** ** HSV to RGB conversion on the documented domain *)

Lemma pymod_2_range (x : R) : 0 <= pymod x 2 < 2.
Proof.
  unfold pymod. pose proof (Int_part_bounds (x / 2)) as Hb.
  replace x with (2 * (x / 2)) at 1 3 by field. lra.
Qed.

Lemma Int_part_mono (x y : R) : x <= y -> (Int_part x <= Int_part y)%Z.
Proof.
  intros Hxy. pose proof (Int_part_bounds x) as Hx.
  pose proof (Int_part_bounds y) as Hy.
  assert (Hlt : IZR (Int_part x) < IZR (Int_part y + 1)) by (rewrite plus_IZR; lra).
  apply lt_IZR in Hlt. lia.
Qed.

(** The intermediate value X lies between 0 and the chroma. *)
Lemma secondary_range (C Hp : R) :
  0 <= C -> 0 <= C * (1 - Rabs (pymod Hp 2 - 1)) <= C.
Proof.
  intros HC. pose proof (pymod_2_range Hp) as Hm.
  assert (Ha : 0 <= Rabs (pymod Hp 2 - 1) <= 1).
  { split; [apply Rabs_pos |]. apply Rabs_le. lra. }
  split; nra.
Qed.

(** Below 6 the sector selection yields one of the six arrangements of the
    chroma, the intermediate value and 0. *)
Lemma sector_arrangements (C X Hp : R) :
  Hp < 6 ->
  In (sector C X Hp)
     [Some (C, X, 0); Some (X, C, 0); Some (0, C, X);
      Some (0, X, C); Some (X, 0, C); Some (C, 0, X)].
Proof.
  intros Hlt. unfold sector. cbn [In].
  repeat (destruct (Rlt_dec _ _); [tauto |]). contradiction.
Qed.

(** The channel computed from a component between 0 and the chroma. *)
Lemma channel_of_component (v C a : R) :
  0 <= C <= v -> v <= 1 -> 0 <= a <= C ->
  py_int (255 * (a + (v - C))) = Int_part (255 * (a + (v - C)))
  /\ (Int_part (255 * (v - C)) <= Int_part (255 * (a + (v - C)))
      <= Int_part (255 * v))%Z
  /\ (0 <= Int_part (255 * (a + (v - C))) <= 255)%Z.
Proof.
  intros HC Hv Ha.
  split; [apply py_int_nonneg; nra |].
  split; [split; apply Int_part_mono; nra |].
  apply channel_range. lra.
Qed.

Lemma chroma_range (s v : R) : in_unit s -> in_unit v -> 0 <= v * s <= v.
Proof. unfold in_unit. intros Hs Hv. split; nra. Qed.

(** X1: on the documented domain (H in [0, 1), S and V in [0, 1]) the
    conversion returns a colour, its three channels lie in 0..255 and its
    alpha is 255. *)
Theorem conversion_in_range (c : HSVColour) :
  hue_ok (H c) -> in_unit (S c) -> in_unit (V c) ->
  exists col,
    getRGBAColour c = Ok col
    /\ (0 <= red col <= 255)%Z /\ (0 <= green col <= 255)%Z
    /\ (0 <= blue col <= 255)%Z /\ alpha col = 255%Z.
Proof.
  intros Hh Hs Hv. unfold getRGBAColour.
  pose proof (chroma_range _ _ Hs Hv) as HC.
  pose proof (secondary_range (V c * S c) (H c * 6) (proj1 HC)) as HX.
  assert (H0 : 0 <= 0 <= V c * S c) by lra.
  assert (HCC : 0 <= V c * S c <= V c * S c) by lra.
  assert (Hv1 : V c <= 1) by apply Hv.
  pose proof (channel_of_component _ _ _ HC Hv1 HCC) as (EC & _ & RC).
  pose proof (channel_of_component _ _ _ HC Hv1 HX) as (EX & _ & RX).
  pose proof (channel_of_component _ _ _ HC Hv1 H0) as (E0 & _ & R0).
  assert (Hlt : H c * 6 < 6) by (unfold hue_ok in Hh; lra).
  pose proof (sector_arrangements (V c * S c)
                (V c * S c * (1 - Rabs (pymod (H c * 6) 2 - 1))) (H c * 6) Hlt) as Hin.
  cbn [In] in Hin.
  destruct Hin as [<- | [<- | [<- | [<- | [<- | [<- | []]]]]]];
    eexists; (split; [reflexivity |]); cbn [red green blue alpha Colour3];
    rewrite ?EC, ?EX, ?E0; auto.
Qed.

Lemma conversion_in_range_witness :
  exists col,
    getRGBAColour (mkHSV (6 / 10) (99 / 100) (7 / 10)) = Ok col
    /\ (0 <= red col <= 255)%Z /\ (0 <= green col <= 255)%Z
    /\ (0 <= blue col <= 255)%Z /\ alpha col = 255%Z.
Proof.
  apply conversion_in_range; cbn [H S V]; unfold hue_ok, in_unit; lra.
Defined.

(** ** The hue-spreading generator at an even distance *)

(** Two of the first [k] multiples of 1/k that agree modulo 1 are the same. *)
Lemma even_steps_distinct (a : R) (k i j : nat) :
  (i < k)%nat -> (j < k)%nat ->
  pymod (a + 1 / INR k * INR i) 1 = pymod (a + 1 / INR k * INR j) 1 ->
  i = j.
Proof.
  intros Hi Hj Heq. rewrite !pymod_1 in Heq.
  set (zi := Int_part (a + 1 / INR k * INR i)) in *.
  set (zj := Int_part (a + 1 / INR k * INR j)) in *.
  assert (Hk : 0 < INR k) by (apply lt_0_INR; lia).
  assert (Hmul : INR i - INR j = INR k * (IZR zi - IZR zj)).
  { assert (Hd : 1 / INR k * INR i - 1 / INR k * INR j = IZR zi - IZR zj) by lra.
    rewrite <- Hd. field. lra. }
  rewrite !INR_IZR_INZ, <- !minus_IZR, <- mult_IZR in Hmul.
  apply eq_IZR in Hmul.
  assert (Hz : (zi - zj = 0)%Z).
  { destruct (Z.eq_dec (zi - zj) 0) as [Hz | Hnz]; [exact Hz | exfalso].
    assert (Hcases : (1 <= zi - zj \/ zi - zj <= -1)%Z) by lia.
    destruct Hcases; nia. }
  rewrite Hz in Hmul. lia.
Qed.

(** X3: the colours generated for [k] devices at the even distance 1/k, as
    the main block asks for them, have pairwise distinct hues. *)
Theorem even_spread_hues_distinct (k : nat) :
  (1 <= k)%nat ->
  NoDup (map H (generateSpreadColours k (1 / INR k))).
Proof.
  intros Hk. unfold generateSpreadColours.
  assert (Hpos : 0 < 1 / INR k).
  { apply Rdiv_lt_0_compat; [lra | apply lt_0_INR; lia]. }
  destruct (Req_dec_T (1 / INR k) (-1)) as [Heq | _]; [lra |].
  rewrite map_map. cbn [H].
  apply NoDup_map_NoDup_ForallPairs; [| apply seq_NoDup].
  intros i j Hi Hj Heq. apply in_seq in Hi, Hj.
  apply (even_steps_distinct (6 / 10) k i j); [lia | lia | exact Heq].
Qed.

Lemma even_spread_hues_distinct_witness :
  NoDup (map H (generateSpreadColours 3 (1 / INR 3))).
Proof.
  apply even_spread_hues_distinct. lia.
Defined.

(** ** HSVCycleEffect: the course of a run *)

Lemma cycle_first (e0 : HSVCycleEffect) (cs : list HSVColour) :
  hc_nsteps e0 = 0%nat ->
  Forall (fun c => in_asin_domain (S c) /\ in_asin_domain (V c)) cs ->
  HSVCycleEffect_step e0 cs = (cycle_at e0 1 cs, map (cycled e0 1) cs, None).
Proof.
  intros Hn Hdom.
  assert (HS : Forall (fun c => in_asin_domain (S c)) cs)
    by (eapply Forall_impl; [| exact Hdom]; now intros c [? ?]).
  assert (HV : Forall (fun c => in_asin_domain (V c)) cs)
    by (eapply Forall_impl; [| exact Hdom]; now intros c [? ?]).
  unfold HSVCycleEffect_step, hc_first. rewrite Hn. cbn [Nat.eqb].
  rewrite (asin_all_ok S cs HS), (asin_all_ok V cs HV).
  unfold hc_tick, hc_set_Vinit, hc_set_Sinit, cycle_at.
  cbn [hc_Sinit hc_Vinit hc_dH hc_dS hc_dV
       hc_nsteps hc_minS hc_maxS hc_Srange hc_minV hc_maxV hc_Vrange].
  rewrite hc_loop_self, Hn. do 2 f_equal.
  apply map_ext. intros c. unfold hc_update, cycled.
  cbn [hc_dH hc_dS hc_dV hc_nsteps hc_minS hc_Srange hc_minV hc_Vrange INR].
  now rewrite Rmult_1_l.
Qed.

(** X6: a step of HSVCycleEffect that raises has changed no colour; and
    when it raised a ValueError, which only the first step of a run can do,
    the counter is still 0, so that the next call starts the run again. *)
Theorem cycle_failed_step (e : HSVCycleEffect) (cs : list HSVColour) (x : exn) :
  snd (HSVCycleEffect_step e cs) = Some x ->
  snd (fst (HSVCycleEffect_step e cs)) = cs
  /\ (x = ValueError ->
      hc_nsteps e = 0%nat
      /\ hc_nsteps (fst (fst (HSVCycleEffect_step e cs))) = 0%nat).
Proof.
  unfold HSVCycleEffect_step, hc_first.
  destruct (Nat.eqb_spec (hc_nsteps e) 0) as [Hz | Hnz].
  - destruct (asin_all_cases S cs) as [[ss ->] | ->].
    + destruct (asin_all_cases V cs) as [[vs ->] | ->].
      * cbn [hc_tick hc_set_Vinit hc_set_Sinit hc_Sinit hc_Vinit fst snd].
        discriminate.
      * cbn [fst snd hc_set_Sinit hc_nsteps]. intros _. auto.
    + cbn [fst snd]. intros _. auto.
  - destruct (hc_Sinit (hc_tick e)); [destruct (hc_Vinit (hc_tick e)) |];
      cbn [fst snd]; try discriminate;
      intros [= <-]; (split; [reflexivity | discriminate]).
Qed.

Lemma cycle_failed_step_witness :
  snd (fst (HSVCycleEffect_step still_cycle [dark; mkHSV 0 2 0]))
  = [dark; mkHSV 0 2 0]
  /\ hc_nsteps (fst (fst (HSVCycleEffect_step still_cycle [dark; mkHSV 0 2 0])))
     = 0%nat.
Proof.
  assert (Hraise : snd (HSVCycleEffect_step still_cycle [dark; mkHSV 0 2 0])
                   = Some ValueError).
  { unfold HSVCycleEffect_step, hc_first, still_cycle, HSVCycleEffect_init.
    cbn [hc_nsteps Nat.eqb].
    rewrite (asin_all_raises S); [reflexivity |].
    apply Exists_cons_tl, Exists_cons_hd. cbn [S]. lra. }
  destruct (cycle_failed_step _ _ _ Hraise) as [Hsame Hcount].
  split; [exact Hsame | apply Hcount; reflexivity].
Defined.

(** ** RandomEffect *)

(** X7: a step of RandomEffect gives the i-th colour the i-th next draw of
    the random source as its hue, reads exactly one draw per colour, and
    changes neither S nor V nor the number of colours. *)
Theorem RandomEffect_step_spec (cs : list HSVColour) (g : RNG) :
  map H (fst (RandomEffect_step cs g))
  = map (fun i => draws g (pos g + i)%nat) (seq 0 (length cs))
  /\ map S (fst (RandomEffect_step cs g)) = map S cs
  /\ map V (fst (RandomEffect_step cs g)) = map V cs
  /\ pos (snd (RandomEffect_step cs g)) = (pos g + length cs)%nat
  /\ draws (snd (RandomEffect_step cs g)) = draws g.
Proof.
  revert g. induction cs as [| c cs IH]; intros g; cbn [RandomEffect_step].
  - cbn. rewrite Nat.add_0_r. auto.
  - unfold random.
    destruct (IH (mkRNG (draws g) (Datatypes.S (pos g)))) as (HH & HS & HV & Hp & Hd).
    destruct (RandomEffect_step cs _) as [cs' g2].
    cbn [fst snd map length seq setH H S V draws pos] in *.
    rewrite HH, HS, HV, Hp, Hd, Nat.add_0_r, <- seq_shift, map_map.
    repeat split; try reflexivity.
    + f_equal. apply map_ext. intros i. f_equal. lia.
    + lia.
Qed.

(** ** ChristmasEffectR *)

Lemma spread_from_spec (h dist : R) (cs : list HSVColour) :
  forall i,
    map H (spread_from h dist i cs)
    = map (fun k => pymod (h + dist * INR k) 1) (seq i (length cs))
    /\ map S (spread_from h dist i cs) = map S cs
    /\ map V (spread_from h dist i cs) = map V cs
    /\ length (spread_from h dist i cs) = length cs.
Proof.
  induction cs as [| c cs IH]; intros i; cbn [spread_from map length seq].
  - auto.
  - destruct (IH (Datatypes.S i)) as (HH & HS & HV & HL).
    cbn [setH H S V]. now rewrite HH, HS, HV, HL.
Qed.

(** On colours that are there, [setrandomhues] reads one draw and spreads
    the hues from it. *)
Lemma setrandomhues_nonempty (cs : list HSVColour) (g : RNG) :
  cs <> [] ->
  exists cs',
    setrandomhues cs g = (cs', mkRNG (draws g) (Datatypes.S (pos g)), None)
    /\ map H cs'
       = map (fun k => pymod (draws g (pos g) + 1 / INR (length cs) * INR k) 1)
           (seq 0 (length cs))
    /\ map S cs' = map S cs /\ map V cs' = map V cs
    /\ length cs' = length cs.
Proof.
  intros Hne. unfold setrandomhues. destruct cs as [| c cs]; [contradiction |].
  cbn [random].
  eexists. split; [reflexivity |].
  apply (spread_from_spec (draws g (pos g)) (1 / INR (length (c :: cs))) (c :: cs) 0).
Qed.

(** X8: [setrandomhues] on an empty colour sequence raises
    ZeroDivisionError without reading the random source; on a non-empty one
    it reads one draw, leaves S and V alone and gives the colours pairwise
    distinct hues, the i-th being (draw + i / len) mod 1. *)
Theorem setrandomhues_spec (cs : list HSVColour) (g : RNG) :
  (cs = [] -> setrandomhues cs g = ([], g, Some ZeroDivisionError))
  /\ (cs <> [] ->
      snd (setrandomhues cs g) = None
      /\ snd (fst (setrandomhues cs g)) = mkRNG (draws g) (Datatypes.S (pos g))
      /\ map H (fst (fst (setrandomhues cs g)))
         = map (fun k => pymod (draws g (pos g) + 1 / INR (length cs) * INR k) 1)
             (seq 0 (length cs))
      /\ NoDup (map H (fst (fst (setrandomhues cs g))))
      /\ map S (fst (fst (setrandomhues cs g))) = map S cs
      /\ map V (fst (fst (setrandomhues cs g))) = map V cs).
Proof.
  split.
  - intros ->. reflexivity.
  - intros Hne.
    destruct (setrandomhues_nonempty cs g Hne) as (cs' & -> & HH & HS & HV & HL).
    cbn [fst snd]. rewrite HH.
    repeat split; try assumption.
    apply NoDup_map_NoDup_ForallPairs; [| apply seq_NoDup].
    intros i j Hi Hj Heq. apply in_seq in Hi, Hj.
    apply (even_steps_distinct (draws g (pos g)) (length cs) i j);
      [lia | lia | exact Heq].
Qed.

Lemma setrandomhues_spec_witness :
  setrandomhues [] (mkRNG (fun _ => 1 / 2) 0)
  = ([], mkRNG (fun _ => 1 / 2) 0, Some ZeroDivisionError)
  /\ NoDup (map H (fst (fst (setrandomhues [dark; dark; dark]
                               (mkRNG (fun _ => 1 / 2) 0))))).
Proof.
  split.
  - apply (proj1 (setrandomhues_spec [] (mkRNG (fun _ => 1 / 2) 0))). reflexivity.
  - apply (proj2 (setrandomhues_spec [dark; dark; dark] (mkRNG (fun _ => 1 / 2) 0))).
    discriminate.
Defined.

Lemma map_V_setV (v : R) (cs : list HSVColour) :
  Forall (fun c => V c = v) (map (fun c => setV c v) cs)
  /\ map S (map (fun c => setV c v) cs) = map S cs
  /\ map H (map (fun c => setV c v) cs) = map H cs.
Proof.
  split; [| split].
  - apply Forall_map. apply Forall_forall. reflexivity.
  - rewrite map_map. reflexivity.
  - rewrite map_map. reflexivity.
Qed.

(** What a step of ChristmasEffectR does on colours that are there. *)
Lemma ChristmasEffectR_step_facts (e : ChristmasEffectR) (cs : list HSVColour)
    (g : RNG) :
  cs <> [] -> 0 <= cr_Vrange e ->
  snd (fst (ChristmasEffectR_step e cs g)) = None
  /\ cr_nsteps (fst (fst (fst (ChristmasEffectR_step e cs g))))
     = Datatypes.S (cr_nsteps e)
  /\ Forall (fun c => V c = cr_V (fst (fst (fst (ChristmasEffectR_step e cs g)))))
       (snd (fst (fst (ChristmasEffectR_step e cs g))))
  /\ cr_minV e <= cr_V (fst (fst (fst (ChristmasEffectR_step e cs g))))
     <= cr_minV e + cr_Vrange e
  /\ map S (snd (fst (fst (ChristmasEffectR_step e cs g)))) = map S cs
  /\ length (snd (fst (fst (ChristmasEffectR_step e cs g)))) = length cs.
Proof.
  intros Hne Hr. unfold ChristmasEffectR_step.
  assert (Hfirst : exists cs1 g1,
    (if Nat.eqb (cr_nsteps e) 0
     then setrandomhues (map (fun c => setV c (cr_Vinit e)) cs) g
     else (cs, g, None)) = (cs1, g1, None)
    /\ map S cs1 = map S cs /\ length cs1 = length cs).
  { destruct (Nat.eqb (cr_nsteps e) 0); [| now exists cs, g].
    destruct (setrandomhues_nonempty (map (fun c => setV c (cr_Vinit e)) cs) g)
      as (cs1 & Heq & _ & HS & _ & HL).
    - destruct cs; [contradiction | discriminate].
    - eexists. eexists. split; [exact Heq |].
      rewrite HS, HL, map_map, length_map. auto. }
  destruct Hfirst as (cs1 & g1 & -> & HS1 & HL1).
  assert (Hne1 : cs1 <> []) by (destruct cs1, cs; try discriminate; congruence).
  pose proof (wave_bounds (cr_minV e) (cr_Vrange e)
                (cr_Vinit e + cr_dV e * INR (Datatypes.S (cr_nsteps e))) Hr) as Hw.
  set (newV := wave (cr_minV e) (cr_Vrange e)
                 (cr_Vinit e + cr_dV e * INR (Datatypes.S (cr_nsteps e)))) in *.
  destruct (latch_decide newV (cr_V e) (cr_switched e)).
  - destruct (setrandomhues_nonempty cs1 g1 Hne1) as (cs2 & -> & _ & HS2 & _ & HL2).
    cbn [fst snd cr_nsteps cr_V].
    destruct (map_V_setV newV cs2) as (HV & HS & _).
    rewrite HS, length_map. repeat split; try assumption; try lra; congruence.
  - cbn [fst snd cr_nsteps cr_V].
    destruct (map_V_setV newV cs1) as (HV & HS & _).
    rewrite HS, length_map. repeat split; try assumption; try lra.
  - cbn [fst snd cr_nsteps cr_V].
    destruct (map_V_setV newV cs1) as (HV & HS & _).
    rewrite HS, length_map. repeat split; try assumption; try lra.
Qed.

(** X9: a step of ChristmasEffectR on a non-empty colour sequence raises
    nothing, counts one step, and leaves all colours at one common V, the
    effect's own [V], which lies within [minV, minV + Vrange] (that is
    [minV, maxV] for a constructed effect); S and the number of colours are
    unchanged. *)
Theorem ChristmasEffectR_step_spec (e : ChristmasEffectR) (cs : list HSVColour)
    (g : RNG) :
  cs <> [] -> 0 <= cr_Vrange e ->
  snd (fst (ChristmasEffectR_step e cs g)) = None
  /\ cr_nsteps (fst (fst (fst (ChristmasEffectR_step e cs g))))
     = Datatypes.S (cr_nsteps e)
  /\ Forall (fun c => V c = cr_V (fst (fst (fst (ChristmasEffectR_step e cs g)))))
       (snd (fst (fst (ChristmasEffectR_step e cs g))))
  /\ cr_minV e <= cr_V (fst (fst (fst (ChristmasEffectR_step e cs g))))
     <= cr_minV e + cr_Vrange e
  /\ map S (snd (fst (fst (ChristmasEffectR_step e cs g)))) = map S cs
  /\ length (snd (fst (fst (ChristmasEffectR_step e cs g)))) = length cs.
Proof.
  exact (ChristmasEffectR_step_facts e cs g).
Qed.

Lemma ChristmasEffectR_step_spec_witness :
  snd (fst (ChristmasEffectR_step (ChristmasEffectR_init (1 / 10) (1 / 255) (7 / 10))
              [dark; dark] (mkRNG (fun _ => 1 / 2) 0))) = None.
Proof.
  apply ChristmasEffectR_step_spec; [discriminate |].
  unfold ChristmasEffectR_init. cbn [cr_Vrange]. lra.
Defined.

(** ** ChristmasEffect: where the new V is written, and whole runs *)

(** X10: in a pass of the loop body the closing [c.V = newV] writes to the
    device being visited unless the latch fires; when it fires (palette not
    empty, an index for every colour) the new V is written to the last
    colour of the sequence, and the S and V of every other colour, the
    visited one included, are left as they were. *)
Theorem switch_writes_last_colour (e : ChristmasEffect) (j : nat) (c : HSVColour)
    (v : R) (cs : list HSVColour) (cur : list nat) :
  ce_ready e cs cur -> nth_error cs j = Some c ->
  (latch_decide (ce_newV e v) (V c) (ce_switched e) <> Fire ->
     option_map V (nth_error (snd (fst (fst (ce_body e j c v cs)))) j)
     = Some (ce_newV e v))
  /\ (latch_decide (ce_newV e v) (V c) (ce_switched e) = Fire ->
      option_map V (nth_error (snd (fst (fst (ce_body e j c v cs))))
                      (length cs - 1))
      = Some (ce_newV e v)
      /\ forall i c0, i <> (length cs - 1)%nat -> nth_error cs i = Some c0 ->
           exists c1,
             nth_error (snd (fst (fst (ce_body e j c v cs)))) i = Some c1
             /\ V c1 = V c0 /\ S c1 = S c0).
Proof.
  intros (Hne & Hcur & Hle) Hj. unfold ce_body. split.
  - intros Hd.
    destruct (latch_decide (ce_newV e v) (V c) (ce_switched e));
      [contradiction | |]; cbn [fst snd];
      rewrite upd_nth_nth_error, Nat.eqb_refl, Hj; reflexivity.
  - intros ->. rewrite Hcur.
    destruct (assign_hues_ok (ce_hues e) (idx_current (map Datatypes.S cur)) 0 cs Hne)
      as (cs1 & -> & Hall).
    { intros p Hp.
      destruct (idx_current_ok (map Datatypes.S cur) (length cs) p Hp) as (k & Hk & _).
      - now rewrite length_map.
      - now exists k. }
    cbn [fst snd]. split.
    + assert (Hlast : (length cs - 1 < length cs)%nat).
      { assert (Hsome : nth_error cs j <> None) by congruence.
        apply nth_error_Some in Hsome. lia. }
      destruct (nth_error cs (length cs - 1)) as [cl |] eqn:Hcl;
        [| apply nth_error_None in Hcl; lia].
      destruct (Hall _ _ Hcl) as (k & h & _ & _ & Hn).
      rewrite upd_nth_nth_error, Nat.eqb_refl, Hn. reflexivity.
    + intros i c0 Hi Hc0.
      destruct (Hall _ _ Hc0) as (k & h & _ & _ & Hn).
      exists (setH c0 h). rewrite upd_nth_nth_error.
      destruct (Nat.eqb_spec (length cs - 1) i) as [Heq | _]; [congruence |].
      auto.
Qed.

Lemma switch_writes_last_colour_witness :
  exists c1,
    nth_error (snd (fst (fst (ce_body
        (ce_set_current (ce_tick two_hues) [0%nat; 1%nat]) 0 dark 0
        [dark; mkHSV 0 1 1])))) 0 = Some c1
    /\ V c1 = V dark.
Proof.
  destruct (switch_writes_last_colour
              (ce_set_current (ce_tick two_hues) [0%nat; 1%nat]) 0 dark 0
              [dark; mkHSV 0 1 1] [0%nat; 1%nat]) as (_ & Hfire).
  - split; [discriminate |]. split; [reflexivity | cbn; lia].
  - reflexivity.
  - destruct Hfire as (_ & Hrest).
    + apply latch_decide_fire.
      pose proof (wave_bounds (1 / 255) (7 / 10 - 1 / 255) (0 + 1 / 10 * INR 1)) as Hb.
      unfold ce_newV, dark. cbn [ce_minV ce_Vrange ce_dV ce_nsteps ce_set_current
        ce_tick two_hues ChristmasEffect_init V]. lra.
    + destruct (Hrest 0%nat dark) as (c1 & Hc1 & HV & _);
        [cbn; lia | reflexivity |].
      exists c1. auto.
Defined.

(** X11: a run of [n] steps (n >= 1) of a ChristmasEffect that has not
    stepped yet, with a non-empty palette, on colours with V in [-1, 1],
    raises nothing; at its end device i has palette index i plus the number
    of times the latch fired, and shows the palette entry of that index. *)
Theorem christmas_run_course (n : nat) (e : ChristmasEffect) (cs : list HSVColour) :
  ce_nsteps e = 0%nat -> ce_hues e <> [] ->
  Forall (fun c => in_asin_domain (V c)) cs ->
  exists e' cs' log,
    ChristmasEffect_run (Datatypes.S n) e cs = ((e', cs', None), log)
    /\ length cs' = length cs
    /\ ce_current e' = Some (map (Nat.add (fires log)) (seq 0 (length cs)))
    /\ forall i c', nth_error cs' i = Some c' ->
         nth_error (ce_hues e) ((fires log + i) mod length (ce_hues e))
         = Some (H c').
Proof.
  intros Hn Hne Hdom.
  destruct (ce_run_fresh n e cs Hn Hne Hdom)
    as (e' & cs' & log & Hrun & Hh & Hlen & _ & _ & (_ & Hcur & _) & Hres).
  exists e', cs', log. split; [exact Hrun |]. split; [exact Hlen |].
  split; [exact Hcur |].
  intros i c' Hc'. rewrite Hh in Hres. apply (Hres i); [| exact Hc'].
  assert (Hi : (i < length cs)%nat).
  { rewrite <- Hlen. apply nth_error_Some. congruence. }
  rewrite nth_error_map, nth_error_seq.
  destruct (Nat.ltb_spec i (length cs)) as [_ | Hge]; [reflexivity | lia].
Qed.

Lemma christmas_run_course_witness :
  exists e' cs' log,
    ChristmasEffect_run 500 ChristmasEffect_default
      [mkHSV (6 / 10) (99 / 100) (7 / 10); mkHSV (1 / 10) (99 / 100) (7 / 10)]
    = ((e', cs', None), log)
    /\ length cs' = 2%nat.
Proof.
  destruct (christmas_run_course 499 ChristmasEffect_default
              [mkHSV (6 / 10) (99 / 100) (7 / 10); mkHSV (1 / 10) (99 / 100) (7 / 10)])
    as (e' & cs' & log & Hrun & Hlen & _).
  - reflexivity.
  - discriminate.
  - repeat (constructor; [unfold in_asin_domain; cbn [V]; lra |]). constructor.
  - exists e', cs', log. auto.
Defined.

(** ** ChristmasEffectRA *)

Lemma draw_list_length (f : R -> R) (n : nat) :
  forall g, length (fst (draw_list f n g)) = n.
Proof.
  induction n as [| n IH]; intros g; cbn [draw_list]; [reflexivity |].
  unfold random. specialize (IH (mkRNG (draws g) (Datatypes.S (pos g)))).
  destruct (draw_list f n _) as [l g2]. cbn [fst length] in *. now rewrite IH.
Qed.

Lemma ra_loop_total (dV minV Vrange : R) (nsteps : nat) (cs : list HSVColour) :
  forall (i : nat) (vs ss : list R) (sw : list bool) (g : RNG),
  0 <= Vrange -> length vs = length cs -> length ss = length cs ->
  (i + length cs <= length sw)%nat ->
  exists cs' sw' g',
    ra_loop dV minV Vrange nsteps i cs vs ss (Some sw) g = (cs', Some sw', g', None)
    /\ length sw' = length sw /\ length cs' = length cs
    /\ map S cs' = map S cs
    /\ Forall (fun c => minV <= V c <= minV + Vrange) cs'.
Proof.
  induction cs as [| c cs IH]; intros i vs ss sw g Hr Hvs Hss Hsw.
  - exists [], sw, g. cbn [ra_loop]. auto.
  - destruct vs as [| v vs]; [discriminate |].
    destruct ss as [| s ss]; [discriminate |].
    cbn [length] in *. cbn [ra_loop].
    pose proof (wave_bounds minV Vrange (v + dV * INR nsteps * s) Hr) as Hw.
    assert (Hcont : forall c1 sw1 g1,
      S c1 = S c -> length sw1 = length sw ->
      exists cs' sw' g',
        (let '(r, sw'', g'', x) :=
           ra_loop dV minV Vrange nsteps (Datatypes.S i) cs vs ss (Some sw1) g1 in
         (setV c1 (wave minV Vrange (v + dV * INR nsteps * s)) :: r, sw'', g'', x))
        = (cs', Some sw', g', None)
        /\ length sw' = length sw
        /\ length cs' = Datatypes.S (length cs)
        /\ map S cs' = S c :: map S cs
        /\ Forall (fun c => minV <= V c <= minV + Vrange) cs').
    { intros c1 sw1 g1 HS1 Hl1.
      destruct (IH (Datatypes.S i) vs ss sw1 g1 Hr) as (r & sw' & g' & -> & Hl & Hc & HS & HV);
        [lia | lia | lia |].
      exists (setV c1 (wave minV Vrange (v + dV * INR nsteps * s)) :: r), sw', g'.
      cbn [length map setV S V]. rewrite Hc, HS, HS1.
      repeat split; try congruence. constructor; [exact Hw | exact HV]. }
    assert (Hlatch : exists b, nth_error sw i = Some b).
    { destruct (nth_error sw i) as [b |] eqn:Hb; [now exists b |].
      apply nth_error_None in Hb. lia. }
    destruct Hlatch as [b Hb]. cbn [ra_latch]. rewrite Hb.
    destruct (Rgt_dec _ _).
    + destruct b.
      * now apply Hcont.
      * unfold random. cbn [option_map].
        apply Hcont; [reflexivity | apply upd_nth_length].
    + destruct (Rlt_dec _ _).
      * destruct b.
        -- cbn [option_map]. apply Hcont; [reflexivity | apply upd_nth_length].
        -- now apply Hcont.
      * now apply Hcont.
Qed.

(** What a step of ChristmasEffectRA does from a state that fits the colours. *)
Lemma ChristmasEffectRA_step_facts (e : ChristmasEffectRA) (cs : list HSVColour)
    (g : RNG) :
  0 <= ra_Vrange e ->
  ra_nsteps e = 0%nat \/ (ra_nsteps e <> 0%nat /\ ra_covers e (length cs)) ->
  snd (fst (ChristmasEffectRA_step e cs g)) = None
  /\ ra_nsteps (fst (fst (fst (ChristmasEffectRA_step e cs g))))
     = Datatypes.S (ra_nsteps e)
  /\ ra_covers (fst (fst (fst (ChristmasEffectRA_step e cs g)))) (length cs)
  /\ length (snd (fst (fst (ChristmasEffectRA_step e cs g)))) = length cs
  /\ map S (snd (fst (fst (ChristmasEffectRA_step e cs g)))) = map S cs
  /\ Forall (fun c => ra_minV e <= V c <= ra_minV e + ra_Vrange e)
       (snd (fst (fst (ChristmasEffectRA_step e cs g)))).
Proof.
  intros Hr Hstate. unfold ChristmasEffectRA_step.
  assert (Hfirst : exists e1 g1,
    ra_first e cs g = (e1, g1) /\ ra_covers e1 (length cs)
    /\ ra_nsteps e1 = ra_nsteps e /\ ra_dV e1 = ra_dV e /\ ra_minV e1 = ra_minV e
    /\ ra_Vrange e1 = ra_Vrange e).
  { unfold ra_first. destruct Hstate as [Hz | [Hnz Hcov]].
    - rewrite Hz. cbn [Nat.eqb].
      pose proof (draw_list_length
                    (fun r => ra_minV e + r * (ra_maxV e - ra_minV e)) (length cs) g) as Hl1.
      destruct (draw_list _ (length cs) g) as [vinit g1].
      pose proof (draw_list_length (genstepsize (ra_stepamp e)) (length cs) g1) as Hl2.
      destruct (draw_list _ (length cs) g1) as [sizes g2].
      cbn [fst] in *. eexists. eexists. split; [reflexivity |].
      split; [| cbn [ra_nsteps ra_dV ra_minV ra_Vrange]; repeat split].
      exists vinit, sizes, (repeat false (length cs)).
      cbn [ra_Vinit ra_stepsize ra_switched]. rewrite repeat_length.
      repeat split; assumption.
    - destruct (Nat.eqb_spec (ra_nsteps e) 0) as [Hz | _]; [contradiction |].
      exists e, g. repeat split; assumption. }
  destruct Hfirst as (e1 & g1 & -> & (vs & ss & sw & HV & HSs & HSw & Lv & Ls & Lw)
                      & Hn1 & HdV & Hmin & Hrange).
  rewrite HV, HSs, HSw.
  destruct (ra_loop_total (ra_dV e1) (ra_minV e1) (ra_Vrange e1)
              (Datatypes.S (ra_nsteps e1)) cs 0 vs ss sw g1)
    as (cs' & sw' & g' & -> & Hlw & Hlc & HS & HVb);
    try lia; try (rewrite Hrange; exact Hr).
  cbn [fst snd ra_set ra_nsteps].
  split; [reflexivity |]. split; [now rewrite Hn1 |].
  split.
  { exists vs, ss, sw'. cbn [ra_Vinit ra_stepsize ra_switched].
    repeat split; try assumption; congruence. }
  split; [exact Hlc |]. split; [exact HS |].
  now rewrite <- Hmin, <- Hrange.
Qed.

(** X12: a step of ChristmasEffectRA, taken either as the first of a run
    or from a state whose per-device lists have the length of the colour
    sequence, raises nothing, leaves every colour's V within
    [minV, minV + Vrange] and its S unchanged, and keeps per-device lists of
    that length. *)
Theorem ChristmasEffectRA_step_spec (e : ChristmasEffectRA) (cs : list HSVColour)
    (g : RNG) :
  0 <= ra_Vrange e ->
  ra_nsteps e = 0%nat \/ (ra_nsteps e <> 0%nat /\ ra_covers e (length cs)) ->
  snd (fst (ChristmasEffectRA_step e cs g)) = None
  /\ ra_nsteps (fst (fst (fst (ChristmasEffectRA_step e cs g))))
     = Datatypes.S (ra_nsteps e)
  /\ ra_covers (fst (fst (fst (ChristmasEffectRA_step e cs g)))) (length cs)
  /\ length (snd (fst (fst (ChristmasEffectRA_step e cs g)))) = length cs
  /\ map S (snd (fst (fst (ChristmasEffectRA_step e cs g)))) = map S cs
  /\ Forall (fun c => ra_minV e <= V c <= ra_minV e + ra_Vrange e)
       (snd (fst (fst (ChristmasEffectRA_step e cs g)))).
Proof.
  exact (ChristmasEffectRA_step_facts e cs g).
Qed.

Lemma ChristmasEffectRA_step_spec_witness :
  snd (fst (ChristmasEffectRA_step
              (ChristmasEffectRA_init (1 / 10) (1 / 255) (7 / 10) (3 / 10))
              [dark; dark] (mkRNG (fun _ => 1 / 2) 0))) = None.
Proof.
  apply ChristmasEffectRA_step_spec.
  - unfold ChristmasEffectRA_init. cbn [ra_Vrange]. lra.
  - left. reflexivity.
Defined.

(** ** CombinedEffects *)

Lemma step_each_app (l1 l2 : list Effect) :
  forall w,
    step_each step (l1 ++ l2) w
    = match step_each step l1 w with
      | (l1', w', Some x) => (l1' ++ l2, w', Some x)
      | (l1', w', None) =>
          match step_each step l2 w' with
          | (l2', w'', x) => (l1' ++ l2', w'', x)
          end
      end.
Proof.
  induction l1 as [| f l1 IH]; intros w; cbn [app step_each].
  - destruct (step_each step l2 w) as [[l2' w''] x]. reflexivity.
  - destruct (step f w) as [[f' w'] [x |]]; [reflexivity |].
    rewrite IH.
    destruct (step_each step l1 w') as [[l1' w1] [x |]]; [reflexivity |].
    destruct (step_each step l2 w1) as [[l2' w2] x]. reflexivity.
Qed.

(** X13: combinations nest freely.  Stepping the combination of two
    effect lists put end to end leaves the same colours, random source and
    exception as stepping the combination of their two combinations, and
    the sub-effects end in the same states; in both an exception in the
    first list keeps the second list from being stepped. *)
Theorem combined_effects_flatten (l1 l2 : list Effect) (w : world) :
  snd (fst (step (CombinedEffects (l1 ++ l2)) w))
  = snd (fst (step (CombinedEffects [CombinedEffects l1; CombinedEffects l2]) w))
  /\ snd (step (CombinedEffects (l1 ++ l2)) w)
     = snd (step (CombinedEffects [CombinedEffects l1; CombinedEffects l2]) w)
  /\ (forall l1' l2',
        fst (fst (step (CombinedEffects [CombinedEffects l1; CombinedEffects l2]) w))
        = CombinedEffects [CombinedEffects l1'; CombinedEffects l2'] ->
        fst (fst (step (CombinedEffects (l1 ++ l2)) w))
        = CombinedEffects (l1' ++ l2'))
  /\ (snd (step (CombinedEffects l1) w) <> None ->
      fst (fst (step (CombinedEffects (l1 ++ l2)) w))
      = CombinedEffects (fst (fst (step_each step l1 w)) ++ l2)).
Proof.
  cbn [step step_each]. rewrite step_each_app.
  destruct (step_each step l1 w) as [[l1' w1] [x |]]; cbn [fst snd].
  - split; [reflexivity |]. split; [reflexivity |].
    split; [| reflexivity].
    intros a b Heq. injection Heq as <- <-. reflexivity.
  - destruct (step_each step l2 w1) as [[l2' w2] [x |]]; cbn [fst snd];
      (split; [reflexivity |]); (split; [reflexivity |]);
      (split; [| intros Hx; now contradiction Hx]);
      intros a b Heq; injection Heq as <- <-; reflexivity.
Qed.

(** ** reset *)

Lemma ce_body_reset (e : ChristmasEffect) (j : nat) (c : HSVColour) (v : R)
    (cs : list HSVColour) :
  ce_body (ChristmasEffect_reset e) j c v cs
  = (let '((e', cs', x), ev) := ce_body e j c v cs in
     ((ChristmasEffect_reset e', cs', x), ev)).
Proof.
  unfold ce_body, ce_newV.
  cbn [ChristmasEffect_reset ce_minV ce_Vrange ce_dV ce_nsteps ce_switched
       ce_current ce_hues].
  destruct (latch_decide _ _ _); try reflexivity.
  destruct (ce_current e) as [cur |]; [| reflexivity].
  destruct (assign_hues _ _ _ _) as [cs1 [x |]]; reflexivity.
Qed.

Lemma ce_loop_reset (vs : list R) :
  forall (e : ChristmasEffect) (j : nat) (cs : list HSVColour),
  ce_loop (ChristmasEffect_reset e) j vs cs
  = (let '((e', cs', x), log) := ce_loop e j vs cs in
     ((ChristmasEffect_reset e', cs', x), log)).
Proof.
  induction vs as [| v vs IH]; intros e j cs; cbn [ce_loop]; [reflexivity |].
  destruct (nth_error cs j) as [c |]; [| reflexivity].
  rewrite ce_body_reset.
  destruct (ce_body e j c v cs) as [[[e1 cs1] [x |]] ev]; [reflexivity |].
  rewrite IH.
  destruct (ce_loop e1 (Datatypes.S j) vs cs1) as [[[e2 cs2] x] log]. reflexivity.
Qed.

Lemma ChristmasEffect_step_reset (e : ChristmasEffect) (cs : list HSVColour) :
  ChristmasEffect_step (ChristmasEffect_reset e) cs
  = (let '(e', cs', x) := ChristmasEffect_step e cs in
     (ChristmasEffect_reset e', cs', x)).
Proof.
  unfold ChristmasEffect_step, ChristmasEffect_step_log, ce_first.
  cbn [ChristmasEffect_reset ce_nsteps ce_hues].
  destruct (Nat.eqb (ce_nsteps e) 0).
  - destruct (asin_all V cs) as [vs | x]; [| reflexivity].
    destruct (assign_hues _ _ _ _) as [cs1 [x |]]; [reflexivity |].
    pose proof (ce_loop_reset vs
                  (ce_tick (ce_set_Vinit (ce_set_current e (seq 0 (length cs))) vs))
                  0 cs1) as Hl.
    unfold ChristmasEffect_reset, ce_tick, ce_set_Vinit, ce_set_current in Hl |- *.
    cbn [ce_dV ce_minV ce_maxV ce_Vrange ce_hues ce_nsteps
         ce_switched ce_current ce_Vinit ce_steps] in Hl |- *.
    rewrite Hl.
    match goal with
    | |- context [let '(_, _) := ce_loop ?e1 0 vs cs1 in _] =>
        destruct (ce_loop e1 0 vs cs1) as [[[e2 cs2] x] log]
    end.
    reflexivity.
  - destruct (ce_Vinit e) as [vs |] eqn:Hv.
    + pose proof (ce_loop_reset vs (ce_tick e) 0 cs) as Hl.
      unfold ChristmasEffect_reset, ce_tick in Hl |- *.
      cbn [ce_dV ce_minV ce_maxV ce_Vrange ce_hues ce_nsteps
           ce_switched ce_current ce_Vinit ce_steps] in Hl |- *.
      rewrite ?Hv in Hl. rewrite ?Hv. rewrite Hl.
      match goal with
      | |- context [let '(_, _) := ce_loop ?e1 0 vs cs in _] =>
          destruct (ce_loop e1 0 vs cs) as [[[e2 cs2] x] log]
      end.
      reflexivity.
    + unfold ChristmasEffect_reset, ce_tick.
      cbn [ce_dV ce_minV ce_maxV ce_Vrange ce_hues ce_nsteps
           ce_switched ce_current ce_Vinit ce_steps].
      rewrite ?Hv. reflexivity.
Qed.

(** X14: [reset] cannot be observed by stepping.  For every effect, a step
    taken after [reset] leaves the same colours and random source and raises
    the same exception as the step taken without it, and the effect ends in
    the same state up to another [reset]; so no effect starts its run again
    after a reset, and a combination does not even pass it on. *)
Theorem reset_is_unobservable (eff : Effect) (w : world) :
  snd (fst (step (reset eff) w)) = snd (fst (step eff w))
  /\ snd (step (reset eff) w) = snd (step eff w)
  /\ fst (fst (step (reset eff) w)) = reset (fst (fst (step eff w))).
Proof.
  destruct eff as [| e | effects | | e | e | e |]; cbn [reset step].
  - auto.
  - destruct (HSVCycleEffect_step e (colours_of w)) as [[e' cs'] x]. auto.
  - destruct (step_each step effects w) as [[effects' w'] x]. auto.
  - destruct (RandomEffect_step (colours_of w) (rng_of w)) as [cs' g']. auto.
  - rewrite ChristmasEffect_step_reset.
    destruct (ChristmasEffect_step e (colours_of w)) as [[e' cs'] x]. auto.
  - destruct (ChristmasEffectR_step e (colours_of w) (rng_of w)) as [[[e' cs'] x] g'].
    auto.
  - destruct (ChristmasEffectRA_step e (colours_of w) (rng_of w)) as [[[e' cs'] x] g'].
    auto.
  - destruct (SpreadResetEffect_step (devices_of w) (colours_of w)) as [cs' x]. auto.
Qed.

(** ** The number of colours *)

Lemma HSVCycleEffect_step_length (e : HSVCycleEffect) (cs : list HSVColour) :
  length (snd (fst (HSVCycleEffect_step e cs))) = length cs.
Proof.
  unfold HSVCycleEffect_step.
  destruct (hc_first e cs) as [e1 [x |]]; [reflexivity |].
  destruct (hc_Sinit (hc_tick e1)); [| reflexivity].
  destruct (hc_Vinit (hc_tick e1)); [| reflexivity].
  apply hc_loop_length.
Qed.

Lemma ce_body_length (e : ChristmasEffect) (j : nat) (c : HSVColour) (v : R)
    (cs : list HSVColour) :
  length (snd (fst (fst (ce_body e j c v cs)))) = length cs.
Proof.
  unfold ce_body. destruct (latch_decide _ _ _); cbn [fst snd];
    try apply upd_nth_length.
  destruct (ce_current e) as [cur |]; [| reflexivity].
  pose proof (assign_hues_length (ce_hues e)
                (idx_current (map Datatypes.S cur)) 0 cs) as Hl.
  destruct (assign_hues _ _ _ _) as [cs1 [x |]]; cbn [fst snd] in *;
    [exact Hl | now rewrite upd_nth_length].
Qed.

Lemma ce_loop_length (vs : list R) :
  forall (e : ChristmasEffect) (j : nat) (cs : list HSVColour),
  length (snd (fst (fst (ce_loop e j vs cs)))) = length cs.
Proof.
  induction vs as [| v vs IH]; intros e j cs; cbn [ce_loop]; [reflexivity |].
  destruct (nth_error cs j) as [c |]; [| reflexivity].
  pose proof (ce_body_length e j c v cs) as Hb.
  destruct (ce_body e j c v cs) as [[[e1 cs1] [x |]] ev]; cbn [fst snd] in *;
    [exact Hb |].
  specialize (IH e1 (Datatypes.S j) cs1).
  destruct (ce_loop e1 (Datatypes.S j) vs cs1) as [r log].
  cbn [fst snd] in *. congruence.
Qed.

Lemma ChristmasEffect_step_length (e : ChristmasEffect) (cs : list HSVColour) :
  length (snd (fst (ChristmasEffect_step e cs))) = length cs.
Proof.
  unfold ChristmasEffect_step, ChristmasEffect_step_log.
  assert (Hfirst : length (snd (fst (ce_first e cs))) = length cs).
  { unfold ce_first. destruct (Nat.eqb (ce_nsteps e) 0); [| reflexivity].
    destruct (asin_all V cs) as [vs | x]; [| reflexivity].
    pose proof (assign_hues_length (ce_hues e) idx_enumerate 0 cs) as Hl.
    destruct (assign_hues _ _ _ _) as [cs1 x]. exact Hl. }
  destruct (ce_first e cs) as [[e1 cs1] [x |]]; cbn [fst snd] in *;
    [exact Hfirst |].
  destruct (ce_Vinit (ce_tick e1)) as [vs |]; [| exact Hfirst].
  rewrite ce_loop_length. exact Hfirst.
Qed.

Lemma RandomEffect_step_length (cs : list HSVColour) :
  forall g, length (fst (RandomEffect_step cs g)) = length cs.
Proof.
  induction cs as [| c cs IH]; intros g; cbn [RandomEffect_step]; [reflexivity |].
  unfold random. specialize (IH (mkRNG (draws g) (Datatypes.S (pos g)))).
  destruct (RandomEffect_step cs _) as [cs' g2]. cbn [fst length] in *.
  now rewrite IH.
Qed.

Lemma setrandomhues_length (cs : list HSVColour) (g : RNG) :
  length (fst (fst (setrandomhues cs g))) = length cs.
Proof.
  unfold setrandomhues. destruct cs as [| c cs]; [reflexivity |].
  cbn [random fst].
  apply (spread_from_spec (draws g (pos g)) (1 / INR (length (c :: cs))) (c :: cs) 0).
Qed.

Lemma ChristmasEffectR_step_length (e : ChristmasEffectR) (cs : list HSVColour)
    (g : RNG) :
  length (snd (fst (fst (ChristmasEffectR_step e cs g)))) = length cs.
Proof.
  unfold ChristmasEffectR_step.
  assert (Hfirst :
    length (fst (fst (if Nat.eqb (cr_nsteps e) 0
                      then setrandomhues (map (fun c => setV c (cr_Vinit e)) cs) g
                      else (cs, g, None)))) = length cs).
  { destruct (Nat.eqb (cr_nsteps e) 0); [| reflexivity].
    now rewrite setrandomhues_length, length_map. }
  destruct (if Nat.eqb (cr_nsteps e) 0 then _ else _) as [[cs1 g1] [x |]];
    cbn [fst snd] in *; [exact Hfirst |].
  destruct (latch_decide _ _ _); cbn [fst snd]; rewrite ?length_map; try exact Hfirst.
  pose proof (setrandomhues_length cs1 g1) as Hl.
  destruct (setrandomhues cs1 g1) as [[cs2 g2] [x |]]; cbn [fst snd] in *;
    rewrite ?length_map; congruence.
Qed.

Lemma ra_loop_length (dV minV Vrange : R) (nsteps : nat) (cs : list HSVColour) :
  forall (i : nat) (vs ss : list R) (sw : option (list bool)) (g : RNG),
  length (fst (fst (fst (ra_loop dV minV Vrange nsteps i cs vs ss sw g))))
  = length cs.
Proof.
  induction cs as [| c cs IH]; intros i vs ss sw g; cbn [ra_loop]; [reflexivity |].
  destruct vs as [| v vs]; [reflexivity |].
  destruct ss as [| s ss]; [reflexivity |].
  assert (Hcont : forall c1 sw1 g1,
    length (fst (fst (fst
      (let '(r, sw'', g'', x) :=
         ra_loop dV minV Vrange nsteps (Datatypes.S i) cs vs ss sw1 g1 in
       (setV c1 (wave minV Vrange (v + dV * INR nsteps * s)) :: r, sw'', g'', x)))))
    = length (c :: cs)).
  { intros c1 sw1 g1. specialize (IH (Datatypes.S i) vs ss sw1 g1).
    destruct (ra_loop _ _ _ _ _ cs vs ss sw1 g1) as [[[r sw''] g''] x].
    cbn [fst snd length] in *. now rewrite IH. }
  destruct (Rgt_dec _ _).
  - destruct (ra_latch sw i) as [[|] | x]; [apply Hcont | | reflexivity].
    unfold random. apply Hcont.
  - destruct (Rlt_dec _ _); [| apply Hcont].
    destruct (ra_latch sw i) as [[|] | x]; [apply Hcont | apply Hcont | reflexivity].
Qed.

Lemma ChristmasEffectRA_step_length (e : ChristmasEffectRA) (cs : list HSVColour)
    (g : RNG) :
  length (snd (fst (fst (ChristmasEffectRA_step e cs g)))) = length cs.
Proof.
  unfold ChristmasEffectRA_step.
  destruct (ra_first e cs g) as [e1 g1].
  destruct (ra_Vinit e1) as [vs |]; [| reflexivity].
  destruct (ra_stepsize e1) as [ss |]; [| reflexivity].
  pose proof (ra_loop_length (ra_dV e1) (ra_minV e1) (ra_Vrange e1)
                (Datatypes.S (ra_nsteps e1)) cs 0 vs ss (ra_switched e1) g1) as Hl.
  destruct (ra_loop _ _ _ _ _ _ _ _ _ _) as [[[cs' sw'] g2] x]. exact Hl.
Qed.

Lemma spread_chain_length (d : R) (rest : list HSVColour) :
  forall prev, length (spread_chain d prev rest) = length rest.
Proof.
  induction rest as [| c r IH]; intros prev; cbn [spread_chain length];
    [reflexivity | now rewrite IH].
Qed.

Lemma SpreadResetEffect_step_length (devices : option nat) (cs : list HSVColour) :
  length (fst (SpreadResetEffect_step devices cs)) = length cs.
Proof.
  unfold SpreadResetEffect_step. destruct cs as [| c0 rest]; [reflexivity |].
  destruct devices as [k |]; [| reflexivity].
  destruct (generateSpreadColours k _) as [| rc0 rcs]; [reflexivity |].
  cbn [fst length]. now rewrite spread_chain_length.
Qed.

Lemma step_each_same_shape (effects : list Effect) :
  Forall (fun f => forall w, same_shape w (snd (fst (step f w)))) effects ->
  forall w, same_shape w (snd (fst (step_each step effects w))).
Proof.
  induction 1 as [| f l Hf _ IHl]; intros w; cbn [step_each].
  - split; reflexivity.
  - specialize (Hf w).
    destruct (step f w) as [[f' w'] [x |]]; cbn [fst snd] in *; [exact Hf |].
    specialize (IHl w').
    destruct (step_each step l w') as [[l'' w''] x]. cbn [fst snd] in *.
    destruct Hf, IHl. split; congruence.
Qed.

Lemma step_same_shape (eff : Effect) :
  forall w, same_shape w (snd (fst (step eff w))).
Proof.
  induction eff as [| e | effects IH | | e | e | e |] using Effect_induction;
    intros w; unfold same_shape; cbn [step].
  - auto.
  - pose proof (HSVCycleEffect_step_length e (colours_of w)) as Hl.
    destruct (HSVCycleEffect_step e (colours_of w)) as [[e' cs'] x]. auto.
  - pose proof (step_each_same_shape effects IH w) as Hs.
    destruct (step_each step effects w) as [[effects' w'] x]. exact Hs.
  - pose proof (RandomEffect_step_length (colours_of w) (rng_of w)) as Hl.
    destruct (RandomEffect_step (colours_of w) (rng_of w)) as [cs' g']. auto.
  - pose proof (ChristmasEffect_step_length e (colours_of w)) as Hl.
    destruct (ChristmasEffect_step e (colours_of w)) as [[e' cs'] x]. auto.
  - pose proof (ChristmasEffectR_step_length e (colours_of w) (rng_of w)) as Hl.
    destruct (ChristmasEffectR_step e (colours_of w) (rng_of w)) as [[[e' cs'] x] g'].
    auto.
  - pose proof (ChristmasEffectRA_step_length e (colours_of w) (rng_of w)) as Hl.
    destruct (ChristmasEffectRA_step e (colours_of w) (rng_of w)) as [[[e' cs'] x] g'].
    auto.
  - pose proof (SpreadResetEffect_step_length (devices_of w) (colours_of w)) as Hl.
    destruct (SpreadResetEffect_step (devices_of w) (colours_of w)) as [cs' x]. auto.
Qed.

(** X16: no step of any effect, nested combinations included, adds or
    removes a colour, whether it returns or raises: the colour sequence
    keeps its length, so colours and devices stay paired by position. *)
Theorem step_keeps_colour_count (eff : Effect) (w : world) :
  length (colours_of (snd (fst (step eff w)))) = length (colours_of w).
Proof.
  apply (step_same_shape eff w).
Qed.

(** ** The driver *)

Lemma conversion_defined (c : HSVColour) :
  H c < 1 -> exists col, getRGBAColour c = Ok col.
Proof.
  intros Hh. unfold getRGBAColour.
  assert (Hlt : H c * 6 < 6) by lra.
  pose proof (sector_arrangements (V c * S c)
                (V c * S c * (1 - Rabs (pymod (H c * 6) 2 - 1))) (H c * 6) Hlt) as Hin.
  cbn [In] in Hin.
  destruct Hin as [<- | [<- | [<- | [<- | [<- | [<- | []]]]]]];
    eexists; reflexivity.
Qed.

Lemma show_colours_ok (cs : list HSVColour) :
  hues_ok cs -> forall devices, snd (show_colours devices cs) = None.
Proof.
  induction 1 as [| c cs Hc _ IH]; intros [| d ds]; cbn [show_colours];
    try reflexivity.
  destruct (conversion_defined c) as [col ->]; [apply Hc |].
  specialize (IH ds). destruct (show_colours ds cs) as [t x]. exact IH.
Qed.

Lemma show_colours_count (devices : list string) :
  forall cs, snd (show_colours devices cs) = None ->
    length (fst (show_colours devices cs))
    = (3 * Nat.min (length devices) (length cs))%nat.
Proof.
  induction devices as [| d ds IH]; intros [| c cs]; cbn [show_colours];
    try reflexivity.
  destruct (getRGBAColour c) as [col | x]; [| discriminate].
  specialize (IH cs). destruct (show_colours ds cs) as [t x].
  cbn [fst snd] in *. intros Hx. rewrite length_app, (IH Hx).
  cbn [setcolour length Nat.min]. lia.
Qed.

Lemma reset_palettes_ok (eff : Effect) : palettes_ok eff -> palettes_ok (reset eff).
Proof.
  destruct eff; auto.
Qed.

Lemma play_count (devices : list string) (n : nat) (delay : R) :
  forall eff w eff' w' t,
    play devices n delay eff w = (eff', w', t, None) ->
    length t = (n * files_per_show devices w)%nat
    /\ length (colours_of w') = length (colours_of w).
Proof.
  induction n as [| n IH]; intros eff w eff' w' t; cbn [play].
  - intros [= <- <- <-]. auto.
  - pose proof (proj1 (step_same_shape eff w)) as Hl.
    destruct (step eff w) as [[eff1 w1] [x |]]; [discriminate |].
    cbn [fst snd] in Hl.
    pose proof (show_colours_count devices (colours_of w1)) as Hc.
    destruct (show_colours devices (colours_of w1)) as [t1 [x |]]; [discriminate |].
    destruct (time_sleep delay) as [x |]; [discriminate |].
    specialize (IH eff1 w1).
    destruct (play devices n delay eff1 w1) as [[[eff2 w2] t2] x].
    intros [= <- <- <- ->].
    destruct (IH _ _ _ eq_refl) as [Ht Hw].
    cbn [fst snd] in Hc. unfold files_per_show in *.
    rewrite length_app, (Hc eq_refl), Ht, Hl. split; [lia | congruence].
Qed.

Lemma cycle_count (devices : list string) (funstuff : list entry) :
  forall w f' w' t,
    cycle devices funstuff w = (f', w', t, None) ->
    length t = (steps_per_pass funstuff * files_per_show devices w)%nat
    /\ length (colours_of w') = length (colours_of w)
    /\ steps_per_pass f' = steps_per_pass funstuff.
Proof.
  induction funstuff as [| [[eff n] delay] rest IH]; intros w f' w' t; cbn [cycle].
  - intros [= <- <- <-]. auto.
  - pose proof (play_count devices n delay eff w) as Hp.
    destruct (play devices n delay eff w) as [[[eff1 w1] t1] [x |]]; [discriminate |].
    destruct (Hp _ _ _ eq_refl) as [Ht1 Hw1].
    specialize (IH w1).
    destruct (cycle devices rest w1) as [[[rest' w2] t2] x].
    intros [= <- <- <- ->].
    destruct (IH _ _ _ eq_refl) as (Ht2 & Hw2 & Hs2).
    unfold files_per_show, steps_per_pass in *. cbn [fold_right fst snd] in *.
    rewrite length_app, Ht1, Ht2, Hw1, Hs2.
    split; [lia | split; [congruence | reflexivity]].
Qed.

Lemma cycles_count (devices : list string) (passes : nat) :
  forall funstuff w f' w' t,
    cycles devices passes funstuff w = (f', w', t, None) ->
    length t = (passes * steps_per_pass funstuff * files_per_show devices w)%nat.
Proof.
  induction passes as [| p IH]; intros funstuff w f' w' t; cbn [cycles].
  - intros [= <- <- <-]. reflexivity.
  - pose proof (cycle_count devices funstuff w) as Hc.
    destruct (cycle devices funstuff w) as [[[f1 w1] t1] [x |]]; [discriminate |].
    destruct (Hc _ _ _ eq_refl) as (Ht1 & Hw1 & Hs1).
    specialize (IH f1 w1).
    destruct (cycles devices p f1 w1) as [[[f2 w2] t2] x].
    intros [= <- <- <- ->].
    rewrite length_app, Ht1, (IH _ _ _ eq_refl), Hs1.
    unfold files_per_show. rewrite Hw1. lia.
Qed.

(** The files written by the driver when nothing raises. *)
Lemma fun_count (devices : list string) (funstuff : list entry)
    (w : world) (passes : nat) (f' : list entry) (w' : world)
    (t : list file_write) :
  fun_ devices funstuff w passes = (f', w', t, None) ->
  length t
  = (3 * Nat.min (length devices) (length (colours_of w))
     * (1 + passes * steps_per_pass funstuff))%nat.
Proof.
  unfold fun_.
  pose proof (show_colours_count devices (colours_of w)) as Hc.
  destruct (show_colours devices (colours_of w)) as [t0 [x |]]; [discriminate |].
  pose proof (cycles_count devices passes funstuff w) as Hp.
  destruct (cycles devices passes funstuff w) as [[[f1 w1] t1] x].
  intros [= <- <- <- ->].
  cbn [fst snd] in Hc.
  rewrite length_app, (Hc eq_refl), (Hp _ _ _ eq_refl).
  unfold files_per_show. lia.
Qed.

(** X18: as long as nothing raises, the driver writes three files for
    each device that has a colour (devices and colours are paired up to the
    shorter list), once at the start and once after every step: after
    [passes] passes that is 3 * min(devices, colours) * (1 + passes * the
    number of steps of the schedule) files. *)
Theorem driver_write_count (devices : list string) (funstuff : list entry)
    (w : world) (passes : nat) (f' : list entry) (w' : world)
    (t : list file_write) :
  fun_ devices funstuff w passes = (f', w', t, None) ->
  length t
  = (3 * Nat.min (length devices) (length (colours_of w))
     * (1 + passes * steps_per_pass funstuff))%nat.
Proof.
  exact (fun_count devices funstuff w passes f' w' t).
Qed.

Lemma time_sleep_ok (delay : R) : 0 <= delay -> time_sleep delay = None.
Proof.
  intros Hd. unfold time_sleep. destruct (Rlt_dec delay 0); [lra | reflexivity].
Qed.

Lemma driver_write_count_witness :
  exists f' w' t,
    fun_ ["/sys/class/leds/a"%string; "/sys/class/leds/b"%string]
      [(BaseEffect, 2%nat, 0)] party_world 1 = (f', w', t, None)
    /\ length t = 9%nat.
Proof.
  assert (Hshow : exists t0,
    show_colours ["/sys/class/leds/a"%string; "/sys/class/leds/b"%string] [dark]
    = (t0, None)).
  { pose proof (show_colours_ok [dark]) as Hs.
    specialize (Hs ltac:(constructor; [unfold hue_ok, dark; cbn [H]; lra | constructor])
                  ["/sys/class/leds/a"%string; "/sys/class/leds/b"%string]).
    destruct (show_colours _ [dark]) as [t0 x]. cbn [snd] in Hs. subst x.
    now exists t0. }
  destruct Hshow as [t0 Hshow].
  assert (Hrun : exists f' w' t,
    fun_ ["/sys/class/leds/a"%string; "/sys/class/leds/b"%string]
      [(BaseEffect, 2%nat, 0)] party_world 1 = (f', w', t, None)).
  { unfold fun_. cbn [party_world colours_of cycles cycle play step].
    rewrite !Hshow, (time_sleep_ok 0) by lra.
    do 3 eexists. reflexivity. }
  destruct Hrun as (f' & w' & t & Hrun).
  exists f', w', t. split; [exact Hrun |].
  rewrite (driver_write_count _ _ _ _ _ _ _ Hrun). reflexivity.
Defined.

(** ** The main block *)

Lemma ChristmasEffectR_step_Vrange (e : ChristmasEffectR) (cs : list HSVColour)
    (g : RNG) :
  cr_Vrange (fst (fst (fst (ChristmasEffectR_step e cs g)))) = cr_Vrange e.
Proof.
  unfold ChristmasEffectR_step.
  destruct (if Nat.eqb (cr_nsteps e) 0 then _ else _) as [[cs1 g1] [x |]];
    [reflexivity |].
  destruct (latch_decide _ _ _); try reflexivity.
  destruct (setrandomhues cs1 g1) as [[cs2 g2] [x |]]; reflexivity.
Qed.

Lemma ChristmasEffectRA_step_Vrange (e : ChristmasEffectRA) (cs : list HSVColour)
    (g : RNG) :
  ra_Vrange (fst (fst (fst (ChristmasEffectRA_step e cs g)))) = ra_Vrange e.
Proof.
  unfold ChristmasEffectRA_step.
  assert (Hfirst : ra_Vrange (fst (ra_first e cs g)) = ra_Vrange e).
  { unfold ra_first. destruct (Nat.eqb (ra_nsteps e) 0); [| reflexivity].
    destruct (draw_list _ (length cs) g) as [vinit g1].
    destruct (draw_list _ (length cs) g1) as [sizes g2]. reflexivity. }
  destruct (ra_first e cs g) as [e1 g1]. cbn [fst] in Hfirst.
  destruct (ra_Vinit e1) as [vs |]; [| exact Hfirst].
  destruct (ra_stepsize e1) as [ss |]; [| exact Hfirst].
  destruct (ra_loop _ _ _ _ _ _ _ _ _ _) as [[[cs' sw'] g2] x]. exact Hfirst.
Qed.

(** A calm effect steps without an exception and is steady afterwards. *)
Lemma step_calm (eff : Effect) (w : world) :
  calm (colours_of w) eff ->
  snd (step eff w) = None
  /\ steady (length (colours_of w)) (fst (fst (step eff w))).
Proof.
  destruct eff as [| e | effects | | e | e | e |]; intros [Hst | Hfr];
    cbn [steady fresh] in *; try contradiction; cbn [step].
  - auto.
  - destruct Hst as (Hn & HS & HV).
    unfold HSVCycleEffect_step, hc_first, hc_tick.
    destruct (Nat.eqb_spec (hc_nsteps e) 0) as [Hz | _]; [contradiction |].
    cbn [hc_Sinit hc_Vinit].
    destruct (hc_Sinit e) as [ss |]; [| contradiction].
    destruct (hc_Vinit e) as [vs |]; [| contradiction].
    cbn [fst snd steady hc_nsteps hc_Sinit hc_Vinit].
    split; [reflexivity |]. split; [discriminate |]. split; discriminate.
  - destruct Hfr as (Hn & Hdom).
    rewrite (cycle_first e (colours_of w) Hn Hdom).
    unfold cycle_at. cbn [fst snd steady hc_nsteps hc_Sinit hc_Vinit].
    split; [reflexivity |]. split; [discriminate |]. split; discriminate.
  - destruct (RandomEffect_step (colours_of w) (rng_of w)) as [cs' g']. auto.
  - destruct Hst as (Hn & Hne & vs & cur & HV & Hcur & Hle).
    destruct (ce_step_later e (colours_of w) cur vs Hn HV)
      as (e' & cs' & log & Hstep & Hn' & Hh & HV' & Hlen & Hcur' & _).
    { split; [exact Hne | split; [exact Hcur | exact Hle]]. }
    unfold ChristmasEffect_step. rewrite Hstep. cbn [fst snd steady].
    split; [reflexivity |]. split; [lia |]. split; [congruence |].
    exists vs, (map (Nat.add (fires log)) cur).
    rewrite length_map. auto.
  - destruct Hfr as (Hn & Hne & Hdom).
    destruct (ce_step_first e (colours_of w) Hn Hne Hdom)
      as (e' & cs' & log & Hstep & Hn' & Hh & HV' & Hlen & Hcur' & _).
    unfold ChristmasEffect_step. rewrite Hstep. cbn [fst snd steady].
    split; [reflexivity |]. split; [lia |]. split; [congruence |].
    eexists. eexists. split; [exact HV' |]. split; [exact Hcur' |].
    rewrite length_map, length_seq. lia.
  - destruct Hst as (Hn & Hr).
    assert (Hne : colours_of w <> []).
    { destruct (colours_of w); [cbn in Hn; lia | discriminate]. }
    destruct (ChristmasEffectR_step_facts e (colours_of w) (rng_of w) Hne Hr)
      as (Hx & _).
    pose proof (ChristmasEffectR_step_Vrange e (colours_of w) (rng_of w)) as Hv.
    destruct (ChristmasEffectR_step e (colours_of w) (rng_of w)) as [[[e' cs'] x] g'].
    cbn [fst snd steady] in *. split; [exact Hx |]. split; [exact Hn | lra].
  - destruct Hst as (Hn & Hcov & Hr).
    destruct (ChristmasEffectRA_step_facts e (colours_of w) (rng_of w) Hr)
      as (Hx & Hn' & Hcov' & _); [right; split; assumption |].
    pose proof (ChristmasEffectRA_step_Vrange e (colours_of w) (rng_of w)) as Hv.
    destruct (ChristmasEffectRA_step e (colours_of w) (rng_of w)) as [[[e' cs'] x] g'].
    cbn [fst snd steady] in *.
    split; [exact Hx |]. split; [lia |]. split; [exact Hcov' | lra].
  - destruct Hfr as (Hn & Hr).
    destruct (ChristmasEffectRA_step_facts e (colours_of w) (rng_of w) Hr)
      as (Hx & Hn' & Hcov' & _); [left; exact Hn |].
    pose proof (ChristmasEffectRA_step_Vrange e (colours_of w) (rng_of w)) as Hv.
    destruct (ChristmasEffectRA_step e (colours_of w) (rng_of w)) as [[[e' cs'] x] g'].
    cbn [fst snd steady] in *.
    split; [exact Hx |]. split; [lia |]. split; [exact Hcov' | lra].
Qed.

Lemma reset_steady (n : nat) (eff : Effect) : steady n eff -> steady n (reset eff).
Proof.
  destruct eff; auto.
Qed.

(** A calm effect plays any number of steps without an exception. *)
Lemma play_calm (devices : list string) (n : nat) (delay : R) :
  0 <= delay ->
  forall eff w,
    calm (colours_of w) eff -> step_invariant eff w ->
    exists eff' w' t,
      play devices n delay eff w = (eff', w', t, None)
      /\ (n <> 0%nat \/ steady (length (colours_of w)) eff ->
          steady (length (colours_of w')) eff')
      /\ step_invariant eff' w'
      /\ length (colours_of w') = length (colours_of w).
Proof.
  intros Hd. induction n as [| n IH]; intros eff w Hcalm Hinv; cbn [play].
  - exists eff, w, []. split; [reflexivity |].
    split; [intros [Hz | Hst]; [now contradiction Hz | exact Hst] |].
    split; [exact Hinv | reflexivity].
  - destruct (step_calm eff w Hcalm) as [Hx Hst].
    pose proof (step_keeps_invariant eff w Hinv) as Hinv1.
    pose proof (proj1 (step_same_shape eff w)) as Hlen.
    destruct (step eff w) as [[eff1 w1] x]. cbn [fst snd] in *. subst x.
    pose proof (show_colours_ok (colours_of w1) (proj2 (proj2 Hinv1)) devices) as Hs.
    destruct (show_colours devices (colours_of w1)) as [t1 x]. cbn [snd] in Hs.
    subst x. rewrite (time_sleep_ok delay Hd).
    rewrite <- Hlen in Hst.
    destruct (IH eff1 w1 (or_introl Hst) Hinv1)
      as (eff2 & w2 & t2 & -> & Hst2 & Hinv2 & Hlen2).
    exists eff2, w2, (t1 ++ t2). split; [reflexivity |].
    split; [intros _; apply Hst2; now right |].
    split; [exact Hinv2 | congruence].
Qed.

Lemma hc_loop_V_domain (e : HSVCycleEffect) (cs : list HSVColour) (Ss Vs : list R) :
  -1 <= hc_minV e -> 0 <= hc_Vrange e -> hc_minV e + hc_Vrange e <= 1 ->
  Forall (fun c => in_asin_domain (V c)) cs ->
  Forall (fun c => in_asin_domain (V c)) (hc_loop e cs Ss Vs).
Proof.
  intros Hlo Hr Hhi Hcs. revert Ss Vs.
  induction Hcs as [| c cs Hc Hcs IH]; intros [| s Ss] [| v Vs]; cbn [hc_loop];
    try (constructor; assumption).
  constructor; [| apply IH].
  unfold hc_update, in_asin_domain. cbn [V].
  pose proof (wave_bounds (hc_minV e) (hc_Vrange e)
                (v + hc_dV e * INR (hc_nsteps e)) Hr). lra.
Qed.

Lemma HSVCycleEffect_step_V (e : HSVCycleEffect) (cs : list HSVColour) :
  -1 <= hc_minV e -> 0 <= hc_Vrange e -> hc_minV e + hc_Vrange e <= 1 ->
  Forall (fun c => in_asin_domain (V c)) cs ->
  (hc_minV (fst (fst (HSVCycleEffect_step e cs))) = hc_minV e
   /\ hc_Vrange (fst (fst (HSVCycleEffect_step e cs))) = hc_Vrange e)
  /\ Forall (fun c => in_asin_domain (V c)) (snd (fst (HSVCycleEffect_step e cs))).
Proof.
  intros Hlo Hr Hhi Hcs. unfold HSVCycleEffect_step.
  assert (Hfirst : hc_minV (fst (hc_first e cs)) = hc_minV e
                   /\ hc_Vrange (fst (hc_first e cs)) = hc_Vrange e).
  { unfold hc_first. destruct (Nat.eqb (hc_nsteps e) 0); [| now split].
    destruct (asin_all S cs) as [ss | x]; [| now split].
    destruct (asin_all V cs) as [vs | x]; now split. }
  destruct (hc_first e cs) as [e1 [x |]]; cbn [fst snd] in *; [now split |].
  destruct Hfirst as [Hm Hv].
  assert (Hm' : hc_minV (hc_tick e1) = hc_minV e) by exact Hm.
  assert (Hv' : hc_Vrange (hc_tick e1) = hc_Vrange e) by exact Hv.
  destruct (hc_Sinit (hc_tick e1)) as [ss |]; [| now split].
  destruct (hc_Vinit (hc_tick e1)) as [vs |]; [| now split].
  cbn [fst snd]. split; [now split |].
  apply hc_loop_V_domain; [rewrite Hm' | rewrite Hv' | rewrite Hm', Hv' |];
    assumption.
Qed.

Lemma step_V_tame (eff : Effect) (w : world) :
  V_tame eff -> Forall (fun c => in_asin_domain (V c)) (colours_of w) ->
  V_tame (fst (fst (step eff w)))
  /\ Forall (fun c => in_asin_domain (V c)) (colours_of (snd (fst (step eff w)))).
Proof.
  destruct eff as [| e | effects | | e | e | e |]; cbn [V_tame]; try contradiction.
  intros (Hlo & Hr & Hhi) Hcs. cbn [step].
  destruct (HSVCycleEffect_step_V e (colours_of w) Hlo Hr Hhi Hcs) as [[Hm Hv] Hcs'].
  destruct (HSVCycleEffect_step e (colours_of w)) as [[e' cs'] x].
  cbn [fst snd V_tame colours_of] in *. rewrite Hm, Hv. auto.
Qed.

Lemma play_V_tame (devices : list string) (n : nat) (delay : R) :
  forall eff w,
    V_tame eff -> Forall (fun c => in_asin_domain (V c)) (colours_of w) ->
    Forall (fun c => in_asin_domain (V c))
      (colours_of (snd (fst (fst (play devices n delay eff w))))).
Proof.
  induction n as [| n IH]; intros eff w Ht Hcs; cbn [play]; [exact Hcs |].
  destruct (step_V_tame eff w Ht Hcs) as [Ht1 Hcs1].
  destruct (step eff w) as [[eff1 w1] [x |]]; cbn [fst snd] in *; [exact Hcs1 |].
  destruct (show_colours devices (colours_of w1)) as [t1 [x |]]; [exact Hcs1 |].
  destruct (time_sleep delay) as [x |]; [exact Hcs1 |].
  specialize (IH eff1 w1 Ht1 Hcs1).
  destruct (play devices n delay eff1 w1) as [[[eff2 w2] t2] x]. exact IH.
Qed.

Lemma cycle_settled (devices : list string) (funstuff : list entry) :
  forall w,
    settled_schedule (length (colours_of w)) funstuff ->
    driver_ok funstuff w ->
    exists f' w' t,
      cycle devices funstuff w = (f', w', t, None)
      /\ settled_schedule (length (colours_of w')) f'
      /\ driver_ok f' w'
      /\ length (colours_of w') = length (colours_of w).
Proof.
  induction funstuff as [| [[eff n] delay] rest IH]; intros w Hset (Hpal & Hrng & Hcs);
    cbn [cycle].
  - exists [], w, []. split; [reflexivity |]. split; [constructor |].
    split; [| reflexivity]. split; [constructor | split; assumption].
  - inversion Hset as [| en l [Hst Hd] Hrest Heq]; subst.
    inversion Hpal as [| en l Hp Hprest Heq]; subst. cbn [fst snd] in *.
    destruct (play_calm devices n delay Hd eff w)
      as (eff1 & w1 & t1 & -> & Hst1 & (Hp1 & Hr1 & Hc1) & Hlen1).
    { left. exact Hst. }
    { split; [exact Hp | split; assumption]. }
    specialize (Hst1 (or_intror Hst)).
    destruct (IH w1) as (rest' & w2 & t2 & -> & Hset2 & (Hp2 & Hr2 & Hc2) & Hlen2).
    { now rewrite Hlen1. }
    { split; [exact Hprest | split; assumption]. }
    exists ((reset eff1, n, delay) :: rest'), w2, (t1 ++ t2).
    split; [reflexivity |]. split.
    { constructor; [| exact Hset2]. cbn [fst snd]. split; [| exact Hd].
      apply reset_steady. now rewrite Hlen2. }
    split; [| congruence].
    split; [| split; assumption].
    constructor; [cbn [fst]; now apply reset_palettes_ok | exact Hp2].
Qed.

Lemma cycles_settled (devices : list string) (passes : nat) :
  forall funstuff w,
    settled_schedule (length (colours_of w)) funstuff ->
    driver_ok funstuff w ->
    exists f' w' t, cycles devices passes funstuff w = (f', w', t, None).
Proof.
  induction passes as [| p IH]; intros funstuff w Hset Hok; cbn [cycles].
  - now exists funstuff, w, [].
  - destruct (cycle_settled devices funstuff w Hset Hok)
      as (f1 & w1 & t1 & -> & Hset1 & Hok1 & _).
    destruct (IH f1 w1 Hset1 Hok1) as (f2 & w2 & t2 & ->).
    now exists f2, w2, (t1 ++ t2).
Qed.

Lemma generated_colours_domain (k : nat) (d : R) :
  Forall (fun c => in_asin_domain (S c) /\ in_asin_domain (V c))
    (generateSpreadColours k d).
Proof.
  unfold generateSpreadColours. apply Forall_map. apply Forall_forall.
  intros x _. cbn [S V]. unfold in_asin_domain. lra.
Qed.

Lemma generated_colours_length (k : nat) (d : R) :
  length (generateSpreadColours k d) = k.
Proof.
  unfold generateSpreadColours. now rewrite length_map, length_seq.
Qed.

Lemma default_hues_ok : Forall hue_ok default_hues.
Proof.
  unfold default_hues. repeat (constructor; [unfold hue_ok; lra |]). constructor.
Qed.

(** The first pass of the main block's schedule, with at least one device:
    nothing raises and every effect is steady afterwards. *)
Lemma main_first_pass (devices : list string) (g : RNG) :
  devices <> [] -> rng_ok g ->
  exists f' w' t,
    cycle devices main_schedule (main_world devices g) = (f', w', t, None)
    /\ settled_schedule (length (colours_of w')) f'
    /\ driver_ok f' w'
    /\ length (colours_of w') = length devices.
Proof.
  intros Hne Hg.
  assert (Hn : (1 <= length devices)%nat).
  { destruct devices; [contradiction | cbn; lia]. }
  assert (Hd : 0 <= 1 / 30) by lra.
  assert (H500 : 500%nat <> 0%nat) by discriminate.
  set (w0 := main_world devices g).
  assert (Hlen0 : length (colours_of w0) = length devices)
    by apply generated_colours_length.
  assert (Hinv0 : rng_ok (rng_of w0) /\ hues_ok (colours_of w0)).
  { split; [exact Hg | apply generateSpreadColours_hues_ok]. }
  unfold main_schedule. cbn [cycle].
  (* HSVCycleEffect(0.005, 0.0, 0.0) *)
  destruct (play_calm devices 500 (1 / 30) Hd
              (HSVCycle (HSVCycleEffect_init (5 / 1000) 0 0 default_min default_max
                           default_min default_max)) w0)
    as (e1 & w1 & t1 & Hplay1 & Hst1 & (Hp1 & Hr1 & Hc1) & Hlen1).
  { right. split; [reflexivity | apply generated_colours_domain]. }
  { split; [exact I | exact Hinv0]. }
  pose proof (play_V_tame devices 500 (1 / 30)
                (HSVCycle (HSVCycleEffect_init (5 / 1000) 0 0 default_min default_max
                             default_min default_max)) w0) as HV1.
  rewrite Hplay1 in HV1. rewrite Hplay1. cbn [fst snd] in HV1.
  assert (Hdom1 : Forall (fun c => in_asin_domain (V c)) (colours_of w1)).
  { apply HV1.
    - unfold V_tame, HSVCycleEffect_init, default_min, default_max.
      cbn [hc_minV hc_Vrange]. lra.
    - eapply Forall_impl; [| apply generated_colours_domain]. now intros c [_ ?]. }
  specialize (Hst1 (or_introl H500)).
  (* ChristmasEffect() *)
  destruct (play_calm devices 500 (1 / 30) Hd (Christmas ChristmasEffect_default) w1)
    as (e2 & w2 & t2 & Hplay2 & Hst2 & (Hp2 & Hr2 & Hc2) & Hlen2).
  { right. split; [reflexivity |]. split; [discriminate | exact Hdom1]. }
  { split; [apply default_hues_ok | split; assumption]. }
  rewrite Hplay2.
  specialize (Hst2 (or_introl H500)).
  (* ChristmasEffectR() *)
  destruct (play_calm devices 500 (1 / 30) Hd
              (ChristmasR (ChristmasEffectR_init (1 / 10) (1 / 255) (7 / 10))) w2)
    as (e3 & w3 & t3 & Hplay3 & Hst3 & (Hp3 & Hr3 & Hc3) & Hlen3).
  { left. cbn [steady ChristmasEffectR_init cr_Vrange]. split; [lia | lra]. }
  { split; [exact I | split; assumption]. }
  rewrite Hplay3.
  specialize (Hst3 (or_introl H500)).
  (* ChristmasEffectRA() *)
  destruct (play_calm devices 500 (1 / 30) Hd
              (ChristmasRA (ChristmasEffectRA_init (1 / 10) (1 / 255) (7 / 10)
                              (3 / 10))) w3)
    as (e4 & w4 & t4 & Hplay4 & Hst4 & (Hp4 & Hr4 & Hc4) & Hlen4).
  { right. cbn [fresh ChristmasEffectRA_init ra_nsteps ra_Vrange].
    split; [reflexivity | lra]. }
  { split; [exact I | split; assumption]. }
  rewrite Hplay4.
  specialize (Hst4 (or_introl H500)).
  assert (L1 : length (colours_of w4) = length (colours_of w1)) by congruence.
  assert (L2 : length (colours_of w4) = length (colours_of w2)) by congruence.
  do 3 eexists. split; [reflexivity |]. split; [| split; [| congruence]].
  - unfold settled_schedule.
    constructor; [cbn [fst snd]; split; [apply reset_steady; now rewrite L1 | exact Hd] |].
    constructor; [cbn [fst snd]; split; [apply reset_steady; now rewrite L2 | exact Hd] |].
    constructor; [cbn [fst snd]; split; [apply reset_steady; now rewrite Hlen4 | exact Hd] |].
    constructor; [cbn [fst snd]; split; [apply reset_steady; exact Hst4 | exact Hd] |].
    constructor.
  - split; [| split; assumption].
    constructor; [cbn [fst]; apply reset_palettes_ok; exact Hp1 |].
    constructor; [cbn [fst]; apply reset_palettes_ok; exact Hp2 |].
    constructor; [cbn [fst]; apply reset_palettes_ok; exact Hp3 |].
    constructor; [cbn [fst]; apply reset_palettes_ok; exact Hp4 |].
    constructor.
Qed.

Lemma main_fun_total (devices : list string) (g : RNG) (passes : nat) :
  devices <> [] -> rng_ok g ->
  exists f' w' t,
    fun_ devices main_schedule (main_world devices g) passes = (f', w', t, None).
Proof.
  intros Hne Hg. unfold fun_.
  pose proof (show_colours_ok (colours_of (main_world devices g))
                (generateSpreadColours_hues_ok _ _) devices) as Hs.
  destruct (show_colours devices (colours_of (main_world devices g))) as [t0 x].
  cbn [snd] in Hs. subst x.
  destruct passes as [| p]; cbn [cycles].
  - do 3 eexists. reflexivity.
  - destruct (main_first_pass devices g Hne Hg)
      as (f1 & w1 & t1 & -> & Hset1 & Hok1 & _).
    destruct (cycles_settled devices p f1 w1 Hset1 Hok1) as (f2 & w2 & t2 & ->).
    do 3 eexists. reflexivity.
Qed.

Lemma main_schedule_steps : steps_per_pass main_schedule = 2000%nat.
Proof. reflexivity. Qed.

(** X19: the main block.  Without a device it raises ZeroDivisionError
    before anything is written.  With at least one device (and a random
    source drawing from [0, 1)) it never raises, however many passes of the
    driver's loop are observed, and by the end of pass p it has written
    3 * len(devices) * (1 + 2000 * p) brightness files. *)
Theorem main_runs :
  (forall g passes, main [] g passes = ([], Some ZeroDivisionError))
  /\ (forall devices g passes,
        devices <> [] -> rng_ok g ->
        snd (main devices g passes) = None
        /\ length (fst (main devices g passes))
           = (3 * length devices * (1 + passes * 2000))%nat).
Proof.
  split; [reflexivity |].
  intros devices g passes Hne Hg.
  destruct (main_fun_total devices g passes Hne Hg) as (f' & w' & t & Hrun).
  pose proof (fun_count _ _ _ _ _ _ _ Hrun) as Hcount.
  rewrite main_schedule_steps in Hcount.
  unfold main_world in Hcount. cbn [colours_of] in Hcount.
  rewrite generated_colours_length, Nat.min_id in Hcount.
  unfold main. destruct devices as [| d ds]; [contradiction |].
  rewrite Hrun. cbn [fst snd]. split; [reflexivity | exact Hcount].
Qed.

Lemma main_runs_witness :
  snd (main ["/sys/class/leds/a"%string; "/sys/class/leds/b"%string]
         (mkRNG (fun _ => 1 / 2) 0) 3) = None.
Proof.
  apply (proj2 main_runs).
  - discriminate.
  - intros n. cbn [draws]. lra.
Defined.
(** * Results in binary64 arithmetic *)

(** ** Rounding: how large a result can get

    The operations of [float] are specified by those of [SpecFloat] on a
    sign, a mantissa and an exponent; what follows bounds the mantissa and
    the exponent of what they return, far enough from the overflow
    threshold. *)

Section Rounding.
Import Floats.
#[local] Open Scope Z_scope.

Lemma digits2_size (p : positive) : digits2_pos p = Pos.size p.
Proof. induction p as [p IH | p IH |]; cbn; now rewrite ?IH. Qed.

Lemma digits2_log2 (p : positive) : Zpos (digits2_pos p) = Z.log2 (Zpos p) + 1.
Proof.
  rewrite digits2_size. destruct p as [p | p |]; cbn; try lia.
Qed.

Lemma Zdigits2_log2 (m : Z) : 0 < m -> Zdigits2 m = Z.log2 m + 1.
Proof. destruct m as [| p | p]; try lia. intros _. apply digits2_log2. Qed.

Lemma Zdigits2_opp (m : Z) : Zdigits2 (- m) = Zdigits2 m.
Proof. destruct m; reflexivity. Qed.

Lemma Zdigits2_nonneg (m : Z) : 0 <= Zdigits2 m.
Proof. destruct m; cbn; lia. Qed.

Lemma Zdigits2_le (m k : Z) : 0 < m -> 0 <= k -> m < 2 ^ k -> Zdigits2 m <= k.
Proof.
  intros Hm Hk Hlt. rewrite Zdigits2_log2 by exact Hm.
  apply Z.log2_lt_pow2 in Hlt; lia.
Qed.

Lemma Zdigits2_mono (a b : Z) : 0 < a -> a <= b -> Zdigits2 a <= Zdigits2 b.
Proof.
  intros Ha Hab. rewrite !Zdigits2_log2 by lia.
  pose proof (Z.log2_le_mono a b Hab). lia.
Qed.

Lemma Zdigits2_succ (a : Z) : 0 < a -> Zdigits2 (a + 1) <= Zdigits2 a + 1.
Proof.
  intros Ha. rewrite !Zdigits2_log2 by lia.
  pose proof (Z.log2_succ_le a). unfold Z.succ in *. lia.
Qed.

Lemma Zdigits2_mul (a b : Z) : 0 < a -> 0 < b -> Zdigits2 (a * b) <= Zdigits2 a + Zdigits2 b.
Proof.
  intros Ha Hb. rewrite !Zdigits2_log2 by nia.
  pose proof (Z.log2_mul_above a b). lia.
Qed.

Lemma Zdigits2_shiftl (a n : Z) : 0 < a -> 0 <= n -> Zdigits2 (a * 2 ^ n) = Zdigits2 a + n.
Proof.
  intros Ha Hn.
  assert (0 < 2 ^ n) by (apply Z.pow_pos_nonneg; lia).
  rewrite !Zdigits2_log2 by nia.
  rewrite <- Z.shiftl_mul_pow2 by lia. rewrite Z.log2_shiftl by lia. lia.
Qed.

Lemma Zdigits2_shiftr (a n : Z) :
  0 < a -> 0 <= n -> 0 < a / 2 ^ n -> Zdigits2 (a / 2 ^ n) + n = Zdigits2 a.
Proof.
  intros Ha Hn Hq. rewrite !Zdigits2_log2 by lia.
  rewrite <- Z.shiftr_div_pow2 in * by lia.
  rewrite Z.log2_shiftr by lia.
  assert (n <= Z.log2 a).
  { destruct (Z.le_gt_cases n (Z.log2 a)) as [Hle | Hgt]; [exact Hle |].
    rewrite Z.shiftr_eq_0 in Hq by lia. lia. }
  lia.
Qed.

(** shifting right *)
Lemma shr_1_m (mrs : shr_record) : 0 <= shr_m mrs -> shr_m (shr_1 mrs) = shr_m mrs / 2.
Proof.
  destruct mrs as [m r s]. cbn [shr_m]. intros Hm.
  destruct m as [| p | p]; [reflexivity | | lia].
  destruct p as [p | p |]; cbn [shr_1 shr_m].
  - rewrite Pos2Z.inj_xI. apply Z.div_unique with (r := 1); lia.
  - rewrite Pos2Z.inj_xO. apply Z.div_unique with (r := 0); lia.
  - reflexivity.
Qed.

Lemma iter_shr_1_m (k : positive) (mrs : shr_record) :
  0 <= shr_m mrs -> shr_m (iter_pos shr_1 k mrs) = shr_m mrs / 2 ^ Zpos k.
Proof.
  revert mrs. induction k as [k IH | k IH |]; intros mrs Hm; cbn [iter_pos].
  - assert (H1 : 0 <= shr_m (shr_1 mrs)) by (rewrite shr_1_m by lia; apply Z.div_pos; lia).
    assert (Hp : 0 < 2 ^ Zpos k) by (apply Z.pow_pos_nonneg; lia).
    assert (H2 : 0 <= shr_m (iter_pos shr_1 k (shr_1 mrs)))
      by (rewrite IH by lia; apply Z.div_pos; lia).
    assert (E : 2 ^ Zpos k~1 = 2 * 2 ^ Zpos k * 2 ^ Zpos k).
    { replace (Zpos k~1) with (1 + Zpos k + Zpos k) by lia.
      rewrite !Z.pow_add_r by lia. lia. }
    rewrite IH by lia. rewrite IH by lia. rewrite shr_1_m by lia.
    rewrite !Z.div_div by nia. f_equal. rewrite E. ring.
  - assert (Hp : 0 < 2 ^ Zpos k) by (apply Z.pow_pos_nonneg; lia).
    assert (H2 : 0 <= shr_m (iter_pos shr_1 k mrs))
      by (rewrite IH by lia; apply Z.div_pos; lia).
    assert (E : 2 ^ Zpos k~0 = 2 ^ Zpos k * 2 ^ Zpos k).
    { replace (Zpos k~0) with (Zpos k + Zpos k) by lia.
      apply Z.pow_add_r; lia. }
    rewrite IH by lia. rewrite IH by lia.
    rewrite !Z.div_div by nia. f_equal. rewrite E. ring.
  - rewrite shr_1_m by lia. reflexivity.
Qed.

Lemma shr_record_of_loc_m (m : Z) (l : location) : shr_m (shr_record_of_loc m l) = m.
Proof. destruct l as [| []]; reflexivity. Qed.

(** What [shr_fexp] returns: the mantissa divided by a power of two, the
    exponent raised by as much. *)
Lemma shr_fexp_spec (m e : Z) (l : location) :
  0 <= m ->
  exists n, 0 <= n
    /\ e + n = Z.max e (fexp prec emax (Zdigits2 m + e))
    /\ shr_m (fst (shr_fexp prec emax m e l)) = m / 2 ^ n
    /\ snd (shr_fexp prec emax m e l) = e + n.
Proof.
  intros Hm. unfold shr_fexp, shr.
  destruct (fexp prec emax (Zdigits2 m + e) - e) as [| p | p] eqn:Hn.
  - exists 0. cbn [fst snd]. rewrite shr_record_of_loc_m, Z.div_1_r. lia.
  - exists (Zpos p). cbn [fst snd].
    rewrite iter_shr_1_m by (rewrite shr_record_of_loc_m; lia).
    rewrite shr_record_of_loc_m. lia.
  - exists 0. cbn [fst snd]. rewrite shr_record_of_loc_m, Z.div_1_r. lia.
Qed.

Lemma round_nearest_even_range (m : Z) (l : location) :
  m <= round_nearest_even m l <= m + 1.
Proof.
  unfold round_nearest_even. destruct l as [| []]; try lia.
  destruct (Z.even m); lia.
Qed.

Lemma fexp_eq (x : Z) : fexp prec emax x = Z.max (x - 53) (-1074).
Proof. reflexivity. Qed.

(** What [binary_round_aux] returns, in terms of the two shifts and the
    rounding between them. *)
Lemma binary_round_aux_cases (s : bool) (m e : Z) (l : location) :
  0 <= m ->
  exists n1 m1 n2,
    0 <= n1 /\ 0 <= n2
    /\ e + n1 = Z.max e (Z.max (Zdigits2 m + e - 53) (-1074))
    /\ m / 2 ^ n1 <= m1 <= m / 2 ^ n1 + 1
    /\ e + n1 + n2 = Z.max (e + n1) (Z.max (Zdigits2 m1 + (e + n1) - 53) (-1074))
    /\ binary_round_aux prec emax s m e l
       = match m1 / 2 ^ n2 with
         | Z0 => S754_zero s
         | Zpos p => if e + n1 + n2 <=? 971 then S754_finite s p (e + n1 + n2)
                     else S754_infinity s
         | Zneg _ => S754_nan
         end.
Proof.
  intros Hm. unfold binary_round_aux.
  destruct (shr_fexp_spec m e l) as (n1 & Hn1 & He1 & Hm1 & Hs1); [lia |].
  destruct (shr_fexp prec emax m e l) as [mrs1 e1] eqn:E1.
  cbn [fst snd] in Hm1, Hs1. subst e1.
  set (m1 := round_nearest_even (shr_m mrs1) (loc_of_shr_record mrs1)).
  assert (Hp1 : 0 < 2 ^ n1) by (apply Z.pow_pos_nonneg; lia).
  assert (Hq1 : 0 <= shr_m mrs1) by (rewrite Hm1; apply Z.div_pos; lia).
  pose proof (round_nearest_even_range (shr_m mrs1) (loc_of_shr_record mrs1)) as Hr.
  fold m1 in Hr.
  destruct (shr_fexp_spec m1 (e + n1) loc_Exact) as (n2 & Hn2 & He2 & Hm2 & Hs2); [lia |].
  destruct (shr_fexp prec emax m1 (e + n1) loc_Exact) as [mrs2 e2] eqn:E2.
  cbn [fst snd] in Hm2, Hs2. subst e2.
  rewrite fexp_eq in He1, He2.
  exists n1, m1, n2. rewrite <- Hm1, <- Hm2.
  repeat (split; [assumption || lia |]).
  reflexivity.
Qed.

(** Rounding raises the magnitude by one binary digit at most, and keeps
    the sign. *)
Lemma binary_round_aux_below (s : bool) (m e : Z) (l : location) (b : Z) :
  0 <= m -> Zdigits2 m + e <= b -> -1074 <= b <= 971 ->
  Double.below_pow2 (b + 1) (binary_round_aux prec emax s m e l)
  /\ (binary_round_aux prec emax s m e l = S754_zero s
      \/ exists p e', binary_round_aux prec emax s m e l = S754_finite s p e').
Proof.
  intros Hm Hb Hrange.
  destruct (binary_round_aux_cases s m e l Hm)
    as (n1 & m1 & n2 & Hn1 & Hn2 & He1 & Hm1 & He2 & ->).
  pose proof (Zdigits2_nonneg m) as Hdm.
  assert (Hp1 : 0 < 2 ^ n1) by (apply Z.pow_pos_nonneg; lia).
  assert (Hq1 : 0 <= m / 2 ^ n1) by (apply Z.div_pos; lia).
  assert (Hd1 : Zdigits2 m1 + (e + n1) <= b + 1 /\ e + n1 <= b).
  { destruct (Z.eq_dec (m / 2 ^ n1) 0) as [Hz | Hnz].
    - assert (Zdigits2 m1 <= 1).
      { destruct (Z.eq_dec m1 0) as [-> | ?]; [cbn; lia |].
        replace m1 with 1 by lia. cbn. lia. }
      lia.
    - assert (Hpos : 0 < m / 2 ^ n1) by lia.
      assert (Hmpos : 0 < m).
      { destruct (Z.eq_dec m 0) as [-> | ?]; [| lia]. rewrite Z.div_0_l in Hpos; lia. }
      pose proof (Zdigits2_shiftr m n1 Hmpos Hn1 Hpos) as Hsh.
      assert (Zdigits2 m1 <= Zdigits2 (m / 2 ^ n1) + 1).
      { destruct (Z.eq_dec m1 (m / 2 ^ n1)) as [-> | ?]; [lia |].
        replace m1 with (m / 2 ^ n1 + 1) by lia. apply Zdigits2_succ. lia. }
      lia. }
  destruct (m1 / 2 ^ n2) as [| p | p] eqn:Ep.
  - split; [exact I | now left].
  - assert (Hpos2 : 0 < m1 / 2 ^ n2) by lia.
    assert (Hm1pos : 0 < m1).
    { destruct (Z.eq_dec m1 0) as [Hz | ?]; [| lia]. rewrite Hz in Hpos2.
      rewrite Z.div_0_l in Hpos2; lia. }
    pose proof (Zdigits2_shiftr m1 n2 Hm1pos Hn2 Hpos2) as Hsh2.
    rewrite Ep in Hsh2. cbn [Zdigits2] in Hsh2.
    assert (Hle : (e + n1 + n2 <=? 971) = true) by (apply Z.leb_le; lia).
    rewrite Hle. split; [cbn [Double.below_pow2]; lia | right; eauto].
  - exfalso. assert (0 < 2 ^ n2) by (apply Z.pow_pos_nonneg; lia).
    assert (0 <= m1 / 2 ^ n2) by (apply Z.div_pos; lia). lia.
Qed.

Lemma iter_xO (m d : positive) : Zpos (Pos.iter xO m d) = Zpos m * 2 ^ Zpos d.
Proof.
  induction d as [| d IH] using Pos.peano_ind.
  - cbn. lia.
  - rewrite Pos.iter_succ, Pos2Z.inj_xO, IH, Pos2Z.inj_succ.
    rewrite Z.pow_succ_r by lia. lia.
Qed.

Lemma shl_align_digits (mx : positive) (ex ex' : Z) :
  Zpos (digits2_pos (fst (shl_align mx ex ex'))) + snd (shl_align mx ex ex')
  = Zpos (digits2_pos mx) + ex.
Proof.
  unfold shl_align. destruct (ex' - ex) as [| p | p] eqn:Hd; cbn [fst snd]; try lia.
  pose proof (Zdigits2_shiftl (Zpos mx) (Zpos p) ltac:(lia) ltac:(lia)) as Hs.
  rewrite <- iter_xO in Hs. cbn [Zdigits2] in Hs. lia.
Qed.

Lemma binary_round_below (s : bool) (m : positive) (e b : Z) :
  Zpos (digits2_pos m) + e <= b -> -1074 <= b <= 971 ->
  Double.below_pow2 (b + 1) (binary_round prec emax s m e).
Proof.
  intros Hb Hr. unfold binary_round.
  pose proof (shl_align_digits m e (fexp prec emax (Zpos (digits2_pos m) + e))) as Hd.
  destruct (shl_align m e (fexp prec emax (Zpos (digits2_pos m) + e))) as [mz ez].
  cbn [fst snd] in Hd. apply binary_round_aux_below; cbn [Zdigits2]; lia.
Qed.

Lemma binary_normalize_below (m e b : Z) (sz : bool) :
  Zdigits2 m + e <= b -> -1074 <= b <= 971 ->
  Double.below_pow2 (b + 1) (binary_normalize prec emax m e sz).
Proof.
  intros Hb Hr. destruct m as [| p | p]; cbn [binary_normalize Double.below_pow2];
    [exact I | |]; apply binary_round_below; assumption.
Qed.

(** Products *)
Lemma SFmul_below (x y : spec_float) (bx by_ : Z) :
  Double.below_pow2 bx x -> Double.below_pow2 by_ y -> -1074 <= bx + by_ <= 971 ->
  Double.below_pow2 (bx + by_ + 1) (SF64mul x y).
Proof.
  intros Hx Hy Hr.
  destruct x as [sx | sx | | sx mx ex]; destruct y as [sy | sy | | sy my ey];
    cbn [Double.below_pow2] in *; try contradiction; try exact I.
  unfold SF64mul, SFmul. apply binary_round_aux_below; [lia | | lia].
  pose proof (Zdigits2_mul (Zpos mx) (Zpos my) ltac:(lia) ltac:(lia)) as Hm.
  cbn [Zdigits2 Z.mul] in *. lia.
Qed.

Lemma below_pow2_weaken (b b' : Z) (x : spec_float) :
  Double.below_pow2 b x -> b <= b' -> Double.below_pow2 b' x.
Proof. destruct x; cbn; try tauto. lia. Qed.

(** The number of digits of a sum or a difference of two aligned mantissas. *)
Lemma Zdigits2_add (a b k : Z) :
  Zdigits2 a <= k -> Zdigits2 b <= k -> Zdigits2 (a + b) <= k + 1.
Proof.
  intros Ha Hb.
  assert (Habs : forall z, Zdigits2 z <= k -> Z.abs z < 2 ^ k).
  { intros z Hz. destruct (Z.eq_dec z 0) as [-> | Hnz].
    - cbn. apply Z.pow_pos_nonneg; [lia |]. pose proof (Zdigits2_nonneg 0). cbn in *. lia.
    - assert (Hpos : 0 < Z.abs z) by lia.
      assert (Hd : Zdigits2 (Z.abs z) = Zdigits2 z) by (destruct z; reflexivity).
      rewrite <- Hd in Hz. rewrite Zdigits2_log2 in Hz by lia.
      apply Z.log2_lt_pow2; lia. }
  pose proof (Zdigits2_nonneg a).
  destruct (Z.eq_dec (a + b) 0) as [-> | Hnz]; [cbn; lia |].
  assert (Hd : Zdigits2 (Z.abs (a + b)) = Zdigits2 (a + b)) by (destruct (a + b); reflexivity).
  rewrite <- Hd. apply Zdigits2_le; [lia | lia |].
  pose proof (Habs a Ha). pose proof (Habs b Hb).
  rewrite Z.pow_add_r by lia. lia.
Qed.

Lemma cond_Zopp_digits (s : bool) (m : Z) : Zdigits2 (cond_Zopp s m) = Zdigits2 m.
Proof. destruct s; cbn [cond_Zopp]; [apply Zdigits2_opp | reflexivity]. Qed.

Lemma shl_align_min_l (mx : positive) (ex ey : Z) :
  snd (shl_align mx ex (Z.min ex ey)) = Z.min ex ey.
Proof.
  unfold shl_align. destruct (Z.min ex ey - ex) as [| p | p] eqn:Hd; cbn [snd]; lia.
Qed.

Lemma shl_align_min_r (my : positive) (ex ey : Z) :
  snd (shl_align my ey (Z.min ex ey)) = Z.min ex ey.
Proof.
  unfold shl_align. destruct (Z.min ex ey - ey) as [| p | p] eqn:Hd; cbn [snd]; lia.
Qed.

Lemma aligned_sum_below (sx sy : bool) (mx my : positive) (ex ey b : Z) (o : Z -> Z) :
  (forall z, Zdigits2 (o z) = Zdigits2 z) ->
  Zpos (digits2_pos mx) + ex <= b -> Zpos (digits2_pos my) + ey <= b ->
  Zdigits2 (cond_Zopp sx (Zpos (fst (shl_align mx ex (Z.min ex ey))))
            + o (cond_Zopp sy (Zpos (fst (shl_align my ey (Z.min ex ey))))))
  + Z.min ex ey <= b + 1.
Proof.
  intros Ho Hx Hy.
  pose proof (shl_align_digits mx ex (Z.min ex ey)) as Hdx.
  pose proof (shl_align_digits my ey (Z.min ex ey)) as Hdy.
  rewrite shl_align_min_l in Hdx. rewrite shl_align_min_r in Hdy.
  pose proof (Zdigits2_add
    (cond_Zopp sx (Zpos (fst (shl_align mx ex (Z.min ex ey)))))
    (o (cond_Zopp sy (Zpos (fst (shl_align my ey (Z.min ex ey))))))
    (b - Z.min ex ey)) as Hadd.
  rewrite Ho, !cond_Zopp_digits in Hadd. cbn [Zdigits2] in Hadd. lia.
Qed.

Lemma SFadd_below (x y : spec_float) (b : Z) :
  Double.below_pow2 b x -> Double.below_pow2 b y -> -1074 <= b + 1 <= 971 ->
  Double.below_pow2 (b + 2) (SF64add x y).
Proof.
  intros Hx Hy Hr.
  destruct x as [sx | sx | | sx mx ex]; destruct y as [sy | sy | | sy my ey];
    cbn [Double.below_pow2] in *; try contradiction.
  - unfold SF64add, SFadd. destruct sx, sy; exact I.
  - unfold SF64add, SFadd. cbn [Double.below_pow2]. lia.
  - unfold SF64add, SFadd. cbn [Double.below_pow2]. lia.
  - unfold SF64add, SFadd.
    replace (b + 2) with (b + 1 + 1) by lia.
    apply binary_normalize_below; [| lia].
    apply (aligned_sum_below sx sy mx my ex ey b (fun z => z)); auto.
Qed.

Lemma SFsub_below (x y : spec_float) (b : Z) :
  Double.below_pow2 b x -> Double.below_pow2 b y -> -1074 <= b + 1 <= 971 ->
  Double.below_pow2 (b + 2) (SF64sub x y).
Proof.
  intros Hx Hy Hr.
  destruct x as [sx | sx | | sx mx ex]; destruct y as [sy | sy | | sy my ey];
    cbn [Double.below_pow2] in *; try contradiction.
  - unfold SF64sub, SFsub. destruct sx, sy; exact I.
  - unfold SF64sub, SFsub. cbn [Double.below_pow2]. lia.
  - unfold SF64sub, SFsub. cbn [Double.below_pow2]. lia.
  - unfold SF64sub, SFsub.
    replace (b + 2) with (b + 1 + 1) by lia.
    apply binary_normalize_below; [| lia].
    rewrite <- Z.add_opp_r.
    apply (aligned_sum_below sx sy mx my ex ey b Z.opp); auto using Zdigits2_opp.
Qed.

Lemma SFabs_below (x : spec_float) (b : Z) : Double.below_pow2 b x -> Double.below_pow2 b (SFabs x).
Proof. destruct x; cbn; tauto. Qed.

Lemma SFopp_below (x : spec_float) (b : Z) : Double.below_pow2 b x -> Double.below_pow2 b (SFopp x).
Proof. destruct x; cbn; tauto. Qed.

Lemma SFldexp_below (x : spec_float) (e b : Z) :
  Double.below_pow2 b x -> -1074 <= b + e <= 971 ->
  Double.below_pow2 (b + e + 1) (SFldexp prec emax x e).
Proof.
  intros Hx Hr. destruct x as [sx | sx | | sx mx ex]; cbn [Double.below_pow2 SFldexp] in *;
    try contradiction; try exact I.
  apply binary_round_below; lia.
Qed.

Lemma valid_digits (x : float) (s : bool) (m : positive) (e : Z) :
  Prim2SF x = S754_finite s m e ->
  Zpos (digits2_pos m) <= 53 /\ -1074 <= e <= 971.
Proof.
  intros Hx. pose proof (Prim2SF_valid x) as Hv. rewrite Hx in Hv.
  cbn [SpecFloat.valid_binary] in Hv. unfold bounded, canonical_mantissa in Hv.
  apply andb_true_iff in Hv. destruct Hv as [Hc He].
  apply Z.eqb_eq in Hc. apply Z.leb_le in He. rewrite fexp_eq in Hc.
  change (emax - prec) with 971 in He. lia.
Qed.

Lemma mul_below (x y : float) (bx by_ : Z) :
  Double.finite_below bx x -> Double.finite_below by_ y -> -1074 <= bx + by_ <= 971 ->
  Double.finite_below (bx + by_ + 1) (x * y).
Proof. unfold Double.finite_below. rewrite mul_spec. apply SFmul_below. Qed.

Lemma add_below (x y : float) (b : Z) :
  Double.finite_below b x -> Double.finite_below b y -> -1074 <= b + 1 <= 971 ->
  Double.finite_below (b + 2) (x + y).
Proof. unfold Double.finite_below. rewrite add_spec. apply SFadd_below. Qed.

Lemma sub_below (x y : float) (b : Z) :
  Double.finite_below b x -> Double.finite_below b y -> -1074 <= b + 1 <= 971 ->
  Double.finite_below (b + 2) (x - y).
Proof. unfold Double.finite_below. rewrite sub_spec. apply SFsub_below. Qed.

Lemma abs_below (x : float) (b : Z) : Double.finite_below b x -> Double.finite_below b (abs x).
Proof. unfold Double.finite_below. rewrite abs_spec. apply SFabs_below. Qed.

Lemma opp_below (x : float) (b : Z) : Double.finite_below b x -> Double.finite_below b (- x).
Proof. unfold Double.finite_below. rewrite opp_spec. apply SFopp_below. Qed.

Lemma finite_below_weaken (b b' : Z) (x : float) :
  Double.finite_below b x -> b <= b' -> Double.finite_below b' x.
Proof. apply below_pow2_weaken. Qed.

(** A double between 0 and 1 *)
Lemma unit_interval (v : float) :
  (0 <=? v)%float = true -> (v <=? 1)%float = true ->
  (exists s, Prim2SF v = S754_zero s)
  \/ (exists m e, Prim2SF v = S754_finite false m e /\ Zpos (digits2_pos m) + e <= 1).
Proof.
  intros H0 H1. rewrite leb_spec in H0, H1.
  change (Prim2SF 0) with (S754_zero false) in H0.
  change (Prim2SF 1) with (S754_finite false 4503599627370496 (-52)) in H1.
  destruct (Prim2SF v) as [s | s | | s m e] eqn:Hv.
  - left. now exists s.
  - destruct s; discriminate.
  - discriminate.
  - right. destruct s; [discriminate |]. exists m, e. split; [reflexivity |].
    destruct (valid_digits v false m e Hv) as [Hd _].
    unfold SFleb, SFcompare in H1.
    destruct (Z.compare_spec e (-52)); try discriminate; lia.
Qed.

Lemma pos_lt_pow2_digits (p : positive) : Zpos p < 2 ^ Zpos (digits2_pos p).
Proof.
  rewrite digits2_log2. pose proof (Z.log2_spec (Zpos p) ltac:(lia)) as [_ Hlt].
  unfold Z.succ in Hlt. exact Hlt.
Qed.

Lemma pos_lt_pow2_53 (p : positive) : Zpos (digits2_pos p) <= 53 -> Zpos p < 2 ^ 53.
Proof.
  intros Hd. pose proof (pos_lt_pow2_digits p) as Hlt.
  assert (2 ^ Zpos (digits2_pos p) <= 2 ^ 53) by (apply Z.pow_le_mono_r; lia).
  lia.
Qed.

(** The remainder of [fmod] is as small as the divisor. *)
Lemma fmod_below (x y : float) (sy : bool) (my : positive) (ey by_ : Z) :
  Prim2SF y = S754_finite sy my ey ->
  Zpos (digits2_pos my) + ey <= by_ -> -1075 <= by_ <= 970 ->
  (exists bx, Double.finite_below bx x) ->
  Double.finite_below (by_ + 2) (Double.fmod x y).
Proof.
  intros Hy Hby Hr [bx Hbx]. unfold Double.fmod. rewrite Hy.
  unfold Double.finite_below in Hbx.
  destruct (Prim2SF x) as [sx | sx | | sx mx ex] eqn:Hx; cbn [Double.below_pow2] in Hbx;
    try contradiction.
  - unfold Double.finite_below. rewrite Hx. exact I.
  - destruct (valid_digits x sx mx ex Hx) as [Hdx Hex].
    destruct (valid_digits y sy my ey Hy) as [Hdy Hey].
    set (e := Z.min ex ey).
    set (X := Z.shiftl (Zpos mx) (ex - e)).
    set (Y := Z.shiftl (Zpos my) (ey - e)).
    assert (HX : X = Zpos mx * 2 ^ (ex - e)) by (apply Z.shiftl_mul_pow2; lia).
    assert (HY : Y = Zpos my * 2 ^ (ey - e)) by (apply Z.shiftl_mul_pow2; lia).
    assert (HpX : 0 < 2 ^ (ex - e)) by (apply Z.pow_pos_nonneg; lia).
    assert (HpY : 0 < 2 ^ (ey - e)) by (apply Z.pow_pos_nonneg; lia).
    assert (HXpos : 0 < X) by nia.
    assert (HYpos : 0 < Y) by nia.
    pose proof (Z.rem_bound_pos X Y ltac:(lia) HYpos) as Hrem.
    assert (Hle : Z.rem X Y <= X).
    { rewrite Z.rem_mod_nonneg by lia. apply Z.mod_le; lia. }
    assert (H53 : Z.rem X Y < 2 ^ 53).
    { pose proof (pos_lt_pow2_53 mx Hdx). pose proof (pos_lt_pow2_53 my Hdy).
      destruct (Z.le_ge_cases ex ey) as [Hc | Hc].
      - assert (ex - e = 0) by lia.
        assert (X = Zpos mx) by (rewrite HX; replace (ex - e) with 0 by lia; lia).
        lia.
      - assert (Y = Zpos my) by (rewrite HY; replace (ey - e) with 0 by lia; lia).
        lia. }
    assert (Hf : Double.finite_below (by_ + 2)
                   (Z.ldexp (of_uint63 (Uint63.of_Z (Z.rem X Y))) e)).
    { unfold Double.finite_below. rewrite Z_ldexp_spec, of_uint63_spec, Uint63.of_Z_spec.
      rewrite Z.mod_small by (change Uint63.wB with (2 ^ 63); lia).
      replace (by_ + 2) with ((by_ - e + 1) + e + 1) by lia.
      apply SFldexp_below; [| lia].
      apply below_pow2_weaken with (b := Zdigits2 (Z.rem X Y) + 0 + 1).
      - apply binary_normalize_below; [lia |].
        pose proof (Zdigits2_nonneg (Z.rem X Y)).
        destruct (Z.eq_dec (Z.rem X Y) 0) as [-> | Hnz]; [cbn; lia |].
        pose proof (Zdigits2_le (Z.rem X Y) 53 ltac:(lia) ltac:(lia) H53). lia.
      - destruct (Z.eq_dec (Z.rem X Y) 0) as [-> | Hnz]; [cbn; lia |].
        pose proof (Zdigits2_mono (Z.rem X Y) Y ltac:(lia) ltac:(lia)) as Hm.
        rewrite HY in Hm at 2.
        rewrite Zdigits2_shiftl in Hm by lia. cbn [Zdigits2] in Hm. lia. }
    destruct sx; [now apply opp_below | exact Hf].
Qed.

Lemma pymod_2_below (x : float) :
  (exists bx, Double.finite_below bx x) -> Double.finite_below 6 (Double.pymod x 2).
Proof.
  intros Hx. unfold Double.pymod.
  assert (Hr : Double.finite_below 4 (Double.fmod x 2)).
  { apply (fmod_below x 2 false 4503599627370496 (-51) 2); [reflexivity | cbn; lia | lia | exact Hx]. }
  destruct (is_zero (Double.fmod x 2)).
  - change (get_sign 2) with false. cbv iota. unfold Double.finite_below. exact I.
  - change (2 <? 0)%float with false. cbn [xorb].
    destruct (Double.fmod x 2 <? 0)%float.
    + apply (add_below _ _ 4); [exact Hr | unfold Double.finite_below; cbn; lia | lia].
    + now apply finite_below_weaken with (b := 4).
Qed.

Lemma py_int_total (x : float) (b : Z) :
  Double.finite_below b x -> exists n, Double.py_int x = Ok n.
Proof.
  unfold Double.finite_below, Double.py_int.
  destruct (Prim2SF x); cbn [Double.below_pow2]; try contradiction; intros _; eexists; reflexivity.
Qed.

Lemma py_int_zero (x : float) : Double.is_zero_value x -> Double.py_int x = Ok 0.
Proof. intros [s Hs]. unfold Double.py_int. now rewrite Hs. Qed.

Lemma mul_zero_r (x y : float) (b : Z) :
  Double.finite_below b x -> Double.is_zero_value y -> Double.is_zero_value (x * y).
Proof.
  unfold Double.finite_below, Double.is_zero_value. intros Hx [s Hy]. rewrite mul_spec, Hy.
  destruct (Prim2SF x); cbn [Double.below_pow2] in Hx; try contradiction;
    unfold SF64mul, SFmul; eexists; reflexivity.
Qed.

Lemma mul_zero_l (x y : float) (b : Z) :
  Double.is_zero_value x -> Double.finite_below b y -> Double.is_zero_value (x * y).
Proof.
  unfold Double.finite_below, Double.is_zero_value. intros [s Hx] Hy. rewrite mul_spec, Hx.
  destruct (Prim2SF y); cbn [Double.below_pow2] in Hy; try contradiction;
    unfold SF64mul, SFmul; eexists; reflexivity.
Qed.

Lemma add_zero_zero (x y : float) :
  Double.is_zero_value x -> Double.is_zero_value y -> Double.is_zero_value (x + y).
Proof.
  unfold Double.is_zero_value. intros [sx Hx] [sy Hy]. rewrite add_spec, Hx, Hy.
  unfold SF64add, SFadd. destruct sx, sy; eexists; reflexivity.
Qed.

Lemma sub_zero_zero (x y : float) :
  Double.is_zero_value x -> Double.is_zero_value y -> Double.is_zero_value (x - y).
Proof.
  unfold Double.is_zero_value. intros [sx Hx] [sy Hy]. rewrite sub_spec, Hx, Hy.
  unfold SF64sub, SFsub. destruct sx, sy; eexists; reflexivity.
Qed.

Lemma add_zero_l (z x : float) (s : bool) (m : positive) (e : Z) :
  Double.is_zero_value z -> Prim2SF x = S754_finite s m e -> (z + x)%float = x.
Proof.
  intros [sz Hz] Hx. apply Prim2SF_inj. rewrite add_spec, Hz, Hx. reflexivity.
Qed.

Lemma sub_zero_r (x z : float) (s : bool) (m : positive) (e : Z) :
  Prim2SF x = S754_finite s m e -> Double.is_zero_value z -> (x - z)%float = x.
Proof.
  intros Hx [sz Hz]. apply Prim2SF_inj. rewrite sub_spec, Hz, Hx. reflexivity.
Qed.

(** One channel of a colour without saturation. *)
Lemma grey_channel (v C z : float) :
  (0 <=? v)%float = true -> (v <=? 1)%float = true ->
  Double.is_zero_value C -> Double.is_zero_value z ->
  Double.py_int (255 * (z + (v - C))) = Double.py_int (255 * v).
Proof.
  intros H0 H1 HC Hz.
  assert (H255 : Double.finite_below 8 255) by (unfold Double.finite_below; cbn; lia).
  destruct (unit_interval v H0 H1) as [[s Hv] | (m & e & Hv & _)].
  - assert (Zv : Double.is_zero_value v) by (now exists s).
    rewrite !py_int_zero; [reflexivity | |].
    + now apply (mul_zero_r _ _ 8).
    + apply (mul_zero_r _ _ 8); [exact H255 |].
      apply add_zero_zero; [exact Hz |]. now apply sub_zero_zero.
  - rewrite (sub_zero_r v C false m e Hv HC).
    now rewrite (add_zero_l z v false m e Hz Hv).
Qed.

Lemma sector_members (C X Hp : float) :
  (Hp <? 6)%float = true ->
  exists a b c, Double.sector C X Hp = Some (a, b, c)
    /\ (a = C \/ a = X \/ a = 0%float)
    /\ (b = C \/ b = X \/ b = 0%float)
    /\ (c = C \/ c = X \/ c = 0%float).
Proof.
  intros H6. unfold Double.sector. rewrite H6.
  repeat match goal with
         | |- context [if ?t then _ else _] => destruct t
         end; do 3 eexists; (split; [reflexivity |]); auto.
Qed.


Lemma finite_lt (m q : positive) (e : Z) :
  SFltb (S754_finite false m e) (S754_finite false q e) = true -> Zpos m < Zpos q.
Proof.
  unfold SFltb, SFcompare. rewrite Z.compare_refl, Pos.compare_cont_spec.
  cbn [Pos.switch_Eq]. destruct (Pos.compare_spec m q); try discriminate. lia.
Qed.

Lemma scaled_hue_in_range (h : float) :
  (0 <=? h)%float = true -> (h <? 1)%float = true ->
  (0 <=? h * 6)%float = true /\ (h * 6 <? 6)%float = true.
Proof.
  intros H0 H1. rewrite leb_spec in H0. rewrite ltb_spec in H1.
  rewrite leb_spec, ltb_spec, mul_spec.
  change (Prim2SF 0) with (S754_zero false) in *.
  change (Prim2SF 1) with (S754_finite false 4503599627370496 (-52)) in H1.
  change (Prim2SF 6) with (S754_finite false 6755399441055744 (-50)).
  destruct (Prim2SF h) as [s | s | | s m e] eqn:Hh.
  - split; reflexivity.
  - destruct s; discriminate.
  - discriminate.
  - destruct s; [discriminate |].
    pose proof (Prim2SF_valid h) as Hv. rewrite Hh in Hv.
    cbn [SpecFloat.valid_binary] in Hv. unfold bounded, canonical_mantissa in Hv.
    apply andb_true_iff in Hv. destruct Hv as [Hc _].
    apply Z.eqb_eq in Hc. rewrite fexp_eq in Hc.
    assert (Hd : Zpos (digits2_pos m) <= 53) by lia.
    assert (He : e <= -53).
    { destruct (Z.compare_spec e (-52)) as [Heq | Hlt | Hgt].
      - exfalso. subst e. apply finite_lt in H1.
        pose proof (Zdigits2_le (Zpos m) 52 ltac:(lia) ltac:(lia) H1) as Hd52.
        cbn [Zdigits2] in Hd52. lia.
      - lia.
      - exfalso. unfold SFltb, SFcompare in H1.
        destruct (Z.compare_spec e (-52)); try discriminate; lia. }
    pose proof (pos_lt_pow2_53 m Hd) as Hm53.
    destruct (Z.eq_dec e (-53)) as [He53 | He53];
      [destruct (Z.eq_dec (Zpos m) 9007199254740991) as [Hmax | Hmax] |].
    { (* the largest double below 1: the product is worked out *)
      subst e. injection Hmax as ->. vm_compute. split; reflexivity. }
    all: unfold SF64mul, SFmul; cbn [xorb];
      destruct (binary_round_aux_cases false (Zpos (m * 6755399441055744)) (e + -50)
                  loc_Exact ltac:(lia))
        as (n1 & m1 & n2 & Hn1 & Hn2 & He1 & Hm1 & He2 & ->);
      change (Zdigits2 (Zpos (m * 6755399441055744)))
        with (Zpos (digits2_pos (m * 6755399441055744))) in He1;
      pose proof (Zdigits2_mul (Zpos m) 6755399441055744 ltac:(lia) ltac:(lia)) as HdP;
      change (Zdigits2 6755399441055744) with 53 in HdP;
      change (Zdigits2 (Zpos m * 6755399441055744))
        with (Zpos (digits2_pos (m * 6755399441055744))) in HdP;
      change (Zdigits2 (Zpos m)) with (Zpos (digits2_pos m)) in HdP;
      pose proof (pos_lt_pow2_digits (m * 6755399441055744)) as HltP;
      assert (HP : Zpos (m * 6755399441055744) = Zpos m * 6755399441055744)
        by reflexivity;
      pose proof (fun H => Zdigits2_shiftr (Zpos (m * 6755399441055744)) n1
                             ltac:(lia) Hn1 H) as Hsh;
      change (Zdigits2 (Zpos (m * 6755399441055744)))
        with (Zpos (digits2_pos (m * 6755399441055744))) in Hsh;
      set (P := Zpos (m * 6755399441055744)) in *;
      set (dP := Zpos (digits2_pos (m * 6755399441055744))) in *;
      clearbody P dP;
      assert (Hp1 : 0 < 2 ^ n1) by (apply Z.pow_pos_nonneg; lia);
      assert (Hp2 : 0 < 2 ^ n2) by (apply Z.pow_pos_nonneg; lia);
      assert (Hq0 : 0 <= P / 2 ^ n1) by (apply Z.div_pos; lia);
      assert (Hq53 : P / 2 ^ n1 < 2 ^ 53)
        by (destruct (Z.eq_dec (P / 2 ^ n1) 0) as [Hz | Hnz]; [rewrite Hz; lia |];
            specialize (Hsh ltac:(lia));
            destruct (P / 2 ^ n1) as [| q | q] eqn:Eq; try lia;
            cbn [Zdigits2] in Hsh; apply pos_lt_pow2_53; lia);
      assert (Hd1 : Zdigits2 m1 <= 54)
        by (destruct (Z.eq_dec m1 0) as [-> | Hnz]; [cbn; lia |];
            apply Zdigits2_le; lia);
      assert (Hd1' : m1 < 2 ^ 53 -> Zdigits2 m1 <= 53)
        by (intros Hlt; destruct (Z.eq_dec m1 0) as [-> | Hnz]; [cbn; lia |];
            apply Zdigits2_le; lia);
      assert (Hp0 : 0 <= m1 / 2 ^ n2) by (apply Z.div_pos; lia);
      assert (Hp : m1 / 2 ^ n2 <= m1) by (apply Z.div_le_upper_bound; nia);
      assert (Hp' : 1 <= n2 -> m1 / 2 ^ n2 <= 4503599627370496)
        by (intros Hge; apply Z.div_le_upper_bound; [lia |];
            assert (2 ^ 1 <= 2 ^ n2) by (apply Z.pow_le_mono_r; lia);
            change (2 ^ 1) with 2 in *; nia).
    + (* e = -53 and a smaller mantissa *)
      subst e.
      assert (Hcases : n1 = 53 \/ n1 <= 52) by lia.
      assert (Hfin : (-53 + -50 + n1 + n2 <=? 971) = true) by (apply Z.leb_le; lia).
      destruct Hcases as [-> | Hn52].
      * assert (Hq : P / 2 ^ 53 < 6755399441055743)
          by (apply Z.div_lt_upper_bound; lia).
        assert (Hm1' : m1 < 6755399441055744) by lia.
        specialize (Hd1' ltac:(lia)).
        assert (n2 = 0) by lia. subst n2.
        rewrite Z.div_1_r in *.
        destruct m1 as [| p | p]; [split; reflexivity | | lia].
        rewrite Hfin. change (-53 + -50 + 53 + 0) with (-50).
        split; [reflexivity |].
        unfold SFltb, SFcompare. rewrite Z.compare_refl, Pos.compare_cont_spec.
        cbn [Pos.switch_Eq].
        destruct (Pos.compare_spec p 6755399441055744); try reflexivity; lia.
      * destruct (m1 / 2 ^ n2) as [| p | p] eqn:Ep; [split; reflexivity | | lia].
        rewrite Hfin. split; [reflexivity |].
        unfold SFltb, SFcompare.
        destruct (Z.compare_spec (-53 + -50 + n1 + n2) (-50)) as [Heq | Hlt | Hgt];
          [| reflexivity | lia].
        rewrite Pos.compare_cont_spec. cbn [Pos.switch_Eq].
        specialize (Hp' ltac:(lia)).
        destruct (Pos.compare_spec p 6755399441055744); try reflexivity; lia.
    + assert (He54 : e <= -54) by lia.
      assert (Hfin : (e + -50 + n1 + n2 <=? 971) = true) by (apply Z.leb_le; lia).
      destruct (m1 / 2 ^ n2) as [| p | p] eqn:Ep; [split; reflexivity | | lia].
      rewrite Hfin. split; [reflexivity |].
      unfold SFltb, SFcompare.
      destruct (Z.compare_spec (e + -50 + n1 + n2) (-50)) as [Heq | Hlt | Hgt];
        [| reflexivity | lia].
      rewrite Pos.compare_cont_spec. cbn [Pos.switch_Eq].
      specialize (Hp' ltac:(lia)).
      destruct (Pos.compare_spec p 6755399441055744); try reflexivity; lia.
Qed.

(** ** Integers and their reciprocals *)

(** A positive integer scaled by a power of two above the smallest one
    rounds to a positive double or, beyond the largest double, to infinity;
    the double is in canonical form. *)
Lemma binary_round_shape (s : bool) (m : positive) (e : Z) :
  -1074 <= e ->
  (exists p e', binary_round prec emax s m e = S754_finite s p e'
                /\ bounded prec emax p e' = true
                /\ Z.max (Zpos (digits2_pos m) + e - 53) (-1074) <= e')
  \/ binary_round prec emax s m e = S754_infinity s.
Proof.
  intros Hmin. unfold binary_round.
  pose proof (shl_align_digits m e (fexp prec emax (Zpos (digits2_pos m) + e))) as Hd.
  assert (Hez : snd (shl_align m e (fexp prec emax (Zpos (digits2_pos m) + e)))
                = Z.min e (fexp prec emax (Zpos (digits2_pos m) + e))).
  { unfold shl_align.
    destruct (fexp prec emax (Zpos (digits2_pos m) + e) - e) eqn:E; cbn [snd]; lia. }
  destruct (shl_align m e (fexp prec emax (Zpos (digits2_pos m) + e))) as [mz ez].
  cbn [fst snd] in Hd, Hez. rewrite fexp_eq in Hez.
  destruct (binary_round_aux_cases s (Zpos mz) ez loc_Exact ltac:(lia))
    as (n1 & m1 & n2 & Hn1 & Hn2 & He1 & Hm1 & He2 & ->).
  cbn [Zdigits2] in He1.
  pose proof (digits2_log2 mz) as Hlz.
  assert (Hlz0 : 0 <= Z.log2 (Zpos mz)) by apply Z.log2_nonneg.
  assert (Hp1 : 0 < 2 ^ n1) by (apply Z.pow_pos_nonneg; lia).
  assert (Hp2 : 0 < 2 ^ n2) by (apply Z.pow_pos_nonneg; lia).
  (* the first shift leaves at most 53 digits, and at least one *)
  assert (Hq : 0 < Zpos mz / 2 ^ n1).
  { apply Z.div_str_pos. split; [lia |]. apply Z.log2_le_pow2; lia. }
  pose proof (Zdigits2_shiftr (Zpos mz) n1 ltac:(lia) Hn1 Hq) as Hsh.
  cbn [Zdigits2] in Hsh.
  assert (Hm1pos : 0 < m1) by lia.
  assert (Hdm1 : Zdigits2 (Zpos mz / 2 ^ n1) <= Zdigits2 m1 <= Zdigits2 (Zpos mz / 2 ^ n1) + 1).
  { split; [apply Zdigits2_mono; lia |].
    destruct (Z.eq_dec m1 (Zpos mz / 2 ^ n1)) as [-> | ?]; [lia |].
    replace m1 with (Zpos mz / 2 ^ n1 + 1) by lia. apply Zdigits2_succ. lia. }
  assert (Hl1 : 0 <= Z.log2 m1) by apply Z.log2_nonneg.
  assert (Hq2 : 0 < m1 / 2 ^ n2).
  { apply Z.div_str_pos. split; [lia |].
    rewrite (Zdigits2_log2 m1) in * by lia.
    apply Z.log2_le_pow2; lia. }
  pose proof (Zdigits2_shiftr m1 n2 Hm1pos Hn2 Hq2) as Hsh2.
  destruct (m1 / 2 ^ n2) as [| p | p] eqn:Ep; try lia.
  cbn [Zdigits2] in Hsh2.
  destruct (ez + n1 + n2 <=? 971) eqn:Hle; [left | now right].
  apply Z.leb_le in Hle.
  exists p, (ez + n1 + n2).
  split; [reflexivity |]. split; [| lia].
  unfold bounded, canonical_mantissa. rewrite fexp_eq.
  apply andb_true_iff. split; [apply Z.eqb_eq | apply Z.leb_le; change (emax - prec) with 971; lia].
  lia.
Qed.

(** The double of a positive [int]: at least 1, hence with an exponent of
    at least -52, or infinity. *)
Lemma float_of_nat_shape (n : nat) :
  (1 <= n)%nat ->
  (exists p e, Prim2SF (Double.float_of_nat n) = S754_finite false p e
               /\ Zpos (digits2_pos p) <= 53 /\ -52 <= e)
  \/ Prim2SF (Double.float_of_nat n) = S754_infinity false.
Proof.
  intros Hn. unfold Double.float_of_nat, Double.float_of_Z.
  destruct (Z.of_nat n) as [| m | m] eqn:En; try lia.
  cbn [binary_normalize].
  destruct (binary_round_shape false m 0 ltac:(lia)) as [(p & e & -> & Hb & He) | ->].
  - left. exists p, e. rewrite Prim2SF_SF2Prim by exact Hb.
    split; [reflexivity |].
    unfold bounded, canonical_mantissa in Hb. rewrite fexp_eq in Hb.
    apply andb_true_iff in Hb. destruct Hb as [Hc _]. apply Z.eqb_eq in Hc.
    pose proof (digits2_log2 m) as Hl. pose proof (Z.log2_nonneg (Zpos m)). lia.
  - right. apply Prim2SF_SF2Prim. reflexivity.
Qed.

(** Hence [1 / len(colours)] is a double of [0, 1]: zero or positive, and
    finite. *)
Lemma reciprocal_shape (n : nat) :
  (1 <= n)%nat ->
  Prim2SF (1 / Double.float_of_nat n) = S754_zero false
  \/ exists q e, Prim2SF (1 / Double.float_of_nat n) = S754_finite false q e.
Proof.
  intros Hn. rewrite div_spec.
  change (Prim2SF 1) with (S754_finite false 4503599627370496 (-52)).
  destruct (float_of_nat_shape n Hn) as [(p & e & -> & Hp & He) | ->];
    [| left; reflexivity].
  unfold SF64div, SFdiv, SFdiv_core_binary. cbn [xorb].
  set (e' := Z.min _ _).
  set (m' := match _ with Z0 => _ | Zpos _ => _ | Zneg _ => _ end).
  assert (He' : e' <= -52 - e) by (unfold e'; lia).
  assert (Hm' : 0 < m' /\ Zdigits2 m' + e' = 1 - e).
  { assert (Hone : Zdigits2 4503599627370496 = 53) by reflexivity.
    unfold m'. destruct (-52 - e - e') as [| s | s] eqn:Es; [| | lia].
    - lia.
    - rewrite Z.shiftl_mul_pow2 by lia.
      rewrite Zdigits2_shiftl by lia.
      split; [| lia]. apply Z.mul_pos_pos; [lia | apply Z.pow_pos_nonneg; lia]. }
  clearbody m' e'. destruct Hm' as [Hm0 Hmd].
  pose proof (Z.div_eucl_eq m' (Zpos p) ltac:(lia)) as Hdiv.
  pose proof (Z.mod_pos_bound m' (Zpos p) ltac:(lia)) as Hmod.
  unfold Z.modulo in Hmod.
  destruct (Z.div_eucl m' (Zpos p)) as [q r].
  assert (Hq : 0 <= q <= m') by nia.
  assert (Hdq : Zdigits2 q + e' <= 53).
  { destruct (Z.eq_dec q 0) as [-> | ?]; [cbn; lia |].
    pose proof (Zdigits2_mono q m' ltac:(lia) ltac:(lia)). lia. }
  destruct (binary_round_aux_below false q e' (new_location (Zpos p) r) 53
              ltac:(lia) Hdq ltac:(lia)) as [_ [Hz | (q' & e'' & Hf)]].
  - left. exact Hz.
  - right. eauto.
Qed.

End Rounding.

Section DoubleResults.
Import Floats QArith Qabs.
#[local] Set Warnings "-inexact-float".
#[local] Open Scope float_scope.

(** ** HSV to RGB conversion in doubles *)

Lemma scaled_hue_finite (x : float) :
  (0 <=? x) = true -> (x <? 6) = true -> exists b, Double.finite_below b x.
Proof.
  intros H0 H6. rewrite leb_spec in H0. rewrite ltb_spec in H6.
  change (Prim2SF 0) with (S754_zero false) in H0.
  change (Prim2SF 6) with (S754_finite false 6755399441055744 (-50)) in H6.
  unfold Double.finite_below.
  destruct (Prim2SF x) as [s | s | | s m e].
  - exists 0%Z. exact I.
  - destruct s; discriminate.
  - discriminate.
  - exists (Zpos (digits2_pos m) + e)%Z. cbn. lia.
Qed.

(** C5, as amended: a colour without saturation, of value V in [0, 1] and
    hue in [0, 1), converts to a grey whose three channels are all
    [int(255 * V)]: the double product 255 * V, truncated towards zero and
    not rounded to the nearest integer; the hue plays no part. *)
Theorem grey_conversion_truncates (h v : float) :
  (0 <=? h) = true -> (h <? 1) = true ->
  (0 <=? v) = true -> (v <=? 1) = true ->
  exists n,
    Double.py_int (255 * v) = Ok n
    /\ Double.getRGBAColour (Double.mkHSV h 0 v) = Ok (Colour3 n n n).
Proof.
  intros Hh0 Hh1 Hv0 Hv1.
  destruct (scaled_hue_in_range h Hh0 Hh1) as [Hs0 Hs6].
  assert (Hone : Double.finite_below 6 1) by (unfold Double.finite_below; cbn; lia).
  assert (H255 : Double.finite_below 8 255) by (unfold Double.finite_below; cbn; lia).
  assert (Hvb : Double.finite_below 1 v).
  { unfold Double.finite_below.
    destruct (unit_interval v Hv0 Hv1) as [[s ->] | (m & e & -> & Hd)]; cbn; auto. }
  destruct (py_int_total (255 * v) 10) as [n Hn].
  { apply (mul_below 255 v 8 1); [exact H255 | exact Hvb | lia]. }
  exists n. split; [exact Hn |].
  unfold Double.getRGBAColour. cbn [Double.H Double.S Double.V].
  set (C := v * 0).
  set (w := 1 - abs (Double.pymod (h * 6) 2 - 1)).
  assert (HC : Double.is_zero_value C).
  { apply (mul_zero_r v 0 1 Hvb). now exists false. }
  assert (Hw : Double.finite_below 10 w).
  { apply (sub_below 1 _ 8);
      [now apply finite_below_weaken with (b := 6%Z) | | lia].
    apply abs_below. apply (sub_below _ 1 6); [| exact Hone | lia].
    apply pymod_2_below. now apply scaled_hue_finite. }
  assert (HX : Double.is_zero_value (C * w)) by now apply (mul_zero_l C w 10).
  assert (H0 : Double.is_zero_value 0) by now exists false.
  destruct (sector_members C (C * w) (h * 6) Hs6) as (a & b & c & -> & Ha & Hb & Hc).
  assert (Za : Double.is_zero_value a) by (destruct Ha as [-> | [-> | ->]]; assumption).
  assert (Zb : Double.is_zero_value b) by (destruct Hb as [-> | [-> | ->]]; assumption).
  assert (Zc : Double.is_zero_value c) by (destruct Hc as [-> | [-> | ->]]; assumption).
  rewrite !grey_channel by assumption.
  rewrite Hn. reflexivity.
Qed.

(** At V = 1/255, the default [minV], the double product 255 * V is exactly
    1 and the channels are 1. *)
Lemma grey_conversion_truncates_witness :
  Double.getRGBAColour (Double.mkHSV 0.3 0 (1 / 255)) = Ok (Colour3 1 1 1).
Proof.
  destruct (grey_conversion_truncates 0.3 (1 / 255) eq_refl eq_refl eq_refl eq_refl)
    as (n & Hn & Hc).
  vm_compute in Hn. injection Hn as <-. exact Hc.
Defined.

(** C5 as stated fails: at V = 0.01 the channels are 2, while 255 * V
    = 2.55 rounds to 3. *)
Lemma grey_conversion_not_rounded :
  ~ (forall h v : float,
       (0 <=? v) = true -> (v <=? 1) = true ->
       Double.getRGBAColour (Double.mkHSV h 0 v)
       = Ok (Colour3 (Double.nearest_int (255 * v)) (Double.nearest_int (255 * v))
                     (Double.nearest_int (255 * v)))).
Proof.
  intros Hclaim.
  specialize (Hclaim 0 0.01 eq_refl eq_refl).
  vm_compute in Hclaim. discriminate Hclaim.
Qed.

Lemma py_int_not_unbound (x : float) : Double.py_int x <> Raise UnboundLocalError.
Proof. unfold Double.py_int. destruct (Prim2SF x); discriminate. Qed.

(** X17: on a colour whose hue is a double in [0, 1) the conversion always
    finds one of the six sectors: [H * 6], rounded, stays below 6, so the
    [else] branch with its diagnostic is not reached and no
    UnboundLocalError is raised, whatever S and V are. *)
Theorem conversion_finds_sector (c : Double.HSVColour) :
  (0 <=? Double.H c) = true -> (Double.H c <? 1) = true ->
  (Double.H c * 6 <? 6) = true
  /\ Double.getRGBAColour c <> Raise UnboundLocalError.
Proof.
  intros H0 H1. destruct (scaled_hue_in_range (Double.H c) H0 H1) as [_ H6].
  split; [exact H6 |].
  unfold Double.getRGBAColour.
  destruct (sector_members (Double.V c * Double.S c)
              (Double.V c * Double.S c
               * (1 - abs (Double.pymod (Double.H c * 6) 2 - 1)))
              (Double.H c * 6) H6) as (a & b & d & -> & _).
  destruct (Double.py_int _) as [r | x] eqn:Hr;
    [| intros [= ->]; now apply py_int_not_unbound in Hr].
  destruct (Double.py_int (255 * (b + _))) as [g | x] eqn:Hg;
    [| intros [= ->]; now apply py_int_not_unbound in Hg].
  destruct (Double.py_int (255 * (d + _))) as [bl | x] eqn:Hb;
    [discriminate | intros [= ->]; now apply py_int_not_unbound in Hb].
Qed.

(** The largest double below 1 is still converted. *)
Lemma conversion_finds_sector_witness :
  Double.getRGBAColour (Double.mkHSV 0.9999999999999999 1 1)
  <> Raise UnboundLocalError.
Proof.
  exact (proj2 (conversion_finds_sector (Double.mkHSV 0.9999999999999999 1 1)
                  eq_refl eq_refl)).
Defined.

(** ** The hue-spreading generator in doubles *)

Lemma nth_error_map_seq {A : Type} (f : nat -> A) (k i : nat) :
  (i < k)%nat -> nth_error (map f (seq 0 k)) i = Some (f i).
Proof.
  intros Hi. rewrite nth_error_map, nth_error_seq.
  destruct (Nat.ltb_spec i k) as [_ | Hge]; [reflexivity | lia].
Qed.

Lemma float_neq (x y : float) : Prim2SF x <> Prim2SF y -> x <> y.
Proof. intros Hne Heq. apply Hne. now rewrite Heq. Qed.

(** C2, as amended: the generator returns exactly [k] colours with S = 0.99
    and V = 0.7, the i-th hue being [(0.6 + distance * i) % 1] worked out in
    doubles; five colours at distance 0.2 have the hues 0.6, 0.8, 0.0,
    0.20000000000000018 and 0.3999999999999999, each within 2^-52 of 0.6, 0.8,
    0, 0.2 and 0.4; and when the distance is left at its default -1 the step
    is the double 2.0 / (1 + sqrt 5), which gives 0.6, 0.21803398874989477,
    0.8360679774997894, 0.45410196624968435, ... *)
Theorem generateSpreadColours_spec :
  (forall k d, length (Double.generateSpreadColours k d) = k)
  /\ (forall k d i, (d =? -1) = false -> (i < k)%nat ->
        nth_error (Double.generateSpreadColours k d) i
        = Some (Double.mkHSV (Double.pymod (0.6 + d * Double.float_of_nat i) 1)
                             0.99 0.7))
  /\ map Double.H (Double.generateSpreadColours 5 0.2)
     = [0.6; 0.8; 0; 0.20000000000000018; 0.3999999999999999]
  /\ Forall2 (fun h q => (Qabs (Double.exact h - q) <= 1 # 4503599627370496)%Q)
       (map Double.H (Double.generateSpreadColours 5 0.2))
       [3 # 5; 4 # 5; 0; 1 # 5; 2 # 5]%Q
  /\ (forall k i, (i < k)%nat ->
        nth_error (Double.generateSpreadColours k (-1)) i
        = Some (Double.mkHSV
                  (Double.pymod (0.6 + 2 / (1 + sqrt 5) * Double.float_of_nat i) 1)
                  0.99 0.7))
  /\ map Double.H (Double.generateSpreadColours 4 (-1))
     = [0.6; 0.21803398874989477; 0.8360679774997894; 0.45410196624968435].
Proof.
  split; [| split; [| split; [| split; [| split]]]].
  - intros k d. unfold Double.generateSpreadColours.
    now rewrite length_map, length_seq.
  - intros k d i Hd Hi. unfold Double.generateSpreadColours. rewrite Hd.
    now apply (nth_error_map_seq
      (fun x => Double.mkHSV (Double.pymod (0.6 + d * Double.float_of_nat x) 1)
                  0.99 0.7)).
  - vm_compute. reflexivity.
  - assert (Hh : map Double.H (Double.generateSpreadColours 5 0.2)
                 = [0.6; 0.8; 0; 0.20000000000000018; 0.3999999999999999])
      by (vm_compute; reflexivity).
    rewrite Hh.
    repeat constructor; unfold Qle; vm_compute; discriminate.
  - intros k i Hi. unfold Double.generateSpreadColours.
    change (-1 =? -1) with true. cbv iota.
    now apply (nth_error_map_seq
      (fun x => Double.mkHSV
         (Double.pymod (0.6 + Double.golden_step * Double.float_of_nat x) 1)
         0.99 0.7)).
  - vm_compute. reflexivity.
Qed.

Lemma generateSpreadColours_spec_witness :
  length (Double.generateSpreadColours 3 0.1) = 3%nat
  /\ nth_error (Double.generateSpreadColours 3 0.1) 2
     = Some (Double.mkHSV (Double.pymod (0.6 + 0.1 * Double.float_of_nat 2) 1)
               0.99 0.7).
Proof.
  destruct generateSpreadColours_spec as (Hlen & Hnth & _).
  split.
  - apply Hlen.
  - apply Hnth; [reflexivity | lia].
Defined.

(** C2 as stated fails: the fourth and the fifth hue of five colours at
    distance 0.2 are not the doubles 0.2 and 0.4. *)
Lemma spread_of_five_not_exact :
  map Double.H (Double.generateSpreadColours 5 0.2) <> [0.6; 0.8; 0; 0.2; 0.4].
Proof.
  intros Heq.
  assert (H3 : nth 3 (map Double.H (Double.generateSpreadColours 5 0.2)) 0 = 0.2)
    by now rewrite Heq.
  revert H3. apply float_neq. vm_compute. discriminate.
Qed.

(** ** SpreadResetEffect in doubles *)

(** C9, as amended: on three colours, with a bound and non-empty device
    list, the step returns three colours with S = 0.99 and V = 0.7 and the
    hues 0.6, 0.9333333333333333 and 0.2666666666666666, whatever the colours
    were: each hue follows its predecessor at the double 1/3 modulo 1, so
    that the three distances around the hue circle are 1/3 up to a rounding
    error of at most 2^-53 each. *)
Theorem spread_reset_three (k : nat) (c0 c1 c2 : Double.HSVColour) :
  (1 <= k)%nat ->
  Double.SpreadResetEffect_step (Some k) [c0; c1; c2]
  = ([Double.mkHSV 0.6 0.99 0.7;
      Double.mkHSV 0.9333333333333333 0.99 0.7;
      Double.mkHSV 0.2666666666666666 0.99 0.7], None)
  /\ Double.pymod (0.6 + 1 / 3) 1 = 0.9333333333333333
  /\ Double.pymod (0.9333333333333333 + 1 / 3) 1 = 0.2666666666666666
  /\ (Qabs (Double.hue_gap 0.6 0.9333333333333333 - (1 # 3))
      <= 1 # 9007199254740992)%Q
  /\ (Qabs (Double.hue_gap 0.9333333333333333 0.2666666666666666 - (1 # 3))
      <= 1 # 9007199254740992)%Q
  /\ (Qabs (Double.hue_gap 0.2666666666666666 0.6 - (1 # 3))
      <= 1 # 9007199254740992)%Q.
Proof.
  intros Hk. destruct k as [| k]; [lia |].
  split; [| split; [| split; [| split; [| split]]]].
  - unfold Double.SpreadResetEffect_step, Double.generateSpreadColours.
    cbn [seq map length]. reflexivity.
  - vm_compute. reflexivity.
  - vm_compute. reflexivity.
  - unfold Qle. vm_compute. discriminate.
  - unfold Qle. vm_compute. discriminate.
  - unfold Qle. vm_compute. discriminate.
Qed.

Lemma spread_reset_three_witness :
  Double.SpreadResetEffect_step (Some 3%nat)
    [Double.mkHSV 0 1 0; Double.mkHSV 0 1 0; Double.mkHSV 0.5 0 1]
  = ([Double.mkHSV 0.6 0.99 0.7;
      Double.mkHSV 0.9333333333333333 0.99 0.7;
      Double.mkHSV 0.2666666666666666 0.99 0.7], None).
Proof.
  assert (Hk : (1 <= 3)%nat) by lia.
  exact (proj1 (spread_reset_three 3 (Double.mkHSV 0 1 0) (Double.mkHSV 0 1 0)
                  (Double.mkHSV 0.5 0 1) Hk)).
Defined.

(** C9 as stated fails: the hues that the step leaves on three colours are
    not exactly 1/3 apart, and the first two distances even differ. *)
Lemma spread_reset_not_exact :
  exists a b c,
    Double.SpreadResetEffect_step (Some 3%nat)
      [Double.mkHSV 0 1 0; Double.mkHSV 0 1 0; Double.mkHSV 0 1 0]
    = ([a; b; c], None)
    /\ ~ (Double.hue_gap (Double.H a) (Double.H b) == 1 # 3)%Q
    /\ ~ (Double.hue_gap (Double.H b) (Double.H c) == 1 # 3)%Q
    /\ ~ (Double.hue_gap (Double.H a) (Double.H b)
          == Double.hue_gap (Double.H b) (Double.H c))%Q.
Proof.
  do 3 eexists. split; [vm_compute; reflexivity |].
  cbn [Double.H].
  repeat split; unfold Qeq; vm_compute; discriminate.
Qed.

(** The first colour of a spread whose distance is [1 / n]: the product of
    the distance by 0 is a zero, and adding a zero leaves 0.6. *)
Lemma spread_first (k n : nat) :
  (1 <= n)%nat ->
  Double.generateSpreadColours (Datatypes.S k) (1 / Double.float_of_nat n)
  = Double.mkHSV 0.6 0.99 0.7
    :: map (fun x =>
              Double.mkHSV
                (Double.pymod (0.6 + 1 / Double.float_of_nat n * Double.float_of_nat x) 1)
                0.99 0.7)
         (seq 1 k).
Proof.
  intros Hn. unfold Double.generateSpreadColours.
  set (d := 1 / Double.float_of_nat n).
  assert (Hd : Prim2SF d = S754_zero false \/ exists q e, Prim2SF d = S754_finite false q e)
    by apply (reciprocal_shape n Hn).
  assert (Hne : (d =? -1) = false).
  { rewrite FloatAxioms.eqb_spec. destruct Hd as [-> | (q & e & ->)]; reflexivity. }
  rewrite Hne. cbn [seq map]. f_equal. f_equal.
  assert (Hz : Prim2SF (d * Double.float_of_nat 0) = S754_zero false).
  { rewrite mul_spec. destruct Hd as [-> | (q & e & ->)]; reflexivity. }
  assert (Hs : 0.6 + d * Double.float_of_nat 0 = 0.6).
  { apply Prim2SF_inj. rewrite add_spec, Hz. reflexivity. }
  rewrite Hs. reflexivity.
Qed.

(** The chain built by [SpreadResetEffect.step] behind the first colour. *)
Lemma double_spread_chain_spec (d s0 v0 : float) (rest : list Double.HSVColour) :
  forall prev : Double.HSVColour,
  Double.S prev = s0 -> Double.V prev = v0 ->
  length (Double.spread_chain d prev rest) = length rest
  /\ Forall (fun c => Double.S c = s0 /\ Double.V c = v0) (Double.spread_chain d prev rest)
  /\ (forall i a b,
        nth_error (prev :: Double.spread_chain d prev rest) i = Some a ->
        nth_error (prev :: Double.spread_chain d prev rest) (Datatypes.S i) = Some b ->
        Double.H b = Double.pymod (Double.H a + d) 1)
  /\ (forall rest2, length rest2 = length rest ->
        Double.spread_chain d prev rest2 = Double.spread_chain d prev rest).
Proof.
  induction rest as [| c rest IH]; intros prev HS HV; cbn [Double.spread_chain length].
  - repeat split.
    + constructor.
    + intros [| i] a b Ha Hb; cbn in Hb; [discriminate | destruct i; discriminate].
    + intros [| c2 rest2] Hlen; [reflexivity | discriminate].
  - set (c' := Double.setHSV c (Double.pymod (Double.H prev + d) 1)
                 (Double.S prev) (Double.V prev)).
    destruct (IH c') as (Hlen & Hall & Hchain & Hind);
      [cbn; exact HS | cbn; exact HV |].
    repeat split.
    + now rewrite Hlen.
    + constructor; [cbn; auto | exact Hall].
    + intros [| i] a b Ha Hb.
      * cbn in Ha, Hb. injection Ha as <-. injection Hb as <-. reflexivity.
      * cbn [nth_error] in Ha, Hb. now apply (Hchain i).
    + intros [| c2 rest2] Hl; [discriminate |]. cbn [Double.spread_chain].
      fold c'.
      change (Double.setHSV c2 (Double.pymod (Double.H prev + d) 1)
                (Double.S prev) (Double.V prev)) with c'.
      f_equal. apply Hind. cbn in Hl. lia.
Qed.

(** X15: on a non-empty colour sequence, with a non-empty device list,
    SpreadResetEffect.step raises nothing and overwrites every colour: the
    first becomes (0.6, 0.99, 0.7), every later one takes the S and V of its
    predecessor and the hue (H_prev + 1/len(colours)) % 1, as the doubles
    compute it.  What it leaves depends on the number of colours only, not on
    their values nor on the number of devices.  Without colours it raises
    ZeroDivisionError, with [devices] unbound NameError, with no device
    IndexError, and then no colour is changed. *)
Theorem spread_reset_regenerates (cs : list Double.HSVColour) :
  (forall k, cs <> [] -> (1 <= k)%nat ->
     exists cs',
       Double.SpreadResetEffect_step (Some k) cs = (cs', None)
       /\ length cs' = length cs
       /\ nth_error cs' 0 = Some (Double.mkHSV 0.6 0.99 0.7)
       /\ Forall (fun c => Double.S c = 0.99 /\ Double.V c = 0.7) cs'
       /\ (forall i a b,
             nth_error cs' i = Some a -> nth_error cs' (Datatypes.S i) = Some b ->
             Double.H b
             = Double.pymod (Double.H a + 1 / Double.float_of_nat (length cs)) 1)
       /\ (forall k2 cs2, (1 <= k2)%nat -> length cs2 = length cs ->
             Double.SpreadResetEffect_step (Some k2) cs2 = (cs', None)))
  /\ (forall devices,
        Double.SpreadResetEffect_step devices [] = ([], Some ZeroDivisionError))
  /\ (cs <> [] ->
      Double.SpreadResetEffect_step None cs = (cs, Some NameError)
      /\ Double.SpreadResetEffect_step (Some 0%nat) cs = (cs, Some IndexError)).
Proof.
  split; [| split].
  - intros k Hne Hk. destruct cs as [| c0 rest]; [contradiction |].
    set (d := 1 / Double.float_of_nat (length (c0 :: rest))).
    assert (Hfirst : forall k1 c rest1, (1 <= k1)%nat -> length rest1 = length rest ->
              Double.SpreadResetEffect_step (Some k1) (c :: rest1)
              = (Double.mkHSV 0.6 0.99 0.7
                   :: Double.spread_chain d (Double.mkHSV 0.6 0.99 0.7) rest1, None)).
    { intros k1 c rest1 Hk1 Hl. destruct k1 as [| k1]; [lia |].
      unfold Double.SpreadResetEffect_step.
      replace (length (c :: rest1)) with (length (c0 :: rest)) by (cbn; lia).
      fold d. unfold d at 1. rewrite spread_first by (cbn; lia). reflexivity. }
    destruct (double_spread_chain_spec d 0.99 0.7 rest
                (Double.mkHSV 0.6 0.99 0.7) eq_refl eq_refl)
      as (Hlen & Hall & Hchain & Hind).
    eexists. split; [apply (Hfirst k c0 rest Hk eq_refl) |].
    split; [cbn [length]; now rewrite Hlen |].
    split; [reflexivity |].
    split; [constructor; [cbn; auto | exact Hall] |].
    split; [exact Hchain |].
    intros k2 cs2 Hk2 Hl. destruct cs2 as [| c2 rest2]; [discriminate |].
    rewrite (Hfirst k2 c2 rest2 Hk2) by (cbn in Hl; lia).
    f_equal. f_equal. apply Hind. cbn in Hl. lia.
  - intros devices. reflexivity.
  - intros Hne. destruct cs as [| c0 rest]; [contradiction |]. split; reflexivity.
Qed.

Lemma spread_reset_regenerates_witness :
  (exists cs',
     Double.SpreadResetEffect_step (Some 2%nat)
       [Double.mkHSV 0 0 0; Double.mkHSV 0.5 0 1] = (cs', None)
     /\ nth_error cs' 0 = Some (Double.mkHSV 0.6 0.99 0.7)
     /\ Double.SpreadResetEffect_step (Some 5%nat)
          [Double.mkHSV 0 0 0; Double.mkHSV 0 0 0] = (cs', None))
  /\ Double.SpreadResetEffect_step None [Double.mkHSV 0 0 0]
     = ([Double.mkHSV 0 0 0], Some NameError).
Proof.
  destruct (spread_reset_regenerates [Double.mkHSV 0 0 0; Double.mkHSV 0.5 0 1])
    as (Hok & _ & _).
  destruct (spread_reset_regenerates [Double.mkHSV 0 0 0]) as (_ & _ & Herr).
  split.
  - destruct (Hok 2%nat) as (cs' & Hs & _ & H0 & _ & _ & Hind);
      [discriminate | lia |].
    exists cs'. split; [exact Hs |]. split; [exact H0 |].
    apply Hind; [lia | reflexivity].
  - apply Herr. discriminate.
Defined.

(** ** HSVCycleEffect in doubles, under any C library *)

Section CycleInDoubles.
Variables libm_sin libm_asin : float -> float.

Lemma math_1_ok (f : float -> float) (x r : float) :
  Double.math_1 f x = Ok r -> r = f x.
Proof.
  unfold Double.math_1.
  destruct (is_nan (f x) && negb (is_nan x)); [discriminate |].
  destruct (is_infinity (f x) && is_finite x); [discriminate |].
  now intros [= <-].
Qed.

Lemma double_asin_all_ok (f : Double.HSVColour -> float) (cs : list Double.HSVColour)
    (l : list float) :
  Double.asin_all libm_asin f cs = Ok l -> l = map (fun c => libm_asin (f c)) cs.
Proof.
  revert l. induction cs as [| c cs IH]; intros l; cbn [Double.asin_all map].
  - now intros [= <-].
  - destruct (Double.math_asin libm_asin (f c)) as [a | x] eqn:Ha; [| discriminate].
    destruct (Double.asin_all libm_asin f cs) as [l' | x]; [| discriminate].
    intros [= <-]. apply math_1_ok in Ha. now rewrite Ha, (IH l' eq_refl).
Qed.

Lemma double_wave_ok (lo range phase w : float) :
  Double.wave libm_sin lo range phase = Ok w ->
  w = lo + range * (1 + libm_sin phase) / 2.
Proof.
  unfold Double.wave. destruct (Double.math_sin libm_sin phase) as [s | x] eqn:Hs; [| discriminate].
  intros [= <-]. apply math_1_ok in Hs. now rewrite Hs.
Qed.

Lemma double_hc_update_ok (e0 : Double.HSVCycleEffect) (k : nat) (cs0 : list Double.HSVColour)
    (c0 c c' : Double.HSVColour) :
  Double.hc_update libm_sin (Double.cycle_at libm_asin e0 (Datatypes.S k) cs0) c
    (libm_asin (Double.S c0)) (libm_asin (Double.V c0)) = (c', None) ->
  Double.H c = Double.H (Double.cycled libm_sin libm_asin e0 k c0) ->
  c' = Double.cycled libm_sin libm_asin e0 (Datatypes.S k) c0.
Proof.
  unfold Double.hc_update. cbn [Double.cycle_at Double.hc_dH Double.hc_dS Double.hc_dV
    Double.hc_nsteps Double.hc_minS Double.hc_Srange Double.hc_minV Double.hc_Vrange].
  intros Hu Hh.
  destruct (Double.wave libm_sin _ _ _) as [s | x] eqn:Hs in Hu; [| discriminate].
  destruct (Double.wave libm_sin _ _ _) as [v | x] eqn:Hv in Hu; [| discriminate].
  injection Hu as <-. apply double_wave_ok in Hs, Hv. subst s v.
  unfold Double.cycled, Double.setV, Double.setS, Double.setH.
  cbn [Double.H Double.S Double.V Nat.iter]. rewrite Hh. reflexivity.
Qed.

Lemma double_hc_loop_ok (e0 : Double.HSVCycleEffect) (k : nat) (cs0 all : list Double.HSVColour)
    (cs cs' : list Double.HSVColour) :
  length cs = length cs0 ->
  map Double.H cs = map (fun c0 => Double.H (Double.cycled libm_sin libm_asin e0 k c0)) cs0 ->
  Double.hc_loop libm_sin (Double.cycle_at libm_asin e0 (Datatypes.S k) all) cs
    (map (fun c => libm_asin (Double.S c)) cs0)
    (map (fun c => libm_asin (Double.V c)) cs0) = (cs', None) ->
  cs' = map (Double.cycled libm_sin libm_asin e0 (Datatypes.S k)) cs0.
Proof.
  revert cs cs'. induction cs0 as [| c0 cs0 IH]; intros cs cs' Hlen Hh Hl.
  - destruct cs; [| discriminate]. cbn in Hl. now injection Hl as <-.
  - destruct cs as [| c cs]; [discriminate |].
    cbn [map Double.hc_loop] in Hl, Hh. injection Hh as Hh0 Hh.
    destruct (Double.hc_update _ _ _ _ _) as [c1 [x |]] eqn:Hu in Hl; [discriminate |].
    destruct (Double.hc_loop _ _ _ _ _) as [cs1 x] eqn:Hrest in Hl.
    injection Hl as <- ->.
    cbn [map]. f_equal.
    + apply (double_hc_update_ok e0 k all c0 c c1); assumption.
    + apply (IH cs cs1); [cbn in Hlen; lia | exact Hh | exact Hrest].
Qed.

Lemma double_cycle_step_first (e0 e' : Double.HSVCycleEffect) (cs cs' : list Double.HSVColour) :
  Double.hc_nsteps e0 = 0%nat ->
  Double.HSVCycleEffect_step libm_sin libm_asin e0 cs = (e', cs', None) ->
  e' = Double.cycle_at libm_asin e0 1 cs /\ cs' = map (Double.cycled libm_sin libm_asin e0 1) cs.
Proof.
  intros Hn. unfold Double.HSVCycleEffect_step, Double.hc_first. rewrite Hn.
  cbn [Nat.eqb].
  destruct (Double.asin_all libm_asin Double.S cs) as [ss | x] eqn:Hs; [| discriminate].
  destruct (Double.asin_all libm_asin Double.V cs) as [vs | x] eqn:Hv; [| discriminate].
  apply double_asin_all_ok in Hs, Hv. subst ss vs.
  assert (He : Double.hc_tick
                 (Double.hc_set_Vinit
                    (Double.hc_set_Sinit e0 (map (fun c => libm_asin (Double.S c)) cs))
                    (map (fun c => libm_asin (Double.V c)) cs))
               = Double.cycle_at libm_asin e0 1 cs).
  { unfold Double.hc_tick, Double.hc_set_Vinit, Double.hc_set_Sinit, Double.cycle_at.
    cbn. now rewrite Hn. }
  rewrite He. cbn [Double.cycle_at Double.hc_Sinit Double.hc_Vinit].
  fold (Double.cycle_at libm_asin e0 1 cs).
  destruct (Double.hc_loop _ _ _ _ _) as [cs1 x] eqn:Hl.
  intros [= <- <- ->]. split; [reflexivity |].
  apply (double_hc_loop_ok e0 0 cs cs cs cs1); [reflexivity | reflexivity | exact Hl].
Qed.

Lemma double_cycle_step_later (e0 e' : Double.HSVCycleEffect) (k : nat)
    (cs0 cs' : list Double.HSVColour) :
  Double.HSVCycleEffect_step libm_sin libm_asin (Double.cycle_at libm_asin e0 (Datatypes.S k) cs0)
    (map (Double.cycled libm_sin libm_asin e0 (Datatypes.S k)) cs0) = (e', cs', None) ->
  e' = Double.cycle_at libm_asin e0 (Datatypes.S (Datatypes.S k)) cs0
  /\ cs' = map (Double.cycled libm_sin libm_asin e0 (Datatypes.S (Datatypes.S k))) cs0.
Proof.
  unfold Double.HSVCycleEffect_step, Double.hc_first.
  cbn [Double.cycle_at Double.hc_nsteps Nat.eqb].
  assert (He : Double.hc_tick (Double.cycle_at libm_asin e0 (Datatypes.S k) cs0)
               = Double.cycle_at libm_asin e0 (Datatypes.S (Datatypes.S k)) cs0) by reflexivity.
  fold (Double.cycle_at libm_asin e0 (Datatypes.S k) cs0). rewrite He.
  cbn [Double.cycle_at Double.hc_Sinit Double.hc_Vinit].
  fold (Double.cycle_at libm_asin e0 (Datatypes.S (Datatypes.S k)) cs0).
  destruct (Double.hc_loop _ _ _ _ _) as [cs1 x] eqn:Hl.
  intros [= <- <- ->]. split; [reflexivity |].
  apply (double_hc_loop_ok e0 (Datatypes.S k) cs0 cs0 (map (Double.cycled libm_sin libm_asin e0 (Datatypes.S k)) cs0) cs1);
    [apply length_map | now rewrite map_map | exact Hl].
Qed.

Lemma double_cycle_run_later (e0 : Double.HSVCycleEffect) (cs0 : list Double.HSVColour) (n : nat) :
  forall k e' cs',
    Double.HSVCycleEffect_run libm_sin libm_asin n (Double.cycle_at libm_asin e0 (Datatypes.S k) cs0)
      (map (Double.cycled libm_sin libm_asin e0 (Datatypes.S k)) cs0) = (e', cs', None) ->
    e' = Double.cycle_at libm_asin e0 (n + Datatypes.S k) cs0
    /\ cs' = map (Double.cycled libm_sin libm_asin e0 (n + Datatypes.S k)) cs0.
Proof.
  induction n as [| n IH]; intros k e' cs'; cbn [Double.HSVCycleEffect_run].
  - intros [= <- <-]. split; reflexivity.
  - destruct (Double.HSVCycleEffect_step _ _ _ _) as [[e1 cs1] [x |]] eqn:Hs;
      [discriminate |].
    apply double_cycle_step_later in Hs. destruct Hs as [-> ->].
    intros Hr. apply IH in Hr. destruct Hr as [-> ->].
    replace (n + Datatypes.S (Datatypes.S k))%nat with (Datatypes.S n + Datatypes.S k)%nat
      by lia.
    split; reflexivity.
Qed.

(** A run that raises nothing, from an effect that has not stepped yet. *)
Lemma double_cycle_run_fresh (e0 e' : Double.HSVCycleEffect) (n : nat)
    (cs cs' : list Double.HSVColour) :
  Double.hc_nsteps e0 = 0%nat ->
  Double.HSVCycleEffect_run libm_sin libm_asin (Datatypes.S n) e0 cs = (e', cs', None) ->
  e' = Double.cycle_at libm_asin e0 (Datatypes.S n) cs /\ cs' = map (Double.cycled libm_sin libm_asin e0 (Datatypes.S n)) cs.
Proof.
  intros Hn. cbn [Double.HSVCycleEffect_run].
  destruct (Double.HSVCycleEffect_step _ _ _ _) as [[e1 cs1] [x |]] eqn:Hs;
    [discriminate |].
  apply double_cycle_step_first in Hs; [| exact Hn]. destruct Hs as [-> ->].
  intros Hr. apply double_cycle_run_later in Hr. destruct Hr as [-> ->].
  replace (n + 1)%nat with (Datatypes.S n) by lia. split; reflexivity.
Qed.

End CycleInDoubles.

(** The conversion of a colour whose hue is exactly 1: no sector matches. *)
Lemma conversion_of_hue_one (s v : float) :
  Double.getRGBAColour (Double.mkHSV 1 s v) = Raise UnboundLocalError.
Proof. reflexivity. Qed.

(** C8: the failing run.  Three steps of HSVCycleEffect(-0.1, 0, 0) on one
    colour of hue 0.3 and S = V = 1, with whatever C library, leave the hue
    at exactly 1.0 when none of them raises: in the third step the double sum
    [c.H + self.dH] is a negative number so small that the remainder modulo
    1, [fmod] plus 1, rounds to 1.  The hue is then outside [0, 1) and the
    conversion of the colour ends in an UnboundLocalError. *)
Theorem hue_leaves_domain (libm_sin libm_asin : float -> float) :
  let e := Double.HSVCycleEffect_init (-0.1) 0 0 (1 / 255) 1 (1 / 255) 1 in
  let out := Double.HSVCycleEffect_run libm_sin libm_asin 3 e [Double.mkHSV 0.3 1 1] in
  snd out = None ->
  map Double.H (snd (fst out)) = [1]
  /\ Forall (fun c => (Double.H c <? 1) = false
                      /\ Double.getRGBAColour c = Raise UnboundLocalError)
       (snd (fst out)).
Proof.
  intros e out Hnone.
  destruct out as [[e' cs'] x] eqn:Hout. cbn [snd fst] in *. subst x.
  apply double_cycle_run_fresh in Hout; [| reflexivity]. destruct Hout as [_ ->].
  cbn [map]. split.
  - unfold Double.cycled. cbn [Double.H]. f_equal.
  - constructor; [| constructor]. unfold Double.cycled. cbn [Double.H].
    split; [reflexivity | apply conversion_of_hue_one].
Qed.

Lemma hue_leaves_domain_witness :
  snd (Double.HSVCycleEffect_run Double.series_sin Double.series_asin 3
         (Double.HSVCycleEffect_init (-0.1) 0 0 (1 / 255) 1 (1 / 255) 1)
         [Double.mkHSV 0.3 1 1]) = None
  /\ map Double.H
       (snd (fst (Double.HSVCycleEffect_run Double.series_sin Double.series_asin 3
         (Double.HSVCycleEffect_init (-0.1) 0 0 (1 / 255) 1 (1 / 255) 1)
         [Double.mkHSV 0.3 1 1]))) = [1].
Proof.
  assert (Hnone : snd (Double.HSVCycleEffect_run Double.series_sin Double.series_asin 3
         (Double.HSVCycleEffect_init (-0.1) 0 0 (1 / 255) 1 (1 / 255) 1)
         [Double.mkHSV 0.3 1 1]) = None) by (vm_compute; reflexivity).
  split; [exact Hnone |].
  exact (proj1 (hue_leaves_domain Double.series_sin Double.series_asin Hnone)).
Defined.

(** X4: when a run of [n] steps (n >= 1) of an HSVCycleEffect that has not
    stepped yet raises nothing, it leaves as many colours; the hue of each
    has been moved [n] times by [h -> (h + dH) % 1], one rounded step after
    the other, while S and V do not accumulate: they are
    [minS + Srange * (1 + sin(asin(S0) + dS * n)) / 2.0] and the like for V,
    from the colour's starting S0 and V0 and the step count alone.  All
    operations are those of doubles; [sin] and [asin] are the C library's,
    whichever it is. *)
Theorem cycle_run_course (libm_sin libm_asin : float -> float)
    (e0 e' : Double.HSVCycleEffect) (n : nat) (cs cs' : list Double.HSVColour) :
  Double.hc_nsteps e0 = 0%nat -> (1 <= n)%nat ->
  Double.HSVCycleEffect_run libm_sin libm_asin n e0 cs = (e', cs', None) ->
  cs' = map (fun c =>
          Double.mkHSV
            (Nat.iter n (fun h => Double.pymod (h + Double.hc_dH e0) 1) (Double.H c))
            (Double.hc_minS e0 + Double.hc_Srange e0
               * (1 + libm_sin (libm_asin (Double.S c)
                                + Double.hc_dS e0 * Double.float_of_nat n)) / 2)
            (Double.hc_minV e0 + Double.hc_Vrange e0
               * (1 + libm_sin (libm_asin (Double.V c)
                                + Double.hc_dV e0 * Double.float_of_nat n)) / 2)) cs
  /\ length cs' = length cs
  /\ Double.hc_nsteps e' = n.
Proof.
  intros Hn Hpos Hrun. destruct n as [| n]; [lia |].
  apply double_cycle_run_fresh in Hrun; [| exact Hn]. destruct Hrun as [-> ->].
  split; [reflexivity |]. split; [apply length_map | reflexivity].
Qed.

(** Ten steps of 0.1 from the hue 0.6 do not come back to 0.6. *)
Lemma cycle_run_course_witness :
  exists e' cs',
    Double.HSVCycleEffect_run Double.series_sin Double.series_asin 10
      (Double.HSVCycleEffect_init 0.1 0 0 (1 / 255) 1 (1 / 255) 1)
      [Double.mkHSV 0.6 1 1] = (e', cs', None)
    /\ map Double.H cs' = [0.5999999999999999]
    /\ Double.hc_nsteps e' = 10%nat.
Proof.
  destruct (Double.HSVCycleEffect_run Double.series_sin Double.series_asin 10
              (Double.HSVCycleEffect_init 0.1 0 0 (1 / 255) 1 (1 / 255) 1)
              [Double.mkHSV 0.6 1 1]) as [[e' cs'] x] eqn:Hrun.
  assert (Hx : x = None).
  { apply (f_equal snd) in Hrun. cbn [snd] in Hrun. rewrite <- Hrun.
    vm_compute. reflexivity. }
  subst x. exists e', cs'. split; [reflexivity |].
  assert (Hpos : (1 <= 10)%nat) by lia.
  destruct (cycle_run_course Double.series_sin Double.series_asin
              (Double.HSVCycleEffect_init 0.1 0 0 (1 / 255) 1 (1 / 255) 1) e' 10
              [Double.mkHSV 0.6 1 1] cs' eq_refl Hpos Hrun) as (Hcs & _ & Hn).
  split; [| exact Hn]. rewrite Hcs. vm_compute. reflexivity.
Defined.

End DoubleResults.
